(** * AI Image Editor: the filter / history / zoom subsystem

    A shallow embedding of the React component [App] of [src/index.tsx]
    (and of the two older variants of the same component that the
    properties below refer to), with the properties of its undo/redo
    history, its view transform, its posterize filter, its object-URL
    handling and its error handling. *)

From Stdlib Require Import ZArith QArith Qround Qminmax Qabs Qpower String Ascii List Lia Lqa Bool.
From Stdlib Require Import SpecFloat.
From stdpp Require Import base tactics option list gmap.
Import ListNotations.

Local Open Scope string_scope.
Local Open Scope list_scope.
Local Open Scope Z_scope.

(** ** JavaScript values used by the component *)

(** [arr[i]] for an integer-valued index: [undefined] out of range. *)
Definition js_index {A} (l : list A) (i : Z) : option A :=
  if i <? 0 then None else l !! Z.to_nat i.

(** The relative index of [Array.prototype.slice]: negative arguments
    count from the end, everything is clamped into [0, len]. *)
Definition js_relative (len k : Z) : Z :=
  if k <? 0 then Z.max (len + k) 0 else Z.min k len.

(** [arr.slice(start, end)]. *)
Definition js_slice {A} (l : list A) (start end_ : Z) : list A :=
  let len := Z.of_nat (length l) in
  let from := js_relative len start in
  let to := js_relative len end_ in
  take (Z.to_nat (to - from)) (drop (Z.to_nat from) l).

(** JavaScript strings are modelled by their UTF-8 encoding, a byte per
    [ascii].  The white space that [String.prototype.trim] removes is
    the [WhiteSpace] and [LineTerminator] code points of ECMAScript:
    U+0009 to U+000D, U+0020, U+00A0, U+1680, U+2000 to U+200A, U+2028,
    U+2029, U+202F, U+205F, U+3000 and U+FEFF.  They take one, two or
    three bytes. *)
Definition byteIs (c : ascii) (n : nat) : bool := (nat_of_ascii c =? n)%nat.

Definition isWhiteSpace (c : ascii) : bool :=
  let n := nat_of_ascii c in
  ((9 <=? n) && (n <=? 13))%nat || (n =? 32)%nat.

(** U+00A0 is [C2 A0]. *)
Definition isWhiteSpace2 (c1 c2 : ascii) : bool :=
  byteIs c1 194 && byteIs c2 160.

(** U+1680 is [E1 9A 80]; U+2000 to U+200A are [E2 80 80] to [E2 80 8A];
    U+2028, U+2029 and U+202F are [E2 80 A8], [E2 80 A9] and [E2 80 AF];
    U+205F is [E2 81 9F]; U+3000 is [E3 80 80]; U+FEFF is [EF BB BF]. *)
Definition isWhiteSpace3 (c1 c2 c3 : ascii) : bool :=
  let n3 := nat_of_ascii c3 in
  (byteIs c1 225 && byteIs c2 154 && byteIs c3 128)
  || (byteIs c1 226 && byteIs c2 128
      && (((128 <=? n3) && (n3 <=? 138))%nat
          || byteIs c3 168 || byteIs c3 169 || byteIs c3 175))
  || (byteIs c1 226 && byteIs c2 129 && byteIs c3 159)
  || (byteIs c1 227 && byteIs c2 128 && byteIs c3 128)
  || (byteIs c1 239 && byteIs c2 187 && byteIs c3 191).

(** Every code point of [s] is white space. *)
Fixpoint blank (s : string) : bool :=
  match s with
  | EmptyString => true
  | String c1 r1 =>
      if isWhiteSpace c1 then blank r1
      else
        match r1 with
        | EmptyString => false
        | String c2 r2 =>
            if isWhiteSpace2 c1 c2 then blank r2
            else
              match r2 with
              | EmptyString => false
              | String c3 r3 => isWhiteSpace3 c1 c2 c3 && blank r3
              end
        end
  end.

Fixpoint trimStart (s : string) : string :=
  match s with
  | EmptyString => EmptyString
  | String c1 r1 =>
      if isWhiteSpace c1 then trimStart r1
      else
        match r1 with
        | EmptyString => s
        | String c2 r2 =>
            if isWhiteSpace2 c1 c2 then trimStart r2
            else
              match r2 with
              | EmptyString => s
              | String c3 r3 =>
                  if isWhiteSpace3 c1 c2 c3 then trimStart r3 else s
              end
        end
  end.

(** The string without its longest suffix of white space.  No white
    space starts with a continuation byte, so a suffix that starts inside
    a code point is not [blank]. *)
Fixpoint trimEnd (s : string) : string :=
  match s with
  | EmptyString => EmptyString
  | String c rest => if blank s then EmptyString else String c (trimEnd rest)
  end.

Definition trim (s : string) : string := trimEnd (trimStart s).

(** Truthiness of a string: the empty string is falsy. *)
Definition truthy (s : string) : bool :=
  match s with EmptyString => false | _ => true end.

(** ** JavaScript numbers

    The zoom scale, the pan offsets, the pointer coordinates and the
    channel values of the posterize loop are IEEE 754 doubles.  A finite
    double is a rational number and is modelled by it: the doubles are
    the numbers [m * 2 ^ e] with [|m| < 2 ^ 53] and
    [-1074 <= e <= 971].  [+], [-], [*] and [/] return the double
    nearest to the exact result, ties to the even mantissa; a numeric
    literal is the double nearest to its decimal value.  Comparisons,
    [Math.min], [Math.max], [Math.round] and the unary minus are exact on
    doubles.

    The numbers that reach these fields are finite: pointer coordinates
    and [deltaY] are WebIDL [double]s, and the slider is a range input
    with numeric bounds.  The model has neither [-0] nor [NaN], and it
    follows the program as long as no operation overflows: a result
    beyond the largest double is [Infinity] in the browser and is
    represented by the power of two [2 ^ 1024] here. *)
Definition pow2 (k : Z) : Q := (2 ^ k)%Q.

(** The nearest integer, ties to even. *)
Definition roundEven (q : Q) : Z :=
  let f := Qfloor q in
  let r := (q - inject_Z f)%Q in
  if negb (Qle_bool (1 # 2) r) then f
  else if negb (Qle_bool r (1 # 2)) then f + 1
  else if Z.even f then f else f + 1.

(** The exponent of the leading bit of a positive number:
    [2 ^ ilog2 q <= q < 2 ^ (ilog2 q + 1)]. *)
Definition ilog2 (q : Q) : Z :=
  let k := Z.log2 (Qnum q) - Z.log2 (Zpos (Qden q)) in
  if Qle_bool (pow2 k) q then k else k - 1.

(** The exponent of the last bit of the doubles around [q]: 52 places
    below the leading bit, and -1074 for the subnormal numbers. *)
Definition ulpExponent (q : Q) : Z := Z.max (ilog2 (Qabs q) - 52) (-1074).

Definition mantissa (q : Q) : Z := roundEven (q * pow2 (- ulpExponent q)).

(** The multiple of the last bit nearest to [q]. *)
Definition nearest (q : Q) : Q := inject_Z (mantissa q) * pow2 (ulpExponent q).

(** Overflow: from [2 ^ 1024] on the result is infinite. *)
Definition clampRange (r : Q) : Q :=
  if Qle_bool (pow2 1024) r then pow2 1024
  else if Qle_bool r (- pow2 1024) then (- pow2 1024)%Q
  else r.

(** The double nearest to a rational, in lowest terms. *)
Definition double (q : Q) : Q :=
  if Qeq_bool q 0 then 0%Q else clampRange (Qred (nearest q)).

(** The same rounding through the Standard Library's specification of
    binary64 ([SpecFloat]): the quotient of the numerator by the
    denominator, rounded as its division rounds.  The agreement of the
    two is checked below at sample values. *)
Definition prec : Z := 53.
Definition emax : Z := 1024.

Definition SF2Q (f : spec_float) : Q :=
  match f with
  | S754_zero _ => 0
  | S754_nan => 0
  | S754_infinity s =>
      if s then (- inject_Z (2 ^ emax))%Q else inject_Z (2 ^ emax)
  | S754_finite s m e =>
      let v := if s then Zneg m else Zpos m in
      Qred (if 0 <=? e then inject_Z (v * 2 ^ e) else v # Z.to_pos (2 ^ (- e)))
  end.

Definition roundSF (q : Q) : spec_float :=
  let r := Qred q in
  let quotient (s : bool) (n : positive) :=
    let '(m, e, l) := SFdiv_core_binary prec emax (Zpos n) 0 (Zpos (Qden r)) 0 in
    binary_round_aux prec emax s m e l in
  match Qnum r with
  | Z0 => S754_zero false
  | Zpos n => quotient false n
  | Zneg n => quotient true n
  end.

(** A number is a double when rounding leaves it as it is. *)
Definition isDouble (q : Q) : Prop := (double q == q)%Q.

Definition js_add (a b : Q) : Q := double (a + b).
Definition js_sub (a b : Q) : Q := double (a - b).
Definition js_mul (a b : Q) : Q := double (a * b).
(** The divisors of the component are never zero: [step] is 85 and the
    zoom scale is at least 1. *)
Definition js_div (a b : Q) : Q := double (a / b).

(** Numbers of magnitude at most [2 ^ 1000]: a difference, a quotient by
    a scale of at least 1 and a sum of such numbers do not overflow. *)
Definition inRange (q : Q) : bool :=
  Qle_bool (- inject_Z (2 ^ 1000)) q && Qle_bool q (inject_Z (2 ^ 1000)).

Definition Math_min (a b : Q) : Q := if Qle_bool a b then a else b.
Definition Math_max (a b : Q) : Q := if Qle_bool a b then b else a.

(** [Math.round]: the nearest integer, ties towards +infinity. *)
Definition Math_round (q : Q) : Z := Qfloor (q + (1 # 2)).

(** ** Completions and the handler monad

    An event handler runs over the mutable browser and React state [S].
    State updates made before an exception is thrown are kept. *)

(** What a [catch] clause can observe of a thrown value. *)
Inductive Thrown :=
| ErrorObj (message : string)   (* [err instanceof Error] *)
| NonError.                     (* any other thrown value *)

Inductive Completion (A : Type) :=
| Normal (a : A)
| Abrupt (t : Thrown).
Arguments Normal {A} a.
Arguments Abrupt {A} t.

Definition Eff (S A : Type) : Type := S -> Completion A * S.

Definition eff_ret {S A} (a : A) : Eff S A := fun s => (Normal a, s).

Definition eff_bind {S A B} (k : A -> Eff S B) (m : Eff S A) : Eff S B :=
  fun s => match m s with
           | (Normal a, s') => k a s'
           | (Abrupt t, s') => (Abrupt t, s')
           end.

#[export] Instance Eff_ret {S} : MRet (Eff S) := @eff_ret S.
#[export] Instance Eff_bind {S} : MBind (Eff S) := @eff_bind S.

Definition throw {S A} (t : Thrown) : Eff S A := fun s => (Abrupt t, s).

Definition modify {S} (f : S -> S) : Eff S unit := fun s => (Normal tt, f s).

(** [try { body } catch (err) { handler err }]. *)
Definition try_catch {S A} (body : Eff S A) (handler : Thrown -> Eff S A) : Eff S A :=
  fun s => match body s with
           | (Normal a, s') => (Normal a, s')
           | (Abrupt t, s') => handler t s'
           end.

(** [try { body } finally { fin }]. *)
Definition try_finally {S A} (body : Eff S A) (fin : Eff S unit) : Eff S A :=
  fun s => match body s with
           | (c, s') => match fin s' with
                        | (Normal _, s'') => (c, s'')
                        | (Abrupt t, s'') => (Abrupt t, s'')
                        end
           end.

(** The state a handler leaves behind, whatever its completion. *)
Definition exec {S A} (m : Eff S A) (s : S) : S := snd (m s).

(** ** The posterize branch of [applyFilterToCanvas]

    [imageData.data] is a [Uint8ClampedArray]: reading past its end
    gives [undefined], writing past its end is ignored, and a stored
    number is clamped to [0, 255] and rounded to the nearest integer
    (ties to even). *)

Definition toUint8Clamp (q : Q) : Z :=
  if Qle_bool q 0 then 0
  else if Qle_bool 255 q then 255
  else
    let f := Qfloor q in
    let r := (q - inject_Z f)%Q in
    if negb (Qle_bool (1 # 2) r) then f
    else if negb (Qle_bool r (1 # 2)) then f + 1
    else if Z.even f then f else f + 1.

Definition levels : Z := 4.
Definition step : Q := js_div 255 (inject_Z (levels - 1)).

(** [Math.round(c / step) * step] *)
Definition quantize (c : Z) : Q :=
  js_mul (inject_Z (Math_round (js_div (inject_Z c) step))) step.

(** [data[i] = Math.round(data[i] / step) * step].  Out of range the
    read is [undefined], the product is [NaN] and the write is dropped. *)
Definition posterizeChannel (i : nat) (data : list Z) : list Z :=
  match data !! i with
  | Some c => <[i := toUint8Clamp (quantize c)]> data
  | None => data
  end.

(** One iteration of the loop body, for the pixel starting at byte [i]. *)
Definition posterizePixel (i : nat) (data : list Z) : list Z :=
  posterizeChannel (i + 2) (posterizeChannel (i + 1) (posterizeChannel i data)).

(** [for (let i = 0; i < data.length; i += 4) { ... }], from a given [i]. *)
Fixpoint posterizeLoop (fuel : nat) (i : nat) (data : list Z) : option (list Z) :=
  if (i <? length data)%nat then
    match fuel with
    | O => None
    | S fuel' => posterizeLoop fuel' (i + 4) (posterizePixel i data)
    end
  else Some data.

Definition posterize (data : list Z) : option (list Z) :=
  posterizeLoop (length data) 0 data.

(** The four values a posterized channel can take. *)
Definition posterLevel (c : Z) : Z := 85 * ((2 * c + 85) / 170).

Definition isByte (c : Z) : Prop := 0 <= c <= 255.

Definition quantizeAgrees (c : Z) : bool :=
  (toUint8Clamp (quantize c) =? posterLevel c)
  && Qeq_bool (inject_Z (posterLevel c)) (quantize c).

(** ** Browser and API objects *)

Record File := { name : string; type : string; contents : string }.

(** The inline payload of a response part; both fields are optional in
    the API's types. *)
Record InlineData := { data : option string; mimeType : option string }.
Record Part := { inlineData : option InlineData; text : option string }.

(** [`${v}`] for an optional string. *)
Definition templateString (v : option string) : string :=
  match v with Some s => s | None => "undefined" end.

(** [`data:${part.inlineData.mimeType};base64,${base64ImageBytes}`] *)
Definition inlineDataUrl (d : InlineData) : string :=
  ("data:" ++ templateString (mimeType d) ++ ";base64," ++ templateString (data d))%string.

(** How the [try] block of [handleGenerateClick] gets to its loop: the
    awaited calls and the property path
    [response.candidates[0].content.parts] either throw, or give the
    array [parts]. *)
Inductive Outcome :=
| Rejected (t : Thrown)
| Fulfilled (parts : list Part).

(** [err instanceof Error ? err.message : 'An unexpected error occurred.'] *)
Definition errorMessage (err : Thrown) : string :=
  match err with
  | ErrorObj message => message
  | NonError => "An unexpected error occurred."
  end.

(** The set of object URLs that [URL.createObjectURL] has handed out and
    [URL.revokeObjectURL] has not released yet. *)
Record UrlStore := { liveUrls : gset N; nextUrl : N }.

Definition createObjectURL (u : UrlStore) : N * UrlStore :=
  (nextUrl u, {| liveUrls := {[ nextUrl u ]} ∪ liveUrls u; nextUrl := N.succ (nextUrl u) |}).

Definition revokeObjectURL (url : N) (u : UrlStore) : UrlStore :=
  {| liveUrls := liveUrls u ∖ {[ url ]}; nextUrl := nextUrl u |}.

(** ** The state of [App] in [src/index.tsx] *)

Record HistoryState := { imageUrl : string; filter : string }.

Record Zoom := { scale : Q; x : Q; y : Q }.

Record AppState := {
  baseImage : option File;
  editedImageUrl : option string;
  prompt : string;
  isLoading : bool;
  error : option string;
  activeFilter : string;
  history : list HistoryState;
  historyIndex : Z;
  zoom : Zoom;
  isPanning : bool
}.

(** An image element whose [onload] has not fired yet, with what its
    callback closes over: the file for an upload, the values of the
    render in which the filter button was clicked for a filter. *)
Inductive ImageLoad :=
| UploadLoad (src : N) (file : File)
| FilterLoad (src : N) (r : AppState) (filter : string).

Record World := {
  app : AppState;
  urls : UrlStore;
  imageLoads : list ImageLoad;          (* images still loading *)
  requests : list AppState;             (* generate calls in flight, with their render *)
  dragListeners : nat;                  (* mousemove/mouseup pairs on [document] *)
  lastMousePos : Q * Q                  (* [lastMousePosRef.current] *)
}.

Definition initialApp : AppState := {|
  baseImage := None; editedImageUrl := None; prompt := ""; isLoading := false;
  error := None; activeFilter := "none"; history := []; historyIndex := -1;
  zoom := {| scale := 1; x := 0; y := 0 |}; isPanning := false |}.

Definition initialWorld : World := {|
  app := initialApp; urls := {| liveUrls := ∅; nextUrl := 0%N |};
  imageLoads := []; requests := []; dragListeners := 0%nat; lastMousePos := (0%Q, 0%Q) |}.

Definition withApp (f : AppState -> AppState) (w : World) : World :=
  {| app := f (app w); urls := urls w; imageLoads := imageLoads w;
     requests := requests w; dragListeners := dragListeners w;
     lastMousePos := lastMousePos w |}.

Definition withUrls (f : UrlStore -> UrlStore) (w : World) : World :=
  {| app := app w; urls := f (urls w); imageLoads := imageLoads w;
     requests := requests w; dragListeners := dragListeners w;
     lastMousePos := lastMousePos w |}.

Definition withImageLoads (f : list ImageLoad -> list ImageLoad) (w : World) : World :=
  {| app := app w; urls := urls w; imageLoads := f (imageLoads w);
     requests := requests w; dragListeners := dragListeners w;
     lastMousePos := lastMousePos w |}.

Definition withRequests (f : list AppState -> list AppState) (w : World) : World :=
  {| app := app w; urls := urls w; imageLoads := imageLoads w;
     requests := f (requests w); dragListeners := dragListeners w;
     lastMousePos := lastMousePos w |}.

Definition withDragListeners (f : nat -> nat) (w : World) : World :=
  {| app := app w; urls := urls w; imageLoads := imageLoads w;
     requests := requests w; dragListeners := f (dragListeners w);
     lastMousePos := lastMousePos w |}.

Definition withLastMousePos (p : Q * Q) (w : World) : World :=
  {| app := app w; urls := urls w; imageLoads := imageLoads w;
     requests := requests w; dragListeners := dragListeners w;
     lastMousePos := p |}.

(** The state setters returned by [useState]. *)
Definition setBaseImage (v : option File) : Eff World unit :=
  modify (withApp (fun s => {| baseImage := v; editedImageUrl := editedImageUrl s;
    prompt := prompt s; isLoading := isLoading s; error := error s;
    activeFilter := activeFilter s; history := history s; historyIndex := historyIndex s;
    zoom := zoom s; isPanning := isPanning s |})).

Definition setEditedImageUrl (v : option string) : Eff World unit :=
  modify (withApp (fun s => {| baseImage := baseImage s; editedImageUrl := v;
    prompt := prompt s; isLoading := isLoading s; error := error s;
    activeFilter := activeFilter s; history := history s; historyIndex := historyIndex s;
    zoom := zoom s; isPanning := isPanning s |})).

Definition setPrompt (v : string) : Eff World unit :=
  modify (withApp (fun s => {| baseImage := baseImage s; editedImageUrl := editedImageUrl s;
    prompt := v; isLoading := isLoading s; error := error s;
    activeFilter := activeFilter s; history := history s; historyIndex := historyIndex s;
    zoom := zoom s; isPanning := isPanning s |})).

Definition setIsLoading (v : bool) : Eff World unit :=
  modify (withApp (fun s => {| baseImage := baseImage s; editedImageUrl := editedImageUrl s;
    prompt := prompt s; isLoading := v; error := error s;
    activeFilter := activeFilter s; history := history s; historyIndex := historyIndex s;
    zoom := zoom s; isPanning := isPanning s |})).

Definition setError (v : option string) : Eff World unit :=
  modify (withApp (fun s => {| baseImage := baseImage s; editedImageUrl := editedImageUrl s;
    prompt := prompt s; isLoading := isLoading s; error := v;
    activeFilter := activeFilter s; history := history s; historyIndex := historyIndex s;
    zoom := zoom s; isPanning := isPanning s |})).

Definition setActiveFilter (v : string) : Eff World unit :=
  modify (withApp (fun s => {| baseImage := baseImage s; editedImageUrl := editedImageUrl s;
    prompt := prompt s; isLoading := isLoading s; error := error s;
    activeFilter := v; history := history s; historyIndex := historyIndex s;
    zoom := zoom s; isPanning := isPanning s |})).

Definition setHistory (v : list HistoryState) : Eff World unit :=
  modify (withApp (fun s => {| baseImage := baseImage s; editedImageUrl := editedImageUrl s;
    prompt := prompt s; isLoading := isLoading s; error := error s;
    activeFilter := activeFilter s; history := v; historyIndex := historyIndex s;
    zoom := zoom s; isPanning := isPanning s |})).

Definition setHistoryIndex (v : Z) : Eff World unit :=
  modify (withApp (fun s => {| baseImage := baseImage s; editedImageUrl := editedImageUrl s;
    prompt := prompt s; isLoading := isLoading s; error := error s;
    activeFilter := activeFilter s; history := history s; historyIndex := v;
    zoom := zoom s; isPanning := isPanning s |})).

(** [setZoom(prev => f prev)]; [setZoom(v)] is [updateZoom (fun _ => v)]. *)
Definition updateZoom (f : Zoom -> Zoom) : Eff World unit :=
  modify (withApp (fun s => {| baseImage := baseImage s; editedImageUrl := editedImageUrl s;
    prompt := prompt s; isLoading := isLoading s; error := error s;
    activeFilter := activeFilter s; history := history s; historyIndex := historyIndex s;
    zoom := f (zoom s); isPanning := isPanning s |})).

Definition setZoom (v : Zoom) : Eff World unit := updateZoom (fun _ => v).

Definition setIsPanning (v : bool) : Eff World unit :=
  modify (withApp (fun s => {| baseImage := baseImage s; editedImageUrl := editedImageUrl s;
    prompt := prompt s; isLoading := isLoading s; error := error s;
    activeFilter := activeFilter s; history := history s; historyIndex := historyIndex s;
    zoom := zoom s; isPanning := v |})).

(** [{ scale: 1, x: 0, y: 0 }] *)
Definition unitZoom : Zoom := {| scale := 1; x := 0; y := 0 |}.

(** [img.src = URL.createObjectURL(file)] *)
Definition newObjectURL : Eff World N :=
  fun w => let '(url, u) := createObjectURL (urls w) in (Normal url, withUrls (fun _ => u) w).

Definition releaseObjectURL (url : N) : Eff World unit :=
  modify (withUrls (revokeObjectURL url)).

(** [img.onload = () => { ... }] *)
Definition onImageLoad (l : ImageLoad) : Eff World unit :=
  modify (withImageLoads (fun ls => ls ++ [l])).

(** Values derived from the state at each render. *)
Definition currentImageState (r : AppState) : option HistoryState :=
  js_index (history r) (historyIndex r).
Definition originalImageUrl (r : AppState) : option string :=
  imageUrl <$> currentImageState r.
Definition canUndo (r : AppState) : bool := 0 <? historyIndex r.
Definition canRedo (r : AppState) : bool :=
  historyIndex r <? Z.of_nat (length (history r)) - 1.

Definition filters : list string :=
  ["none"; "grayscale"; "sepia"; "vintage"; "invert"; "glow"; "sketch"; "blur";
   "sharpen"; "vignette"; "posterize"].

(** ** What the component takes from the platform

    The encoded canvas contents are a function of the drawn file and of
    the filter; the text of a [TypeError] raised by reading a property
    of [undefined] is chosen by the JavaScript engine. *)
Class Platform := {
  (* [ctx.drawImage(img, 0, 0); canvas.toDataURL(file.type)] *)
  drawnDataUrl : File -> string;
  (* [applyFilterToCanvas(ctx, img, filter); canvas.toDataURL(baseImage.type)] *)
  filteredDataUrl : File -> string -> string;
  (* the message of the TypeError for reading property [p] of [undefined] *)
  typeErrorMessage : string -> string
}.

Definition throwTypeError `{Platform} {S A} (p : string) : Eff S A :=
  throw (ErrorObj (typeErrorMessage p)).

(** ** The event handlers of [src/index.tsx]

    A handler reads the values of the render it was created in ([r]) and
    queues state updates; [r] is the current state when the handler is
    an event handler of the rendered tree, and an older state when the
    handler is a callback that was created earlier. *)

Definition handleImageChange (file : option File) (ctx : bool) : Eff World unit :=
  match file with
  | Some file =>
      setBaseImage (Some file);;
      setEditedImageUrl None;;
      setError None;;
      setZoom unitZoom;;
      if negb ctx then mret tt
      else
        src ← newObjectURL;
        onImageLoad (UploadLoad src file)
  | None => mret tt
  end.

Definition handleFilterClick (r : AppState) (filter : string) (ctx : bool) : Eff World unit :=
  match baseImage r with
  | None => mret tt
  | Some base =>
      if String.eqb (activeFilter r) filter then mret tt
      else
        setActiveFilter filter;;
        setZoom unitZoom;;
        if negb ctx then mret tt
        else
          src ← newObjectURL;
          onImageLoad (FilterLoad src r filter)
  end.

(** The two [img.onload] callbacks. *)
Definition imageOnload `{Platform} (l : ImageLoad) : Eff World unit :=
  match l with
  | UploadLoad src file =>
      let dataUrl := drawnDataUrl file in
      setHistory [ {| imageUrl := dataUrl; filter := "none" |} ];;
      setHistoryIndex 0;;
      setActiveFilter "none";;
      releaseObjectURL src
  | FilterLoad src r filter =>
      match baseImage r with
      | None => throwTypeError "type"
      | Some base =>
          let dataUrl := filteredDataUrl base filter in
          let newHistory :=
            js_slice (history r) 0 (historyIndex r + 1)
              ++ [ {| imageUrl := dataUrl; filter := filter |} ] in
          setHistory newHistory;;
          setHistoryIndex (Z.of_nat (length newHistory) - 1);;
          releaseObjectURL src
      end
  end.

Definition handleUndo `{Platform} (r : AppState) : Eff World unit :=
  if canUndo r then
    let newIndex := historyIndex r - 1 in
    setHistoryIndex newIndex;;
    match js_index (history r) newIndex with
    | None => throwTypeError "filter"
    | Some entry =>
        setActiveFilter (filter entry);;
        setZoom unitZoom
    end
  else mret tt.

Definition handleRedo `{Platform} (r : AppState) : Eff World unit :=
  if canRedo r then
    let newIndex := historyIndex r + 1 in
    setHistoryIndex newIndex;;
    match js_index (history r) newIndex with
    | None => throwTypeError "filter"
    | Some entry =>
        setActiveFilter (filter entry);;
        setZoom unitZoom
    end
  else mret tt.

(** [handleGenerateClick] up to its first [await]. *)
Definition handleGenerateClick (r : AppState) : Eff World unit :=
  match baseImage r, currentImageState r, truthy (trim (prompt r)) with
  | Some _, Some _, true =>
      setIsLoading true;;
      setError None;;
      setEditedImageUrl None;;
      modify (withRequests (fun rs => rs ++ [r]))
  | _, _, _ => setError (Some "Please upload an image and enter a prompt.")
  end.

(** [for (let i = parts.length - 1; i >= 0; i--) { ... }], entered with
    [i = n - 1]; gives [generatedImageFound]. *)
Fixpoint scanParts `{Platform} (parts : list Part) (n : nat) : Eff World bool :=
  match n with
  | O => mret false
  | S i =>
      match parts !! i with
      | None => throwTypeError "inlineData"
      | Some part =>
          match inlineData part with
          | Some d =>
              setEditedImageUrl (Some (inlineDataUrl d));;
              setZoom unitZoom;;
              mret true
          | None => scanParts parts i
          end
      end
  end.

(** The rest of [handleGenerateClick], run when the awaited calls settle. *)
Definition generateSettled `{Platform} (o : Outcome) : Eff World unit :=
  try_finally
    (try_catch
       (parts ← match o with
                | Rejected t => throw t
                | Fulfilled parts => mret parts
                end;
        generatedImageFound ← scanParts parts (length parts);
        if negb generatedImageFound
        then setError (Some "No image was generated. Please try a different prompt.")
        else mret tt)
       (fun err =>
          setError (Some ("Failed to generate image. " ++ errorMessage err)%string)))
    (setIsLoading false).

Definition handleReset : Eff World unit :=
  setBaseImage None;;
  setEditedImageUrl None;;
  setPrompt "";;
  setError None;;
  setActiveFilter "none";;
  setHistory [];;
  setHistoryIndex (-1);;
  setZoom unitZoom.

Definition setZoomLevel (newScale : Q) : Eff World unit :=
  let clampedScale := Math_max 1 (Math_min newScale 10) in
  updateZoom (fun prev =>
    if Qeq_bool clampedScale 1 then {| scale := 1; x := 0; y := 0 |}
    else {| scale := clampedScale; x := x prev; y := y prev |}).

Definition handleZoomButtons (r : AppState) (delta : Q) : Eff World unit :=
  setZoomLevel (js_add (scale (zoom r)) delta).

Definition handleScaleChange (newScale : Q) : Eff World unit :=
  setZoomLevel newScale.

Definition handleWheel (r : AppState) (deltaY : Q) : Eff World unit :=
  let zoomAmount := js_mul (- deltaY) (double (2 # 1000)) in
  setZoomLevel (js_add (scale (zoom r)) zoomAmount).

(** The listener that [handleMouseDown] puts on [document]. *)
Definition handleMouseMove (clientX clientY : Q) : Eff World unit :=
  fun w =>
    let dx := js_sub clientX (fst (lastMousePos w)) in
    let dy := js_sub clientY (snd (lastMousePos w)) in
    (modify (withLastMousePos (clientX, clientY));;
     updateZoom (fun prev =>
       {| scale := scale prev;
          x := js_add (x prev) (js_div dx (scale prev));
          y := js_add (y prev) (js_div dy (scale prev)) |})) w.

Definition handleMouseUp : Eff World unit :=
  modify (withDragListeners Nat.pred);;
  setIsPanning false.

(** [onImage] is [e.target instanceof HTMLImageElement]. *)
Definition handleMouseDown (r : AppState) (onImage : bool) (clientX clientY : Q)
  : Eff World unit :=
  if Qle_bool (scale (zoom r)) 1 || negb onImage then mret tt
  else
    modify (withLastMousePos (clientX, clientY));;
    setIsPanning true;;
    modify (withDragListeners S).

(** ** Events *)

Inductive Event :=
| ImageChange (file : option File) (ctx : bool)
| FilterClick (filter : string) (ctx : bool)
| UndoClick
| RedoClick
| PromptChange (value : string)
| GenerateClick
| GenerateSettled (k : nat) (o : Outcome)   (* the [k]-th call in flight settles *)
| ResetClick
| ZoomButton (delta : Q)
| ScaleChange (newScale : Q)
| ZoomReset
| Wheel (deltaY : Q)
| MouseDown (onImage : bool) (clientX clientY : Q)
| MouseMove (clientX clientY : Q)
| MouseUp
| ImageLoaded (k : nat).                    (* the [k]-th loading image fires [onload] *)

(** Run [m] once for each listener registered when the event is fired. *)
Fixpoint forEachListener (n : nat) (m : Eff World unit) : Eff World unit :=
  match n with
  | O => mret tt
  | S n' => fun w => forEachListener n' m (exec m w)
  end.

(** The handler an event runs; the render it sees is the current state. *)
Definition handler `{Platform} (e : Event) (w : World) : Eff World unit :=
  let r := app w in
  match e with
  | ImageChange file ctx => handleImageChange file ctx
  | FilterClick filter ctx => handleFilterClick r filter ctx
  | UndoClick => handleUndo r
  | RedoClick => handleRedo r
  | PromptChange value => setPrompt value
  | GenerateClick => handleGenerateClick r
  | GenerateSettled k o =>
      match requests w !! k with
      | Some _ => modify (withRequests (delete k));; generateSettled o
      | None => mret tt
      end
  | ResetClick => handleReset
  | ZoomButton delta => handleZoomButtons r delta
  | ScaleChange newScale => handleScaleChange newScale
  | ZoomReset => setZoom unitZoom
  | Wheel deltaY => handleWheel r deltaY
  | MouseDown onImage clientX clientY => handleMouseDown r onImage clientX clientY
  | MouseMove clientX clientY =>
      forEachListener (dragListeners w) (handleMouseMove clientX clientY)
  | MouseUp => forEachListener (dragListeners w) handleMouseUp
  | ImageLoaded k =>
      match imageLoads w !! k with
      | Some l => modify (withImageLoads (delete k));; imageOnload l
      | None => mret tt
      end
  end.

(** An uncaught exception of a handler is reported and the updates it
    queued before are applied. *)
Definition dispatch `{Platform} (e : Event) (w : World) : World :=
  exec (handler e w) w.

Definition run `{Platform} (es : list Event) (w : World) : World :=
  fold_left (fun w e => dispatch e w) es w.

Definition reachable `{Platform} (w : World) : Prop :=
  exists es, w = run es initialWorld.

(** What the rendered tree lets the user do: [disabled] attributes and
    conditional rendering. *)
Definition isSome {A} (o : option A) : bool :=
  match o with Some _ => true | None => false end.

Definition truthyUrl (o : option string) : bool :=
  match o with Some s => truthy s | None => false end.

Definition zoomControlsShown (r : AppState) : bool :=
  truthyUrl (originalImageUrl r) || (negb (isLoading r) && truthyUrl (editedImageUrl r)).

Definition enabled (e : Event) (w : World) : bool :=
  let r := app w in
  match e with
  | ImageChange _ _ => true
  | FilterClick filter _ =>
      isSome (baseImage r) && existsb (String.eqb filter) filters
  | UndoClick => canUndo r
  | RedoClick => canRedo r
  | PromptChange _ => true
  | GenerateClick =>
      negb (isLoading r || negb (isSome (baseImage r)) || negb (truthy (trim (prompt r))))
  | GenerateSettled k _ => isSome (requests w !! k)
  | ResetClick => negb (negb (isSome (baseImage r)) && negb (truthy (prompt r)))
  | ZoomButton delta =>
      zoomControlsShown r
      && (Qeq_bool delta (double (2 # 10)) || Qeq_bool delta (- double (2 # 10)))
  | ScaleChange newScale =>
      zoomControlsShown r && Qle_bool 1 newScale && Qle_bool newScale 10
  | ZoomReset => zoomControlsShown r
  | Wheel _ => true
  | MouseDown onImage _ _ => implb onImage (zoomControlsShown r)
  | MouseMove _ _ => true
  | MouseUp => true
  | ImageLoaded k => isSome (imageLoads w !! k)
  end.

Fixpoint feasible `{Platform} (es : list Event) (w : World) : bool :=
  match es with
  | [] => true
  | e :: es' => enabled e w && feasible es' (dispatch e w)
  end.

(** The properties of the history and of the view transform. *)
Definition historyValid (r : AppState) : Prop :=
  (historyIndex r = -1 <-> history r = []) /\
  (history r <> [] -> 0 <= historyIndex r <= Z.of_nat (length (history r)) - 1).

Definition zoomValid (z : Zoom) : Prop :=
  (1 <= scale z)%Q /\ (scale z <= 10)%Q /\
  (scale z == 1 -> x z == 0 /\ y z == 0)%Q.

(** ** The first variant of the component ([src/unnamed/part_002]) *)
Module Basic.

Record State := {
  originalImage : option File;
  originalImageUrl : option N;
  editedImageUrl : option string;
  prompt : string;
  isLoading : bool;
  error : option string
}.

Record World := { app : State; urls : UrlStore }.

Definition withApp (f : State -> State) (w : World) : World :=
  {| app := f (app w); urls := urls w |}.

Definition setOriginalImage (v : option File) : Eff World unit :=
  modify (withApp (fun s => {| originalImage := v; originalImageUrl := originalImageUrl s;
    editedImageUrl := editedImageUrl s; prompt := prompt s; isLoading := isLoading s;
    error := error s |})).

Definition setOriginalImageUrl (v : option N) : Eff World unit :=
  modify (withApp (fun s => {| originalImage := originalImage s; originalImageUrl := v;
    editedImageUrl := editedImageUrl s; prompt := prompt s; isLoading := isLoading s;
    error := error s |})).

Definition setEditedImageUrl (v : option string) : Eff World unit :=
  modify (withApp (fun s => {| originalImage := originalImage s;
    originalImageUrl := originalImageUrl s; editedImageUrl := v; prompt := prompt s;
    isLoading := isLoading s; error := error s |})).

Definition setIsLoading (v : bool) : Eff World unit :=
  modify (withApp (fun s => {| originalImage := originalImage s;
    originalImageUrl := originalImageUrl s; editedImageUrl := editedImageUrl s;
    prompt := prompt s; isLoading := v; error := error s |})).

Definition setError (v : option string) : Eff World unit :=
  modify (withApp (fun s => {| originalImage := originalImage s;
    originalImageUrl := originalImageUrl s; editedImageUrl := editedImageUrl s;
    prompt := prompt s; isLoading := isLoading s; error := v |})).

Definition newObjectURL : Eff World N :=
  fun w => let '(url, u) := createObjectURL (urls w) in
           (Normal url, {| app := app w; urls := u |}).

Definition handleImageChange (file : option File) : Eff World unit :=
  match file with
  | Some file =>
      setOriginalImage (Some file);;
      url ← newObjectURL;
      setOriginalImageUrl (Some url);;
      setEditedImageUrl None;;
      setError None
  | None => mret tt
  end.

(** [handleGenerateClick] up to its first [await]; [true] when the
    request is sent. *)
Definition handleGenerateClick (r : State) : Eff World bool :=
  match originalImage r, truthy (trim (prompt r)) with
  | Some _, true =>
      setIsLoading true;;
      setError None;;
      setEditedImageUrl None;;
      mret true
  | _, _ =>
      setError (Some "Please upload an image and enter a prompt.");;
      mret false
  end.

Fixpoint scanParts `{Platform} (parts : list Part) (n : nat) : Eff World bool :=
  match n with
  | O => mret false
  | S i =>
      match parts !! i with
      | None => throwTypeError "inlineData"
      | Some part =>
          match inlineData part with
          | Some d => setEditedImageUrl (Some (inlineDataUrl d));; mret true
          | None => scanParts parts i
          end
      end
  end.

Definition generateSettled `{Platform} (o : Outcome) : Eff World unit :=
  try_finally
    (try_catch
       (parts ← match o with
                | Rejected t => throw t
                | Fulfilled parts => mret parts
                end;
        generatedImageFound ← scanParts parts (length parts);
        if negb generatedImageFound
        then setError (Some "No image was generated. Please try a different prompt.")
        else mret tt)
       (fun err =>
          setError (Some ("Failed to generate image. " ++ errorMessage err)%string)))
    (setIsLoading false).

End Basic.

(** ** The filtered-image pipeline of the third variant
    ([src/unnamed/part_001]) *)
Module Filtered.

(** How the promise of [getFilteredImageFile] stands after the call. *)
Inductive Promise :=
| Resolved (file : File)
| RejectedWith (message : string)
| Loading (src : N).              (* waiting for [img.onload] *)

Definition getFilteredImageFile (originalImage : option File) (activeFilter : string)
    (ctx : bool) : Eff UrlStore Promise :=
  match originalImage with
  | Some file =>
      if String.eqb activeFilter "none" then mret (Resolved file)
      else if negb ctx then mret (RejectedWith "Could not get canvas context")
      else fun u => let '(src, u') := createObjectURL u in (Normal (Loading src), u')
  | None => mret (RejectedWith "No image to filter")
  end.

(** The effect of [img.onload] on the object URLs; the promise is
    settled later, by the callback of [canvas.toBlob]. *)
Definition onload (src : N) : Eff UrlStore unit :=
  modify (revokeObjectURL src).

(** The callback given to [canvas.toBlob]. *)
Definition toBlobCallback (originalImage : File) (blob : option string) : Promise :=
  match blob with
  | Some bytes =>
      Resolved {| name := name originalImage; type := type originalImage;
                  contents := bytes |}
  | None => RejectedWith "Canvas toBlob failed"
  end.

(** The body of the [useEffect] that redraws the preview, as far as
    object URLs go: the URL it creates, if any. *)
Definition previewEffect (originalImage : option File) (ctx : bool)
    : Eff UrlStore (option N) :=
  match originalImage with
  | None => mret None
  | Some _ =>
      if negb ctx then mret None
      else fun u => let '(src, u') := createObjectURL u in (Normal (Some src), u')
  end.

End Filtered.

(** A platform to run the component on. *)
Definition samplePlatform : Platform := {|
  drawnDataUrl f := ("data:" ++ type f ++ ";base64," ++ contents f)%string;
  filteredDataUrl f flt := ("data:" ++ type f ++ ";base64," ++ flt ++ "/" ++ contents f)%string;
  typeErrorMessage p := ("Cannot read properties of undefined (reading '" ++ p ++ "')")%string
|}.

Definition sampleFile : File :=
  {| name := "cat.png"; type := "image/png"; contents := "iVBORw0KGgo=" |}.

(** ** Notions used by the properties *)

(** The history and its index, the part of the state the index
    invariant is about. *)
Definition historyOf (w : World) : list HistoryState * Z :=
  (history (app w), historyIndex (app w)).

Definition noInlineData (p : Part) : Prop := inlineData p = None.

Definition loadSrc (l : ImageLoad) : N :=
  match l with
  | UploadLoad src _ => src
  | FilterLoad src _ _ => src
  end.

(** Every live object URL is the source of exactly one image that is
    still loading, and filter loads have their file. *)
Record urlsTracked (w : World) : Prop := {
  tracked_nodup : NoDup (loadSrc <$> imageLoads w);
  tracked_live : forall u, u ∈ liveUrls (urls w) <-> u ∈ (loadSrc <$> imageLoads w);
  tracked_fresh : forall u, u ∈ liveUrls (urls w) -> (u < nextUrl (urls w))%N;
  tracked_file : forall src r filter,
    FilterLoad src r filter ∈ imageLoads w -> baseImage r <> None
}.

Definition loadsOf (w : World) : UrlStore * list ImageLoad := (urls w, imageLoads w).

(** The states that clicks on one filter, with image loads in between,
    can lead to from [w0]. *)
Inductive clicksState `{Platform} (w0 : World) (filter : string) (w : World) : Prop :=
| clicksIdle : w = w0 -> clicksState w0 filter w
| clicksLoading base :
    baseImage (app w) = Some base ->
    baseImage (app w0) = Some base ->
    activeFilter (app w) = filter ->
    historyOf w = historyOf w0 ->
    imageLoads w = [FilterLoad (nextUrl (urls w0)) (app w0) filter] ->
    clicksState w0 filter w
| clicksDone base :
    baseImage (app w) = Some base ->
    baseImage (app w0) = Some base ->
    activeFilter (app w) = filter ->
    imageLoads w = [] ->
    (history (app w) = history (app w0) \/
     history (app w) =
       js_slice (history (app w0)) 0 (historyIndex (app w0) + 1)
         ++ [ {| imageUrl := filteredDataUrl base filter; filter := filter |} ]) ->
    clicksState w0 filter w.

Definition clickOrLoad (filter : string) (e : Event) : Prop :=
  (exists ctx, e = FilterClick filter ctx) \/ (exists k, e = ImageLoaded k).

(** Sample states, reached on [samplePlatform]. *)
Definition uploadedWorld : World :=
  @run samplePlatform [ImageChange (Some sampleFile) true; ImageLoaded 0] initialWorld.

Definition promptedWorld : World :=
  @dispatch samplePlatform (PromptChange "Add a cat wearing sunglasses") uploadedWorld.

Definition requestedWorld : World :=
  @dispatch samplePlatform GenerateClick promptedWorld.

Definition draggingWorld : World :=
  @run samplePlatform
    [ImageChange (Some sampleFile) true; ImageLoaded 0; ScaleChange 2;
     MouseDown true 100 100] initialWorld.

(** The numbers that a pointer move to [(clientX, clientY)] computes
    with. *)
Definition moveInRange (w : World) (clientX clientY : Q) : bool :=
  forallb inRange
    [clientX; clientY; fst (lastMousePos w); snd (lastMousePos w);
     x (zoom (app w)); y (zoom (app w))].

(** A drag at scale 3, where the quotient of a displacement of 10 is not
    a double. *)
Definition dragAtThreeEvents : list Event :=
  [ImageChange (Some sampleFile) true; ImageLoaded 0; ScaleChange 3;
   MouseDown true 100 100].

Definition dragAtThree : World := @run samplePlatform dragAtThreeEvents initialWorld.

Definition samplePixels : list Z := [10; 100; 200; 77; 43; 128; 255; 0].

Definition sampleParts : list Part :=
  [ {| inlineData := Some {| data := Some "AAAA"; mimeType := Some "image/png" |};
       text := None |};
    {| inlineData := Some {| data := Some "BBBB"; mimeType := Some "image/jpeg" |};
       text := None |};
    {| inlineData := None; text := Some "Here is your image." |} ].

(** A run in which the wheel brings the scale back to 1 during a drag. *)
Definition panTrace : list Event :=
  [ ImageChange (Some sampleFile) true; ImageLoaded 0; ScaleChange 2;
    MouseDown true 100 100;
    Wheel 100; Wheel 100; Wheel 100; Wheel 100; Wheel 100; Wheel 100;
    MouseMove 105 100 ].

(** Values at which the two roundings are compared. *)
Definition doubleSamples : list Q :=
  [ 0; 1; -1; 1 # 10; 2 # 10; 3 # 10; 2 # 1000; 1005 # 1000; 10 # 3; - (4 # 3);
    1 # 3; 2 # 3; 255 # 85; 127 # 85; 43 # 85; 1 # 7; 100 # 7; - (22 # 7);
    (3602879701896397 # 36028797018963968) + (3602879701896397 # 18014398509481984);
    inject_Z (2 ^ 53) + 1; inject_Z (2 ^ 53) + 2; inject_Z (2 ^ 53) + 3;
    inject_Z (2 ^ 54) - 1; 1 + (1 # 2 ^ 53); 1 + (3 # 2 ^ 54); 1 - (1 # 2 ^ 54);
    1 # 2 ^ 1074; 1 # 2 ^ 1075; 3 # 2 ^ 1075; 5 # 2 ^ 1075; 1 # (3 * 2 ^ 1070);
    - (1 # 2 ^ 1076); (2 ^ 52 + 1) # 2 ^ 1075; 1 # 2 ^ 1022; (2 ^ 53 - 1) # 2 ^ 1075;
    inject_Z (2 ^ 1023); inject_Z (2 ^ 1024 - 2 ^ 971); inject_Z (2 ^ 1024 - 2 ^ 970);
    inject_Z (2 ^ 1024 - 2 ^ 970 - 1); inject_Z (2 ^ 1024); - inject_Z (2 ^ 1030);
    inject_Z (2 ^ 1023) / 3; 123456789 # 1000; - (987654321 # 100000) ]%Q.

(** ** Further functions of the component *)

(** The [switch] of [applyFilterToCanvas] that picks the CSS filter. *)
Definition cssFilter (filter : string) : string :=
  if String.eqb filter "grayscale" then "grayscale(100%)"
  else if String.eqb filter "sepia" then "sepia(100%)"
  else if String.eqb filter "vintage" then "sepia(70%) contrast(110%) brightness(90%)"
  else if String.eqb filter "invert" then "invert(100%)"
  else if String.eqb filter "glow" then "brightness(1.2) saturate(1.3) contrast(1.05)"
  else if String.eqb filter "sketch" then "grayscale(1) contrast(150%) brightness(110%)"
  else if String.eqb filter "blur" then "blur(4px)"
  else if String.eqb filter "sharpen" then "contrast(140%) saturate(110%)"
  else "none".

(** The drawing [applyFilterToCanvas] does by hand after [drawImage]. *)
Inductive ManualPass :=
| NoManualPass
| VignettePass      (* the radial gradient *)
| PosterizePass.    (* the loop over the pixel buffer *)

Definition manualPass (filter : string) : ManualPass :=
  if String.eqb filter "vignette" then VignettePass
  else if String.eqb filter "posterize" then PosterizePass
  else NoManualPass.

(** [s.split(sep)] for a separator of one character. *)
Fixpoint split (sep : ascii) (s : string) : list string :=
  match s with
  | EmptyString => [EmptyString]
  | String c rest =>
      if Ascii.eqb c sep then EmptyString :: split sep rest
      else match split sep rest with
           | piece :: pieces => String c piece :: pieces
           | [] => [String c EmptyString]
           end
  end.

(** [fileToGenerativePart], given what the [FileReader] read:
    [(reader.result as string).split(',')[1]] and the type of the file. *)
Definition fileToGenerativePart (file : File) (readerResult : string) : Part :=
  {| inlineData := Some {| data := split "," readerResult !! 1%nat;
                           mimeType := Some (type file) |};
     text := None |}.

(** What [handleDownload] gives the link it clicks; [None] when it
    returns at once. *)
Record Download := { href : string; download : string }.

Definition handleDownload (r : AppState) : option Download :=
  match editedImageUrl r with
  | Some url =>
      if truthy url then
        let fileName :=
          match baseImage r with
          | Some file => if truthy (name file) then name file else "image.png"
          | None => "image.png"
          end in
        Some {| href := url; download := ("edited-" ++ fileName)%string |}
      else None
  | None => None
  end.

(** The [cursor] of [imageStyle]. *)
Definition cursor (r : AppState) : string :=
  if isPanning r then "grabbing"
  else if negb (Qle_bool (scale (zoom r)) 1) then "grab"
  else "default".

(** [Math.round(scale * 100)], shown by [ZoomControls]. *)
Definition zoomPercentage (scale : Q) : Z := Math_round (js_mul scale 100).

(** The states reached through events that the rendered page offers. *)
Definition offered `{Platform} (w : World) : Prop :=
  exists es, feasible es initialWorld = true /\ w = run es initialWorld.

(** A history entry whose filter name is the one its snapshot was
    rendered with. *)
Definition renderedEntry `{Platform} (e : HistoryState) : Prop :=
  exists file,
    e = {| imageUrl := drawnDataUrl file; filter := "none" |} \/
    e = {| imageUrl := filteredDataUrl file (filter e); filter := filter e |}.

Definition renderedClosure `{Platform} (l : ImageLoad) : Prop :=
  match l with
  | UploadLoad _ _ => True
  | FilterLoad _ r _ => Forall renderedEntry (history r)
  end.

(** [n] clicks on one button. *)
Definition clicks (e : Event) (n : nat) : list Event := repeat e n.

(** Strings without a given character. *)
Fixpoint without (sep : ascii) (s : string) : bool :=
  match s with
  | EmptyString => true
  | String c rest => negb (Ascii.eqb c sep) && without sep rest
  end.

(** ** The second variant ([src/unnamed/part_000]): the first one with a
    reset and a download button *)
Module Earlier.

Definition setPrompt (v : string) : Eff Basic.World unit :=
  modify (Basic.withApp (fun s =>
    {| Basic.originalImage := Basic.originalImage s;
       Basic.originalImageUrl := Basic.originalImageUrl s;
       Basic.editedImageUrl := Basic.editedImageUrl s; Basic.prompt := v;
       Basic.isLoading := Basic.isLoading s; Basic.error := Basic.error s |})).

Definition handleReset : Eff Basic.World unit :=
  Basic.setOriginalImage None;;
  Basic.setOriginalImageUrl None;;
  Basic.setEditedImageUrl None;;
  setPrompt "";;
  Basic.setError None.

Definition handleDownload (r : Basic.State) : option Download :=
  match Basic.editedImageUrl r with
  | Some url =>
      if truthy url then
        let fileName :=
          match Basic.originalImage r with
          | Some file => if truthy (name file) then name file else "image.png"
          | None => "image.png"
          end in
        Some {| href := url; download := ("edited-" ++ fileName)%string |}
      else None
  | None => None
  end.

Inductive Event :=
| ImageChange (file : option File)
| PromptChange (value : string)
| GenerateClick
| GenerateSettled (o : Outcome)
| ResetClick.

Definition handler `{Platform} (e : Event) (w : Basic.World) : Eff Basic.World unit :=
  match e with
  | ImageChange file => Basic.handleImageChange file
  | PromptChange value => setPrompt value
  | GenerateClick => Basic.handleGenerateClick (Basic.app w);; mret tt
  | GenerateSettled o => Basic.generateSettled o
  | ResetClick => handleReset
  end.

Definition dispatch `{Platform} (e : Event) (w : Basic.World) : Basic.World :=
  exec (handler e w) w.

Definition run `{Platform} (es : list Event) (w : Basic.World) : Basic.World :=
  fold_left (fun w e => dispatch e w) es w.

Definition initialWorld : Basic.World :=
  {| Basic.app := {| Basic.originalImage := None; Basic.originalImageUrl := None;
                     Basic.editedImageUrl := None; Basic.prompt := "";
                     Basic.isLoading := false; Basic.error := None |};
     Basic.urls := {| liveUrls := ∅; nextUrl := 0%N |} |}.

Definition reachable `{Platform} (w : Basic.World) : Prop :=
  exists es, w = run es initialWorld.

End Earlier.

(** ** The filter strings of the third variant ([src/unnamed/part_001]) *)
Module FilterStrings.

(** The [switch] in the preview effect. *)
Definition preview (activeFilter : string) : string :=
  if String.eqb activeFilter "grayscale" then "grayscale(100%)"
  else if String.eqb activeFilter "sepia" then "sepia(100%)"
  else if String.eqb activeFilter "vintage" then "sepia(70%) contrast(110%) brightness(90%)"
  else if String.eqb activeFilter "invert" then "invert(100%)"
  else if String.eqb activeFilter "glow" then "brightness(1.2) saturate(1.3) contrast(1.05)"
  else if String.eqb activeFilter "sketch" then "grayscale(1) contrast(150%) brightness(110%)"
  else "none".

(** The [switch] in [getFilteredImageFile]. *)
Definition sent (activeFilter : string) : string :=
  if String.eqb activeFilter "grayscale" then "grayscale(100%)"
  else if String.eqb activeFilter "sepia" then "sepia(100%)"
  else if String.eqb activeFilter "vintage" then "sepia(70%) contrast(110%) brightness(90%)"
  else if String.eqb activeFilter "invert" then "invert(100%)"
  else if String.eqb activeFilter "glow" then "brightness(1.2) saturate(1.3) contrast(1.05)"
  else if String.eqb activeFilter "sketch" then "grayscale(1) contrast(150%) brightness(110%)"
  else "none".

Definition filters : list string :=
  ["none"; "grayscale"; "sepia"; "vintage"; "invert"; "glow"; "sketch"].

End FilterStrings.

(** Further sample states. *)
Definition filteredWorld : World :=
  @run samplePlatform
    [ImageChange (Some sampleFile) true; ImageLoaded 0;
     FilterClick "sepia" true; ImageLoaded 0] initialWorld.

Definition requestEvents : list Event :=
  [ImageChange (Some sampleFile) true; ImageLoaded 0;
   PromptChange "Add a cat wearing sunglasses"; GenerateClick].

Definition loadingWorld : World := @run samplePlatform requestEvents initialWorld.

Definition settledWorld : World :=
  @run samplePlatform (requestEvents ++ [GenerateSettled 0 (Fulfilled sampleParts)])
    initialWorld.

Definition calmEvents : list Event :=
  [ImageChange (Some sampleFile) true; ImageLoaded 0; ScaleChange 2; Wheel 100].

Definition earlyWorld : Basic.World :=
  @Earlier.run samplePlatform [Earlier.ImageChange (Some sampleFile)] Earlier.initialWorld.

(** * Properties *)

(** Unfolding of the handler monad and of the state setters. *)
Ltac eff_unfold :=
  cbv [dispatch exec mbind mret Eff_bind Eff_ret eff_bind eff_ret modify throw
       throwTypeError try_catch try_finally
       setBaseImage setEditedImageUrl setPrompt setIsLoading setError
       setActiveFilter setHistory setHistoryIndex updateZoom setZoom setIsPanning
       newObjectURL releaseObjectURL onImageLoad createObjectURL
       withApp withUrls withImageLoads withRequests withDragListeners withLastMousePos];
  cbn [fst snd app urls imageLoads requests dragListeners lastMousePos
       baseImage editedImageUrl prompt isLoading error activeFilter history
       historyIndex zoom isPanning liveUrls nextUrl].

(** ** Rounding to doubles *)

(** Powers of two. *)
Lemma pow2_pos (k : Z) : (0 < pow2 k)%Q.
Proof. apply Qpower_0_lt. reflexivity. Qed.

Lemma pow2_add (a b : Z) : (pow2 (a + b) == pow2 a * pow2 b)%Q.
Proof. apply Qpower_plus. discriminate. Qed.

Lemma pow2_le (a b : Z) : a <= b -> (pow2 a <= pow2 b)%Q.
Proof. intros. apply Qpower_le_compat_l; [assumption | discriminate]. Qed.

Lemma pow2_lt (a b : Z) : a < b -> (pow2 a < pow2 b)%Q.
Proof. intros. apply Qpower_lt_compat_l; [assumption | reflexivity]. Qed.

Lemma pow2_lt_inv (a b : Z) : (pow2 a < pow2 b)%Q -> a < b.
Proof. intros. eapply Qpower_lt_compat_l_inv; [eassumption | reflexivity]. Qed.

Lemma pow2_Z (k : Z) : 0 <= k -> (pow2 k == inject_Z (2 ^ k))%Q.
Proof. intros. unfold pow2. now rewrite Zpower_Qpower. Qed.

Lemma pow2_cancel (e : Z) : (pow2 e * pow2 (- e) == 1)%Q.
Proof. rewrite <- pow2_add. now replace (e + - e) with 0 by lia. Qed.

(** The leading bit. *)
Lemma Qmake_den (q : Q) : (q * inject_Z (Zpos (Qden q)) == inject_Z (Qnum q))%Q.
Proof. destruct q as [n d]. unfold Qeq, Qmult, inject_Z. cbn [Qnum Qden]. lia. Qed.

Lemma ilog2_spec (q : Q) :
  (0 < q)%Q -> (pow2 (ilog2 q) <= q)%Q /\ (q < pow2 (ilog2 q + 1))%Q.
Proof.
  intros Hq.
  assert (Hn : 0 < Qnum q) by (destruct q; unfold Qlt in Hq; cbn in *; lia).
  pose proof (Z.log2_spec (Qnum q) Hn) as [Hn1 Hn2].
  pose proof (Z.log2_spec (Zpos (Qden q)) ltac:(lia)) as [Hd1 Hd2].
  pose proof (Z.log2_nonneg (Qnum q)) as Ha.
  pose proof (Z.log2_nonneg (Zpos (Qden q))) as Hb.
  set (a := Z.log2 (Qnum q)) in *. set (b := Z.log2 (Zpos (Qden q))) in *.
  pose proof (Qmake_den q) as Hqd.
  assert (Hup : (q < pow2 (a - b + 1))%Q).
  { apply Qmult_lt_r with (z := pow2 b); [apply pow2_pos|].
    rewrite <- pow2_add. replace (a - b + 1 + b) with (Z.succ a) by lia.
    rewrite !pow2_Z by lia.
    apply Qle_lt_trans with (y := inject_Z (Qnum q)).
    - rewrite <- Hqd. apply Qmult_le_l; [exact Hq|]. rewrite <- Zle_Qle. exact Hd1.
    - rewrite <- Zlt_Qlt. exact Hn2. }
  assert (Hlow : (pow2 (a - b - 1) < q)%Q).
  { apply Qmult_lt_r with (z := pow2 (Z.succ b)); [apply pow2_pos|].
    rewrite <- pow2_add. replace (a - b - 1 + Z.succ b) with a by lia.
    rewrite !pow2_Z by lia.
    apply Qle_lt_trans with (y := inject_Z (Qnum q)).
    - rewrite <- Zle_Qle. exact Hn1.
    - rewrite <- Hqd. apply Qmult_lt_l; [exact Hq|]. rewrite <- Zlt_Qlt. exact Hd2. }
  unfold ilog2. fold a b.
  destruct (Qle_bool (pow2 (a - b)) q) eqn:Hk.
  - split; [now apply Qle_bool_iff | exact Hup].
  - split; [now apply Qlt_le_weak|].
    replace (a - b - 1 + 1) with (a - b) by lia.
    apply Qnot_le_lt. intros Hc. apply Qle_bool_iff in Hc. congruence.
Qed.

Lemma ilog2_unique (q : Q) (l : Z) :
  (pow2 l <= q)%Q -> (q < pow2 (l + 1))%Q -> ilog2 q = l.
Proof.
  intros H1 H2.
  assert (Hq : (0 < q)%Q) by (eapply Qlt_le_trans; [apply pow2_pos | exact H1]).
  destruct (ilog2_spec q Hq) as [H3 H4].
  assert (ilog2 q < l + 1).
  { apply pow2_lt_inv. eapply Qle_lt_trans; eassumption. }
  assert (l < ilog2 q + 1).
  { apply pow2_lt_inv. eapply Qle_lt_trans; eassumption. }
  lia.
Qed.

Lemma ilog2_comp (q q' : Q) : (0 < q)%Q -> (q == q')%Q -> ilog2 q = ilog2 q'.
Proof.
  intros Hq Heq. symmetry. destruct (ilog2_spec q Hq) as [H1 H2].
  apply ilog2_unique; now rewrite <- Heq.
Qed.

Lemma ilog2_le (q q' : Q) : (0 < q)%Q -> (q <= q')%Q -> ilog2 q <= ilog2 q'.
Proof.
  intros Hq Hle.
  assert (Hq' : (0 < q')%Q) by (eapply Qlt_le_trans; eassumption).
  destruct (ilog2_spec q Hq) as [H1 _]. destruct (ilog2_spec q' Hq') as [_ H2].
  assert (ilog2 q < ilog2 q' + 1); [|lia].
  apply pow2_lt_inv. eapply Qle_lt_trans; [exact H1|].
  eapply Qle_lt_trans; eassumption.
Qed.

Lemma ilog2_pow2 (k : Z) : ilog2 (pow2 k) = k.
Proof. apply ilog2_unique; [apply Qle_refl | apply pow2_lt; lia]. Qed.

(** Rounding to an integer. *)
Lemma roundEven_comp (q q' : Q) : (q == q')%Q -> roundEven q = roundEven q'.
Proof.
  intros Heq. unfold roundEven.
  assert (Hf : Qfloor q = Qfloor q') by now rewrite Heq.
  rewrite Hf.
  assert (Hr : (q - inject_Z (Qfloor q') == q' - inject_Z (Qfloor q'))%Q) by now rewrite Heq.
  assert (E1 : Qle_bool (1 # 2) (q - inject_Z (Qfloor q'))
               = Qle_bool (1 # 2) (q' - inject_Z (Qfloor q'))) by now rewrite Hr.
  assert (E2 : Qle_bool (q - inject_Z (Qfloor q')) (1 # 2)
               = Qle_bool (q' - inject_Z (Qfloor q')) (1 # 2)) by now rewrite Hr.
  now rewrite E1, E2.
Qed.

Lemma roundEven_cases (q : Q) :
  let f := Qfloor q in
  (roundEven q = f /\ (q - inject_Z f <= 1 # 2)%Q) \/
  (roundEven q = f + 1 /\ (1 # 2 <= q - inject_Z f)%Q).
Proof.
  cbv zeta. unfold roundEven.
  destruct (Qle_bool (1 # 2) (q - inject_Z (Qfloor q))) eqn:H1; cbn [negb].
  - apply Qle_bool_iff in H1.
    destruct (Qle_bool (q - inject_Z (Qfloor q)) (1 # 2)) eqn:H2; cbn [negb].
    + apply Qle_bool_iff in H2. destruct (Z.even (Qfloor q)); [left | right]; now split.
    + right. now split.
  - left. split; [reflexivity|].
    apply Qlt_le_weak, Qnot_le_lt. intros Hc. apply Qle_bool_iff in Hc. congruence.
Qed.

Lemma roundEven_Z (k : Z) : roundEven (inject_Z k) = k.
Proof.
  unfold roundEven. rewrite Qfloor_Z.
  assert (Hr : (inject_Z k - inject_Z k == 0)%Q) by ring.
  rewrite Hr. reflexivity.
Qed.

Lemma roundEven_le (q q' : Q) : (q <= q')%Q -> roundEven q <= roundEven q'.
Proof.
  intros Hle.
  pose proof (Qfloor_resp_le q q' Hle) as Hf.
  destruct (Z.eq_dec (Qfloor q) (Qfloor q')) as [Heq | Hne].
  - unfold roundEven. rewrite Heq.
    set (f := Qfloor q').
    assert (Hr : (q - inject_Z f <= q' - inject_Z f)%Q) by lra.
    destruct (Qle_bool (1 # 2) (q - inject_Z f)) eqn:H1;
      destruct (Qle_bool (1 # 2) (q' - inject_Z f)) eqn:H1'; cbn [negb].
    + destruct (Qle_bool (q - inject_Z f) (1 # 2)) eqn:H2;
        destruct (Qle_bool (q' - inject_Z f) (1 # 2)) eqn:H2'; cbn [negb];
        try destruct (Z.even f); try lia.
      exfalso. apply Qle_bool_iff in H2'.
      assert (Hc : Qle_bool (q - inject_Z f) (1 # 2) = true) by (apply Qle_bool_iff; lra).
      congruence.
    + exfalso. apply Qle_bool_iff in H1.
      assert (Hc : Qle_bool (1 # 2) (q' - inject_Z f) = true) by (apply Qle_bool_iff; lra).
      congruence.
    + destruct (Qle_bool (q' - inject_Z f) (1 # 2)); cbn [negb];
        try destruct (Z.even f); lia.
    + lia.
  - destruct (roundEven_cases q) as [[-> _] | [-> _]];
      destruct (roundEven_cases q') as [[-> _] | [-> _]]; lia.
Qed.

Lemma roundEven_opp (q : Q) : roundEven (- q) = - roundEven q.
Proof.
  pose proof (Qfloor_le q) as Hlo. pose proof (Qlt_floor q) as Hhi.
  rewrite inject_Z_plus in Hhi.
  destruct (Qeq_dec q (inject_Z (Qfloor q))) as [Hint | Hfrac].
  - rewrite (roundEven_comp q _ Hint), roundEven_Z.
    assert (Hn : (- q == inject_Z (- Qfloor q))%Q) by (rewrite inject_Z_opp; now rewrite <- Hint).
    now rewrite (roundEven_comp _ _ Hn), roundEven_Z.
  - assert (Hf : Qfloor (- q) = - Qfloor q - 1).
    { pose proof (Qfloor_le (- q)) as Hlo'. pose proof (Qlt_floor (- q)) as Hhi'.
      rewrite inject_Z_plus in Hhi'.
      assert (Hlt : (inject_Z (Qfloor q) < q)%Q).
      { apply Qle_lteq in Hlo as [Hlt | Heq]; [exact Hlt | now symmetry in Heq]. }
      assert (H1 : (inject_Z (Qfloor (- q)) < inject_Z (- Qfloor q))%Q)
        by (rewrite inject_Z_opp; lra).
      assert (H2 : (inject_Z (- Qfloor q - 1 - 1) < inject_Z (Qfloor (- q)))%Q).
      { unfold Z.sub. rewrite !inject_Z_plus, !inject_Z_opp. lra. }
      rewrite <- Zlt_Qlt in H1, H2. lia. }
    unfold roundEven. rewrite Hf.
    set (f := Qfloor q) in *.
    assert (Hr : (- q - inject_Z (- f - 1) == 1 - (q - inject_Z f))%Q).
    { unfold Z.sub. rewrite !inject_Z_plus, !inject_Z_opp. ring. }
    assert (E1 : Qle_bool (1 # 2) (- q - inject_Z (- f - 1))
                 = Qle_bool (1 # 2) (1 - (q - inject_Z f))) by now rewrite Hr.
    assert (E2 : Qle_bool (- q - inject_Z (- f - 1)) (1 # 2)
                 = Qle_bool (1 - (q - inject_Z f)) (1 # 2)) by now rewrite Hr.
    rewrite E1, E2. clear E1 E2 Hr.
    set (r := (q - inject_Z f)%Q) in *.
    assert (He : Z.even (- f - 1) = negb (Z.even f)).
    { replace (- f - 1) with (- (f + 1)) by lia.
      rewrite Z.even_opp, Z.even_add. destruct (Z.even f); reflexivity. }
    rewrite He.
    destruct (Qle_bool (1 # 2) r) eqn:H1; destruct (Qle_bool r (1 # 2)) eqn:H2; cbn [negb].
    + apply Qle_bool_iff in H1, H2.
      assert (Ha : Qle_bool (1 # 2) (1 - r) = true) by (apply Qle_bool_iff; lra).
      assert (Hb : Qle_bool (1 - r) (1 # 2) = true) by (apply Qle_bool_iff; lra).
      rewrite Ha, Hb. cbn [negb]. destruct (Z.even f); cbn [negb]; lia.
    + apply Qle_bool_iff in H1.
      assert (Hb : Qle_bool (1 # 2) (1 - r) = false).
      { destruct (Qle_bool (1 # 2) (1 - r)) eqn:Hc; [|reflexivity].
        apply Qle_bool_iff in Hc.
        assert (Hd : Qle_bool r (1 # 2) = true) by (apply Qle_bool_iff; lra). congruence. }
      rewrite Hb. cbn [negb]. lia.
    + apply Qle_bool_iff in H2.
      assert (Ha : Qle_bool (1 # 2) (1 - r) = true) by (apply Qle_bool_iff; lra).
      assert (Hb : Qle_bool (1 - r) (1 # 2) = false).
      { destruct (Qle_bool (1 - r) (1 # 2)) eqn:Hc; [|reflexivity].
        apply Qle_bool_iff in Hc.
        assert (Hd : Qle_bool (1 # 2) r = true) by (apply Qle_bool_iff; lra). congruence. }
      rewrite Ha, Hb. cbn [negb]. lia.
    + exfalso.
      assert (Hc : ~ (1 # 2 <= r)%Q) by (intros Hc; apply Qle_bool_iff in Hc; congruence).
      assert (Hd : ~ (r <= 1 # 2)%Q) by (intros Hd; apply Qle_bool_iff in Hd; congruence).
      apply Hc. apply Qlt_le_weak. now apply Qnot_le_lt.
Qed.

(** The exponent of the last bit. *)
Lemma ulpExponent_lo (q : Q) : -1074 <= ulpExponent q.
Proof. unfold ulpExponent. lia. Qed.

Lemma Qabs_pos_lt (q : Q) : ~ (q == 0)%Q -> (0 < Qabs q)%Q.
Proof.
  intros Hq. pose proof (Qabs_nonneg q) as H0.
  apply Qle_lteq in H0 as [Hlt | Heq]; [exact Hlt|].
  exfalso. apply Hq. symmetry in Heq. revert Heq.
  apply Qabs_case; intros; lra.
Qed.

Lemma ulpExponent_comp (q q' : Q) :
  ~ (q == 0)%Q -> (q == q')%Q -> ulpExponent q = ulpExponent q'.
Proof.
  intros Hq Heq. unfold ulpExponent.
  rewrite (ilog2_comp (Qabs q) (Qabs q')); [reflexivity | now apply Qabs_pos_lt |].
  now rewrite Heq.
Qed.

Lemma ulpExponent_pos (q : Q) :
  (0 < q)%Q -> ulpExponent q = Z.max (ilog2 q - 52) (-1074).
Proof.
  intros Hq. unfold ulpExponent.
  rewrite (ilog2_comp (Qabs q) q); [reflexivity | |].
  - apply Qabs_pos_lt. intros Hc. rewrite Hc in Hq. now apply Qlt_irrefl in Hq.
  - apply Qabs_pos. now apply Qlt_le_weak.
Qed.

Lemma ulpExponent_opp (q : Q) :
  ~ (q == 0)%Q -> ulpExponent (- q) = ulpExponent q.
Proof.
  intros Hq. unfold ulpExponent.
  rewrite (ilog2_comp (Qabs (- q)) (Qabs q)); [reflexivity | |].
  - apply Qabs_pos_lt. intros Hc. apply Hq. lra.
  - apply Qabs_opp.
Qed.

(** The nearest multiple of the last bit. *)
Lemma nearest_comp (q q' : Q) :
  ~ (q == 0)%Q -> (q == q')%Q -> nearest q = nearest q'.
Proof.
  intros Hq Heq. unfold nearest, mantissa.
  rewrite (ulpExponent_comp q q' Hq Heq).
  rewrite (roundEven_comp (q * pow2 (- ulpExponent q')) (q' * pow2 (- ulpExponent q')));
    [reflexivity|].
  now rewrite Heq.
Qed.

Lemma nearest_zero (q : Q) : (q == 0)%Q -> (nearest q == 0)%Q.
Proof.
  intros Hq. unfold nearest, mantissa.
  rewrite (roundEven_comp _ 0%Q).
  - replace (roundEven 0) with 0 by reflexivity. ring.
  - generalize (pow2 (- ulpExponent q)). intros p. rewrite Hq. ring.
Qed.

Lemma nearest_opp (q : Q) : (nearest (- q) == - nearest q)%Q.
Proof.
  destruct (Qeq_dec q 0) as [Hz | Hnz].
  - rewrite (nearest_zero q Hz), (nearest_zero (- q)); [reflexivity|]. rewrite Hz. reflexivity.
  - unfold nearest, mantissa. rewrite (ulpExponent_opp q Hnz).
    rewrite (roundEven_comp (- q * pow2 (- ulpExponent q)) (- (q * pow2 (- ulpExponent q))));
      [|ring].
    rewrite roundEven_opp, inject_Z_opp. ring.
Qed.

Lemma nearest_nonneg (q : Q) : (0 <= q)%Q -> (0 <= nearest q)%Q.
Proof.
  intros Hq. unfold nearest, mantissa.
  apply Qmult_le_0_compat; [|apply Qlt_le_weak, pow2_pos].
  replace 0%Q with (inject_Z 0) by reflexivity. rewrite <- Zle_Qle.
  replace 0 with (roundEven (inject_Z 0)) at 1 by reflexivity.
  apply roundEven_le. apply Qmult_le_0_compat; [exact Hq | apply Qlt_le_weak, pow2_pos].
Qed.

(** A power of two above the last bit is a multiple of it. *)
Lemma pow2_scaled (j e : Z) :
  e <= j -> (pow2 j * pow2 (- e) == inject_Z (2 ^ (j - e)))%Q.
Proof.
  intros Hle. rewrite <- pow2_add, <- pow2_Z by lia.
  now replace (j + - e) with (j - e) by lia.
Qed.

Lemma nearest_le_pow2 (q : Q) (j : Z) :
  (q <= pow2 j)%Q -> ulpExponent q <= j -> (nearest q <= pow2 j)%Q.
Proof.
  intros Hq He. unfold nearest, mantissa. set (e := ulpExponent q) in *.
  assert (Hm : roundEven (q * pow2 (- e)) <= 2 ^ (j - e)).
  { rewrite <- (roundEven_Z (2 ^ (j - e))). apply roundEven_le.
    rewrite <- pow2_scaled by exact He.
    apply Qmult_le_compat_r; [exact Hq | apply Qlt_le_weak, pow2_pos]. }
  apply Qle_trans with (y := (inject_Z (2 ^ (j - e)) * pow2 e)%Q).
  - apply Qmult_le_compat_r; [now rewrite <- Zle_Qle | apply Qlt_le_weak, pow2_pos].
  - rewrite <- pow2_scaled by exact He.
    rewrite <- Qmult_assoc, (Qmult_comm (pow2 (- e))), pow2_cancel. lra.
Qed.

Lemma nearest_ge_pow2 (q : Q) (j : Z) :
  (pow2 j <= q)%Q -> ulpExponent q <= j -> (pow2 j <= nearest q)%Q.
Proof.
  intros Hq He. unfold nearest, mantissa. set (e := ulpExponent q) in *.
  assert (Hm : 2 ^ (j - e) <= roundEven (q * pow2 (- e))).
  { rewrite <- (roundEven_Z (2 ^ (j - e))) at 1. apply roundEven_le.
    rewrite <- pow2_scaled by exact He.
    apply Qmult_le_compat_r; [exact Hq | apply Qlt_le_weak, pow2_pos]. }
  apply Qle_trans with (y := (inject_Z (2 ^ (j - e)) * pow2 e)%Q).
  - rewrite <- pow2_scaled by exact He.
    rewrite <- Qmult_assoc, (Qmult_comm (pow2 (- e))), pow2_cancel. lra.
  - apply Qmult_le_compat_r; [now rewrite <- Zle_Qle | apply Qlt_le_weak, pow2_pos].
Qed.

Lemma nearest_le_pos (x y : Q) :
  (0 < x)%Q -> (x <= y)%Q -> (nearest x <= nearest y)%Q.
Proof.
  intros Hx Hxy.
  assert (Hy : (0 < y)%Q) by (eapply Qlt_le_trans; eassumption).
  pose proof (ilog2_le x y Hx Hxy) as Hl.
  pose proof (ulpExponent_pos x Hx) as Hex. pose proof (ulpExponent_pos y Hy) as Hey.
  destruct (ilog2_spec x Hx) as [_ Hxu]. destruct (ilog2_spec y Hy) as [Hyl _].
  destruct (Z.eq_dec (ulpExponent x) (ulpExponent y)) as [Heq | Hne].
  - unfold nearest, mantissa. rewrite Heq.
    apply Qmult_le_compat_r; [|apply Qlt_le_weak, pow2_pos].
    rewrite <- Zle_Qle. apply roundEven_le.
    apply Qmult_le_compat_r; [exact Hxy | apply Qlt_le_weak, pow2_pos].
  - apply Qle_trans with (y := pow2 (ilog2 y)).
    + apply nearest_le_pow2; [|lia].
      apply Qle_trans with (y := pow2 (ilog2 x + 1)); [now apply Qlt_le_weak|].
      apply pow2_le. lia.
    + apply nearest_ge_pow2; [exact Hyl | lia].
Qed.

Lemma nearest_le (x y : Q) : (x <= y)%Q -> (nearest x <= nearest y)%Q.
Proof.
  intros Hxy.
  destruct (Qlt_le_dec 0 x) as [Hx | Hx]; [now apply nearest_le_pos|].
  destruct (Qlt_le_dec y 0) as [Hy | Hy].
  - assert (H1 : (nearest (- y) <= nearest (- x))%Q) by (apply nearest_le_pos; lra).
    rewrite !nearest_opp in H1. lra.
  - pose proof (nearest_nonneg y Hy) as H1.
    assert (H2 : (0 <= nearest (- x))%Q) by (apply nearest_nonneg; lra).
    rewrite nearest_opp in H2. lra.
Qed.

(** A multiple of its last bit is its own nearest multiple. *)
Lemma nearest_fix (r : Q) (k : Z) :
  (r * pow2 (- ulpExponent r) == inject_Z k)%Q -> (nearest r == r)%Q.
Proof.
  intros Hk. unfold nearest, mantissa.
  rewrite (roundEven_comp _ _ Hk), roundEven_Z, <- Hk.
  rewrite <- Qmult_assoc, (Qmult_comm (pow2 (- _))), pow2_cancel. ring.
Qed.

Lemma mantissa_bound (q : Q) :
  ~ (q == 0)%Q -> - 2 ^ 53 <= mantissa q <= 2 ^ 53.
Proof.
  intros Hq. unfold mantissa.
  pose proof (Qabs_pos_lt q Hq) as Ha.
  destruct (ilog2_spec (Qabs q) Ha) as [_ Hu].
  set (e := ulpExponent q).
  assert (He : ilog2 (Qabs q) + 1 <= 53 + e) by (unfold e, ulpExponent; lia).
  assert (Hb : (Qabs q * pow2 (- e) <= inject_Z (2 ^ 53))%Q).
  { rewrite <- pow2_Z by lia.
    apply Qle_trans with (y := (pow2 (53 + e) * pow2 (- e))%Q).
    - apply Qmult_le_compat_r; [|apply Qlt_le_weak, pow2_pos].
      apply Qle_trans with (y := pow2 (ilog2 (Qabs q) + 1)); [now apply Qlt_le_weak|].
      now apply pow2_le.
    - rewrite <- pow2_add. replace (53 + e + - e) with 53 by lia. apply Qle_refl. }
  pose proof (pow2_pos (- e)) as Hp.
  pose proof (Qle_Qabs q) as H1.
  assert (H2 : (- Qabs q <= q)%Q).
  { pose proof (Qle_Qabs (- q)) as H2. rewrite Qabs_opp in H2. lra. }
  split.
  - rewrite <- (roundEven_Z (- 2 ^ 53)). apply roundEven_le.
    rewrite inject_Z_opp.
    apply Qle_trans with (y := (- Qabs q * pow2 (- e))%Q).
    + setoid_replace (- Qabs q * pow2 (- e))%Q with (- (Qabs q * pow2 (- e)))%Q
        using relation Qeq by ring.
      now apply Qopp_le_compat.
    + apply Qmult_le_compat_r; [exact H2 | now apply Qlt_le_weak].
  - rewrite <- (roundEven_Z (2 ^ 53)). apply roundEven_le.
    apply Qle_trans with (y := (Qabs q * pow2 (- e))%Q); [|exact Hb].
    apply Qmult_le_compat_r; [exact H1 | now apply Qlt_le_weak].
Qed.

Lemma Qabs_scaled (m e : Z) :
  (Qabs (inject_Z m * pow2 e) == inject_Z (Z.abs m) * pow2 e)%Q.
Proof.
  rewrite Qabs_Qmult. rewrite (Qabs_pos (pow2 e)) by apply Qlt_le_weak, pow2_pos.
  apply Qmult_comp; [|reflexivity].
  unfold inject_Z. symmetry. apply Zabs_Qabs.
Qed.

(** The nearest multiple is a double: rounding it again changes nothing. *)
Lemma nearest_idem (q r : Q) :
  ~ (q == 0)%Q -> (r == nearest q)%Q -> (nearest r == r)%Q.
Proof.
  intros Hq Hr.
  destruct (Qeq_dec r 0) as [Hz | Hnz]; [now rewrite (nearest_zero r Hz)|].
  pose proof (mantissa_bound q Hq) as Hm.
  pose proof (ulpExponent_lo q) as Hlo.
  unfold nearest in Hr.
  generalize dependent (mantissa q). generalize dependent (ulpExponent q).
  intros e Hlo m Hr Hm.
  assert (Hm0 : m <> 0).
  { intros Hc. apply Hnz. rewrite Hr, Hc. ring. }
  assert (Habs : (Qabs r == inject_Z (Z.abs m) * pow2 e)%Q)
    by (rewrite Hr; apply Qabs_scaled).
  pose proof (Qabs_pos_lt r Hnz) as Hpos.
  destruct (Z.eq_dec (Z.abs m) (2 ^ 53)) as [Htop | Hlow].
  - assert (Hl : ilog2 (Qabs r) = 53 + e).
    { rewrite (ilog2_comp (Qabs r) (pow2 (53 + e)) Hpos); [apply ilog2_pow2|].
      rewrite Habs, Htop, pow2_add, (pow2_Z 53) by lia. reflexivity. }
    assert (He' : ulpExponent r = e + 1) by (unfold ulpExponent; rewrite Hl; lia).
    apply (nearest_fix r (m / 2)). rewrite He', Hr.
    assert (Hm2 : m = 2 * (m / 2)).
    { assert (Hcase : m = 2 ^ 53 \/ m = - 2 ^ 53) by lia.
      destruct Hcase as [-> | ->]; reflexivity. }
    rewrite Hm2 at 1. rewrite inject_Z_mult.
    replace (- (e + 1)) with (- e + - 1) by lia.
    rewrite pow2_add.
    setoid_replace (inject_Z 2 * inject_Z (m / 2) * pow2 e * (pow2 (- e) * pow2 (- 1)))%Q
      with (inject_Z (m / 2) * (pow2 e * pow2 (- e)) * (inject_Z 2 * pow2 (- 1)))%Q
      using relation Qeq by ring.
    rewrite pow2_cancel.
    setoid_replace (inject_Z 2 * pow2 (- 1))%Q with 1%Q using relation Qeq by reflexivity.
    ring.
  - assert (Hl : ilog2 (Qabs r) < 53 + e).
    { destruct (ilog2_spec (Qabs r) Hpos) as [Hl _].
      apply pow2_lt_inv. eapply Qle_lt_trans; [exact Hl|].
      rewrite Habs, pow2_add, (pow2_Z 53) by lia.
      apply Qmult_lt_r; [apply pow2_pos|]. rewrite <- Zlt_Qlt. lia. }
    assert (He' : ulpExponent r <= e) by (unfold ulpExponent; lia).
    apply (nearest_fix r (m * 2 ^ (e - ulpExponent r))).
    revert He'. generalize (ulpExponent r). intros e' He'. rewrite Hr.
    rewrite inject_Z_mult, <- pow2_scaled by exact He'. ring.
Qed.

(** Overflow. *)
Lemma clampRange_comp (r r' : Q) : (r == r')%Q -> (clampRange r == clampRange r')%Q.
Proof.
  intros Heq. unfold clampRange.
  assert (E1 : Qle_bool (pow2 1024) r = Qle_bool (pow2 1024) r') by now rewrite Heq.
  assert (E2 : Qle_bool r (- pow2 1024) = Qle_bool r' (- pow2 1024)) by now rewrite Heq.
  rewrite E1, E2.
  destruct (Qle_bool (pow2 1024) r'); [reflexivity|].
  destruct (Qle_bool r' (- pow2 1024)); [reflexivity | exact Heq].
Qed.

Lemma clampRange_le (r r' : Q) : (r <= r')%Q -> (clampRange r <= clampRange r')%Q.
Proof.
  intros Hle. unfold clampRange.
  pose proof (pow2_pos 1024) as Hp. generalize dependent (pow2 1024). intros p Hp.
  destruct (Qle_bool p r) eqn:H1; destruct (Qle_bool p r') eqn:H1';
    destruct (Qle_bool r (- p)) eqn:H2; destruct (Qle_bool r' (- p)) eqn:H2';
    repeat match goal with
    | H : Qle_bool _ _ = true |- _ => apply Qle_bool_iff in H
    | H : Qle_bool ?a ?b = false |- _ =>
        assert (b < a)%Q by (apply Qnot_le_lt; intros Hc; apply Qle_bool_iff in Hc; congruence);
        clear H
    end; lra.
Qed.

Lemma double_spec (q : Q) : (double q == clampRange (nearest q))%Q.
Proof.
  unfold double. destruct (Qeq_bool q 0) eqn:Hz.
  - apply Qeq_bool_iff in Hz.
    rewrite (clampRange_comp _ 0%Q (nearest_zero q Hz)). reflexivity.
  - apply clampRange_comp, Qred_correct.
Qed.

(** [double] does not depend on the fraction that denotes its argument. *)
Lemma double_comp (q q' : Q) : (q == q')%Q -> double q = double q'.
Proof.
  intros Heq. unfold double.
  assert (E : Qeq_bool q 0 = Qeq_bool q' 0) by now rewrite Heq.
  rewrite <- E. destruct (Qeq_bool q 0) eqn:Hz; [reflexivity|].
  rewrite (nearest_comp q q'); [reflexivity | | exact Heq].
  intros Hc. apply Qeq_bool_iff in Hc. congruence.
Qed.

(** Rounding is monotone. *)
Lemma double_le (x y : Q) : (x <= y)%Q -> (double x <= double y)%Q.
Proof.
  intros Hle. rewrite !double_spec. now apply clampRange_le, nearest_le.
Qed.

(** A double is its own rounding. *)
Lemma double_idem (q : Q) : double (double q) = double q.
Proof.
  remember (double q) as d eqn:Hd. unfold double in Hd.
  destruct (Qeq_bool q 0) eqn:Hz; [subst d; reflexivity|].
  assert (Hq : ~ (q == 0)%Q) by (intros Hc; apply Qeq_bool_iff in Hc; congruence).
  set (r := Qred (nearest q)) in *.
  assert (Hr : (r == nearest q)%Q) by apply Qred_correct.
  assert (Hrr : Qred r = r) by (unfold r; apply Qred_complete, Qred_correct).
  unfold clampRange in Hd.
  destruct (Qle_bool (pow2 1024) r) eqn:H1; [subst d; vm_compute; reflexivity|].
  destruct (Qle_bool r (- pow2 1024)) eqn:H2; [subst d; vm_compute; reflexivity|].
  subst d. unfold double.
  destruct (Qeq_bool r 0) eqn:Hz'.
  - apply Qeq_bool_iff in Hz'. rewrite <- Hrr. symmetry. exact (Qred_complete r 0 Hz').
  - rewrite (Qred_complete (nearest r) r (nearest_idem q r Hq Hr)), Hrr.
    unfold clampRange. now rewrite H1, H2.
Qed.

Lemma double_zero (q : Q) : (q == 0)%Q -> double q = 0%Q.
Proof. intros Hq. now rewrite (double_comp q 0 Hq). Qed.

Lemma double_isDouble (q : Q) : isDouble (double q).
Proof. unfold isDouble. now rewrite double_idem. Qed.

(** [x + 0] is [x] for a double [x]. *)
Lemma js_add_zero (v : Q) : double v = v -> js_add v 0 = v.
Proof.
  intros Hv. unfold js_add. rewrite (double_comp (v + 0) v); [exact Hv | ring].
Qed.

Lemma js_sub_diag (c : Q) : js_sub c c = 0%Q.
Proof. apply double_zero. ring. Qed.

Lemma js_div_zero (s : Q) : js_div 0 s = 0%Q.
Proof. apply double_zero. unfold Qdiv. ring. Qed.

(** The error of a rounding. *)
Lemma roundEven_error (y : Q) : (Qabs (inject_Z (roundEven y) - y) <= 1 # 2)%Q.
Proof.
  pose proof (Qfloor_le y) as Hlo. pose proof (Qlt_floor y) as Hhi.
  rewrite inject_Z_plus in Hhi. change (inject_Z 1) with 1%Q in Hhi.
  apply Qabs_Qle_condition.
  destruct (roundEven_cases y) as [[-> Hr] | [-> Hr]].
  - lra.
  - rewrite inject_Z_plus. change (inject_Z 1) with 1%Q. lra.
Qed.

(** The nearest multiple is within half a unit in the last place. *)
Lemma nearest_error (q : Q) :
  (Qabs (nearest q - q) <= pow2 (ulpExponent q - 1))%Q.
Proof.
  unfold nearest, mantissa. set (e := ulpExponent q).
  pose proof (roundEven_error (q * pow2 (- e))) as Herr.
  set (m := roundEven (q * pow2 (- e))) in *.
  assert (Heq : (inject_Z m * pow2 e - q == (inject_Z m - q * pow2 (- e)) * pow2 e)%Q).
  { setoid_replace ((inject_Z m - q * pow2 (- e)) * pow2 e)%Q
      with (inject_Z m * pow2 e - q * (pow2 e * pow2 (- e)))%Q using relation Qeq by ring.
    rewrite pow2_cancel. ring. }
  rewrite Heq, Qabs_Qmult, (Qabs_pos (pow2 e)) by apply Qlt_le_weak, pow2_pos.
  replace (e - 1) with (-1 + e) by lia. rewrite pow2_add.
  apply Qmult_le_compat_r; [exact Herr | apply Qlt_le_weak, pow2_pos].
Qed.

Lemma double_error (q : Q) :
  (Qabs (nearest q) < pow2 1024)%Q ->
  (Qabs (double q - q) <= pow2 (ulpExponent q - 1))%Q.
Proof.
  intros Hfin.
  assert (Hd : (double q == nearest q)%Q).
  { rewrite double_spec. unfold clampRange.
    apply Qabs_Qlt_condition in Hfin as [H1 H2].
    destruct (Qle_bool (pow2 1024) (nearest q)) eqn:Ha.
    - apply Qle_bool_iff in Ha. lra.
    - destruct (Qle_bool (nearest q) (- pow2 1024)) eqn:Hb; [|reflexivity].
      apply Qle_bool_iff in Hb. lra. }
  rewrite Hd. apply nearest_error.
Qed.

(** Rounding keeps a number between two doubles. *)
Lemma double_within (q b : Q) :
  double b = b -> double (- b) = (- b)%Q ->
  (- b <= q <= b)%Q -> (- b <= double q <= b)%Q.
Proof.
  intros Hb Hb' [Hlo Hhi].
  pose proof (double_le _ _ Hlo) as H1. pose proof (double_le _ _ Hhi) as H2.
  rewrite Hb' in H1. rewrite Hb in H2. now split.
Qed.

Lemma Qdiv_within (a s b : Q) :
  (1 <= s)%Q -> (- b <= a <= b)%Q -> (- b <= a / s <= b)%Q.
Proof.
  intros Hs [Hlo Hhi].
  assert (Hs0 : (0 < s)%Q) by lra.
  assert (Hb : (0 <= b)%Q) by lra.
  assert (Hbs : (b <= b * s)%Q).
  { assert (H : (0 <= b * (s - 1))%Q) by (apply Qmult_le_0_compat; lra).
    lra. }
  split.
  - apply Qle_shift_div_l; [exact Hs0|]. lra.
  - apply Qle_shift_div_r; [exact Hs0|]. lra.
Qed.

Lemma inRange_spec (q : Q) :
  inRange q = true -> (- inject_Z (2 ^ 1000) <= q <= inject_Z (2 ^ 1000))%Q.
Proof.
  unfold inRange. intros H. apply andb_prop in H as [H1 H2].
  split; now apply Qle_bool_iff.
Qed.

(** In that range a pointer move does not overflow. *)
Lemma move_finite (c l v s : Q) :
  inRange c = true -> inRange l = true -> inRange v = true -> (1 <= s)%Q ->
  (Qabs (js_add v (js_div (js_sub c l) s)) <= inject_Z (2 ^ 1002))%Q.
Proof.
  intros Hc Hl Hv Hs.
  apply inRange_spec in Hc, Hl, Hv.
  assert (D2 : double (inject_Z (2 ^ 1001)) = inject_Z (2 ^ 1001)) by (vm_compute; reflexivity).
  assert (D2' : double (- inject_Z (2 ^ 1001)) = (- inject_Z (2 ^ 1001))%Q)
    by (vm_compute; reflexivity).
  assert (D4 : double (inject_Z (2 ^ 1002)) = inject_Z (2 ^ 1002)) by (vm_compute; reflexivity).
  assert (D4' : double (- inject_Z (2 ^ 1002)) = (- inject_Z (2 ^ 1002))%Q)
    by (vm_compute; reflexivity).
  assert (E2 : (inject_Z (2 ^ 1001) == 2 * inject_Z (2 ^ 1000))%Q) by reflexivity.
  assert (E4 : (inject_Z (2 ^ 1002) == 4 * inject_Z (2 ^ 1000))%Q) by reflexivity.
  generalize dependent (inject_Z (2 ^ 1002)). generalize dependent (inject_Z (2 ^ 1001)).
  generalize dependent (inject_Z (2 ^ 1000)).
  intros b1 Hc Hl Hv b2 D2 D2' E2 b4 D4 D4' E4.
  assert (Hdx : (- b2 <= js_sub c l <= b2)%Q) by (apply double_within; try assumption; lra).
  assert (Hq : (- b2 <= js_div (js_sub c l) s <= b2)%Q).
  { apply double_within; try assumption. now apply Qdiv_within. }
  apply Qabs_Qle_condition. apply double_within; try assumption. lra.
Qed.

(** [double] agrees with the rounding of [SpecFloat] at the sample
    values, which include ties, subnormal numbers and overflow. *)
Lemma double_agrees_with_SpecFloat :
  forallb (fun q => Qeq_bool (double q) (SF2Q (roundSF q))) doubleSamples = true.
Proof. vm_compute. reflexivity. Qed.

(** The rounding of [double] at some values the component meets:
    [10 / 3] is 3.3333333333333335, [1 + 0.2 + 0.2 + 0.2] is
    1.5999999999999999, five wheel steps of [-100 * 0.002] from 2 end
    at 1.0000000000000002, and [1.005 * 100] is 100.49999999999999. *)
Lemma double_examples :
  js_div 10 3 = (7505999378950827 # 2251799813685248)%Q /\
  js_add (js_add (js_add 1 (double (2 # 10))) (double (2 # 10))) (double (2 # 10))
    = (7205759403792793 # 4503599627370496)%Q /\
  Nat.iter 5 (fun s => js_add s (js_mul (- (100)) (double (2 # 1000)))) 2%Q
    = (4503599627370497 # 4503599627370496)%Q /\
  js_mul (double (1005 # 1000)) 100 = (7072058789855231 # 70368744177664)%Q /\
  Math_round (js_mul (double (1005 # 1000)) 100) = 100.
Proof. vm_compute. repeat split. Qed.

(** ** Posterize *)

Lemma quantize_table :
  forallb quantizeAgrees (map Z.of_nat (seq 0 256)) = true.
Proof. vm_compute. reflexivity. Qed.

Lemma quantize_byte (c : Z) :
  isByte c ->
  toUint8Clamp (quantize c) = posterLevel c /\
  (inject_Z (posterLevel c) == quantize c)%Q.
Proof.
  intros [Hlo Hhi].
  assert (Hin : In c (map Z.of_nat (seq 0 256))).
  { apply in_map_iff. exists (Z.to_nat c). split; [lia|].
    apply in_seq. lia. }
  pose proof (proj1 (forallb_forall _ _) quantize_table c Hin) as Hc.
  unfold quantizeAgrees in Hc.
  apply andb_prop in Hc as [H1 H2].
  split; [now apply Z.eqb_eq | now apply Qeq_bool_iff].
Qed.

Lemma posterizeChannel_length (i : nat) (data : list Z) :
  length (posterizeChannel i data) = length data.
Proof.
  unfold posterizeChannel. destruct (data !! i); [apply length_insert | reflexivity].
Qed.

Lemma posterizeChannel_lookup (i j : nat) (data : list Z) :
  posterizeChannel i data !! j =
  if decide (j = i) then (fun c => toUint8Clamp (quantize c)) <$> data !! j
  else data !! j.
Proof.
  unfold posterizeChannel.
  destruct (data !! i) as [c|] eqn:Hi.
  - case_decide as Hj.
    + subst j. rewrite Hi. simpl.
      apply list_lookup_insert_eq. eapply lookup_lt_Some; eauto.
    + apply list_lookup_insert_ne. congruence.
  - case_decide as Hj; [subst j; now rewrite Hi | reflexivity].
Qed.

Lemma posterizePixel_length (i : nat) (data : list Z) :
  length (posterizePixel i data) = length data.
Proof. unfold posterizePixel. now rewrite !posterizeChannel_length. Qed.

Lemma posterizePixel_lookup (i j : nat) (data : list Z) :
  posterizePixel i data !! j =
  if decide (i <= j <= i + 2)%nat
  then (fun c => toUint8Clamp (quantize c)) <$> data !! j
  else data !! j.
Proof.
  unfold posterizePixel. rewrite !posterizeChannel_lookup.
  repeat case_decide; try lia; reflexivity.
Qed.

Lemma posterizeLoop_lookup (fuel : nat) :
  forall (i : nat) (data : list Z),
    (length data <= i + 4 * fuel)%nat ->
    exists out,
      posterizeLoop fuel i data = Some out /\
      length out = length data /\
      forall j : nat,
        out !! j =
        if decide (i <= j /\ (j - i) mod 4 <> 3)%nat
        then (fun c => toUint8Clamp (quantize c)) <$> data !! j
        else data !! j.
Proof.
  induction fuel as [|fuel IH]; intros i data Hlen.
  - exists data. cbn [posterizeLoop].
    assert (Hge : (i <? length data)%nat = false) by (apply Nat.ltb_ge; lia).
    rewrite Hge. repeat split; [].
    intros j. case_decide as Hj; [|reflexivity].
    rewrite (lookup_ge_None_2 data j) by lia. reflexivity.
  - cbn [posterizeLoop]. destruct (i <? length data)%nat eqn:Hlt.
    + destruct (IH (i + 4)%nat (posterizePixel i data)) as (out & Hout & Hl & Hlook).
      { rewrite posterizePixel_length. lia. }
      exists out. split; [exact Hout|]. split.
      { now rewrite Hl, posterizePixel_length. }
      intros j. rewrite Hlook, posterizePixel_lookup.
      assert (Hmod : forall a : nat, (i + 4 <= a)%nat ->
                ((a - i) mod 4 = (a - (i + 4)) mod 4)%nat).
      { intros a Ha. replace (a - i)%nat with ((a - (i + 4)) + 1 * 4)%nat by lia.
        apply Nat.Div0.mod_add. }
      destruct (decide (i + 4 <= j)%nat) as [Hj|Hj].
      * rewrite (Hmod j Hj).
        generalize ((j - (i + 4)) mod 4)%nat; intros m.
        repeat case_decide; try lia; try reflexivity.
      * assert (Hsmall : (j < i \/ exists k, (k < 4)%nat /\ j = i + k)%nat).
        { destruct (decide (j < i)%nat); [now left|right].
          exists (j - i)%nat. lia. }
        destruct Hsmall as [Hs | (k & Hk & ->)].
        -- repeat case_decide; try lia; reflexivity.
        -- replace (i + k - i)%nat with k by lia.
           assert (Hkk : (k mod 4 = k)%nat) by (apply Nat.mod_small; lia).
           rewrite Hkk.
           repeat case_decide; try lia; reflexivity.
    + exists data. repeat split; [].
      apply Nat.ltb_ge in Hlt.
      intros j. case_decide as Hj; [|reflexivity].
      rewrite (lookup_ge_None_2 data j) by lia. reflexivity.
Qed.

(** C2. The posterize loop always terminates on the pixel buffer; with
    [levels = 4] and [step = 255 / (levels - 1)] it replaces the red,
    green and blue bytes of every pixel (byte offsets [i], [i + 1],
    [i + 2] for [i] a multiple of 4) by [Math.round(c / step) * step],
    one of 0, 85, 170 and 255, and leaves every alpha byte (offset
    [i + 3]) and the length of the buffer unchanged. *)
Theorem posterize_quantizes_rgb_keeps_alpha (data : list Z) :
  Forall isByte data ->
  levels = 4 /\ (step == 85)%Q /\
  exists out,
    posterize data = Some out /\
    length out = length data /\
    forall i : nat, (i mod 4 = 0)%nat ->
      (forall (k : nat) (c : Z), (k < 3)%nat ->
         data !! (i + k)%nat = Some c ->
         exists v, out !! (i + k)%nat = Some v /\
                   (inject_Z v == quantize c)%Q /\
                   v = posterLevel c) /\
      out !! (i + 3)%nat = data !! (i + 3)%nat.
Proof.
  intros Hbytes. split; [reflexivity|]. split; [reflexivity|].
  destruct (posterizeLoop_lookup (length data) 0 data) as (out & Hout & Hl & Hlook); [lia|].
  exists out. split; [exact Hout|]. split; [exact Hl|].
  intros i Hi. split.
  - intros k c Hk Hc.
    assert (Hbyte : isByte c).
    { eapply Forall_forall in Hbytes; [exact Hbytes|].
      eapply list_elem_of_lookup_2; eauto. }
    destruct (quantize_byte c Hbyte) as [Hq1 Hq2].
    exists (posterLevel c). rewrite Hlook, Hc.
    assert (Hm : ((i + k - 0) mod 4 = k)%nat).
    { rewrite Nat.sub_0_r.
      rewrite Nat.Div0.add_mod, Hi, Nat.add_0_l, Nat.Div0.mod_mod by lia.
      apply Nat.mod_small. lia. }
    case_decide as Hd; [|lia].
    simpl. rewrite Hq1. repeat split; [exact Hq2].
  - rewrite Hlook.
    assert (Hm : ((i + 3 - 0) mod 4 = 3)%nat).
    { rewrite Nat.sub_0_r.
      rewrite Nat.Div0.add_mod, Hi, Nat.add_0_l, Nat.Div0.mod_mod by lia.
      reflexivity. }
    case_decide as Hd; [lia|reflexivity].
Qed.

(** ** The history list *)


Section History.
Context `{Platform}.

Lemma js_slice_prefix {A} (l : list A) (i : Z) :
  -1 <= i ->
  js_slice l 0 (i + 1) = take (Z.to_nat (i + 1)) l.
Proof.
  intros Hi. unfold js_slice, js_relative.
  replace (0 <? 0) with false by reflexivity.
  destruct (i + 1 <? 0) eqn:Hneg; [apply Z.ltb_lt in Hneg; lia|].
  rewrite (Z.min_l 0) by lia. rewrite Z.sub_0_r. simpl. rewrite drop_0.
  destruct (Z.le_ge_cases (i + 1) (Z.of_nat (length l))) as [Hle|Hge].
  - now rewrite Z.min_l by lia.
  - rewrite Z.min_r by lia. rewrite Nat2Z.id.
    rewrite !take_ge by lia. reflexivity.
Qed.

(** What the [onload] callback of a filter click does, whenever it runs:
    it works on the history and the index of the render in which the
    button was clicked. *)
Lemma filter_onload (w : World) (k : nat) (src : N) (r : AppState)
    (filter : string) (base : File) :
  imageLoads w !! k = Some (FilterLoad src r filter) ->
  baseImage r = Some base ->
  let newHistory :=
    js_slice (history r) 0 (historyIndex r + 1)
      ++ [ {| imageUrl := filteredDataUrl base filter; filter := filter |} ] in
  let w' := dispatch (ImageLoaded k) w in
  history (app w') = newHistory /\
  historyIndex (app w') = Z.of_nat (length newHistory) - 1 /\
  activeFilter (app w') = activeFilter (app w) /\
  zoom (app w') = zoom (app w) /\
  urls w' = revokeObjectURL src (urls w) /\
  imageLoads w' = delete k (imageLoads w).
Proof.
  intros Hk Hbase. unfold dispatch, exec, handler. rewrite Hk.
  unfold imageOnload. rewrite Hbase. eff_unfold. repeat split.
Qed.

(** A click on a filter that is not the active one, with an image
    uploaded and a canvas context at hand. *)
Lemma filter_click (w : World) (filter : string) (base : File) :
  baseImage (app w) = Some base ->
  activeFilter (app w) <> filter ->
  let w' := dispatch (FilterClick filter true) w in
  imageLoads w' = imageLoads w ++ [FilterLoad (nextUrl (urls w)) (app w) filter] /\
  history (app w') = history (app w) /\
  historyIndex (app w') = historyIndex (app w) /\
  baseImage (app w') = baseImage (app w) /\
  activeFilter (app w') = filter /\
  zoom (app w') = unitZoom /\
  liveUrls (urls w') = {[ nextUrl (urls w) ]} ∪ liveUrls (urls w).
Proof.
  intros Hbase Hne. unfold dispatch, exec, handler, handleFilterClick.
  rewrite Hbase. apply String.eqb_neq in Hne. rewrite Hne.
  eff_unfold. repeat split. exact Hbase.
Qed.

(** C1. The history is a linear list.  In a state with an uploaded
    image, history [h] and index [i] with [0 <= i <= length h - 1],
    clicking a filter other than the active one and letting its image
    load replaces the history by the first [i + 1] entries of [h]
    followed by one new pair of the filtered snapshot and the filter
    name, and sets the index to the last position [i + 1] of the new
    list, so that nothing is left to redo.  The callback does so whenever
    it runs, since it works on the [h] and [i] of the click. *)
Theorem filter_click_truncates_and_appends (w : World) (filter : string) (base : File) :
  baseImage (app w) = Some base ->
  activeFilter (app w) <> filter ->
  0 <= historyIndex (app w) <= Z.of_nat (length (history (app w))) - 1 ->
  let h := history (app w) in
  let i := historyIndex (app w) in
  let entry := {| imageUrl := filteredDataUrl base filter; filter := filter |} in
  let clicked := dispatch (FilterClick filter true) w in
  let loaded := dispatch (ImageLoaded (length (imageLoads w))) clicked in
  (history (app clicked) = h /\ historyIndex (app clicked) = i) /\
  (history (app loaded) = take (Z.to_nat (i + 1)) h ++ [entry] /\
   historyIndex (app loaded) = Z.of_nat (length (history (app loaded))) - 1 /\
   historyIndex (app loaded) = i + 1 /\
   canRedo (app loaded) = false) /\
  (forall (later : World) (k : nat),
     imageLoads later !! k = Some (FilterLoad (nextUrl (urls w)) (app w) filter) ->
     history (app (dispatch (ImageLoaded k) later)) = take (Z.to_nat (i + 1)) h ++ [entry] /\
     historyIndex (app (dispatch (ImageLoaded k) later)) = i + 1).
Proof.
  intros Hbase Hne Hi h i entry clicked loaded.
  destruct (filter_click w filter base Hbase Hne)
    as (Hloads & Hh & Hidx & _).
  assert (Hlen : Z.of_nat (length (take (Z.to_nat (i + 1)) h ++ [entry])) - 1 = i + 1).
  { rewrite length_app, length_take. simpl. subst h i. lia. }
  assert (Hgen : forall (later : World) (k : nat),
     imageLoads later !! k = Some (FilterLoad (nextUrl (urls w)) (app w) filter) ->
     history (app (dispatch (ImageLoaded k) later)) = take (Z.to_nat (i + 1)) h ++ [entry] /\
     historyIndex (app (dispatch (ImageLoaded k) later)) = i + 1).
  { intros later k Hk.
    destruct (filter_onload later k _ _ _ base Hk Hbase) as (Hh' & Hi' & _).
    cbv zeta in Hh', Hi'. rewrite js_slice_prefix in Hh', Hi' by lia.
    split; [exact Hh'|]. rewrite Hi'. exact Hlen. }
  split; [split; assumption|]. split; [|exact Hgen].
  assert (Hk : imageLoads clicked !! length (imageLoads w)
               = Some (FilterLoad (nextUrl (urls w)) (app w) filter)).
  { subst clicked. rewrite Hloads. rewrite lookup_app_r by lia.
    now rewrite Nat.sub_diag. }
  destruct (Hgen clicked _ Hk) as [Hh' Hi'].
  fold loaded in Hh', Hi'.
  repeat split; try assumption.
  - rewrite Hi', Hh'. symmetry. exact Hlen.
  - unfold canRedo. rewrite Hi', Hh', Hlen. apply Z.ltb_irrefl.
Qed.

(** C3. Undo and redo move only the index.  Undo lowers the index by
    exactly one when it is greater than 0 and does nothing at all
    otherwise; redo raises it by exactly one when it is less than
    [length - 1] and does nothing at all otherwise; neither changes the
    history list or any of its entries. *)
Theorem undo_redo_move_only_the_index (w : World) :
  let i := historyIndex (app w) in
  let len := Z.of_nat (length (history (app w))) in
  let undone := dispatch UndoClick w in
  let redone := dispatch RedoClick w in
  history (app undone) = history (app w) /\
  history (app redone) = history (app w) /\
  (0 < i -> historyIndex (app undone) = i - 1) /\
  (i <= 0 -> undone = w) /\
  (i < len - 1 -> historyIndex (app redone) = i + 1) /\
  (len - 1 <= i -> redone = w).
Proof.
  destruct w as [r u ls rs n p]. cbn [app].
  unfold dispatch, exec, handler, handleUndo, handleRedo, canUndo, canRedo. cbn [app].
  repeat split.
  - destruct (0 <? historyIndex r); [|reflexivity].
    destruct (js_index _ _); reflexivity.
  - destruct (historyIndex r <? _); [|reflexivity].
    destruct (js_index _ _); reflexivity.
  - intros Hi. apply Z.ltb_lt in Hi. rewrite Hi.
    destruct (js_index _ _); reflexivity.
  - intros Hi. apply Z.ltb_ge in Hi. rewrite Hi. reflexivity.
  - intros Hi. apply Z.ltb_lt in Hi. rewrite Hi.
    destruct (js_index _ _); reflexivity.
  - intros Hi. apply Z.ltb_ge in Hi. rewrite Hi. reflexivity.
Qed.

End History.

(** ** The validity of the history index *)

Section HistoryIndex.
Context `{Platform}.


Lemma scanParts_historyOf (parts : list Part) (n : nat) (w : World) :
  historyOf (exec (scanParts parts n) w) = historyOf w.
Proof.
  induction n as [|i IH]; [reflexivity|].
  cbn [scanParts]. destruct (parts !! i) as [part|]; [|reflexivity].
  destruct (inlineData part); [reflexivity | exact IH].
Qed.

Lemma generateSettled_historyOf (o : Outcome) (w : World) :
  historyOf (exec (generateSettled o) w) = historyOf w.
Proof.
  unfold generateSettled. destruct o as [t|parts].
  - reflexivity.
  - pose proof (scanParts_historyOf parts (length parts) w) as Hs.
    unfold exec in *. eff_unfold.
    destruct (scanParts parts (length parts) w) as [[[]|t] w'];
      cbn [snd fst negb] in *; eff_unfold; exact Hs.
Qed.

Lemma forEachListener_historyOf (m : Eff World unit) :
  (forall w, historyOf (exec m w) = historyOf w) ->
  forall n w, historyOf (exec (forEachListener n m) w) = historyOf w.
Proof.
  intros Hm n. induction n as [|n IH]; intros w; [reflexivity|].
  unfold exec in *. cbn [forEachListener]. rewrite IH. apply Hm.
Qed.

Lemma historyValid_reset : historyValid initialApp.
Proof. unfold historyValid. cbn. split; [tauto | congruence]. Qed.

Lemma historyValid_of (r : AppState) (h : list HistoryState) (i : Z) :
  history r = h -> historyIndex r = i ->
  (i = -1 <-> h = []) -> (h <> [] -> 0 <= i <= Z.of_nat (length h) - 1) ->
  historyValid r.
Proof. intros <- <- H1 H2. split; assumption. Qed.

Lemma historyValid_ext (r r' : AppState) :
  (history r', historyIndex r') = (history r, historyIndex r) ->
  historyValid r -> historyValid r'.
Proof. intros Heq. injection Heq as Hh Hi. unfold historyValid. now rewrite Hh, Hi. Qed.

Lemma historyValid_last (r : AppState) (h : list HistoryState) (e : HistoryState) :
  history r = h ++ [e] -> historyIndex r = Z.of_nat (length (h ++ [e])) - 1 ->
  historyValid r.
Proof.
  intros Hh Hi. unfold historyValid. rewrite Hh, Hi, length_app. cbn [length].
  split; [split|].
  - lia.
  - intros Hnil. destruct h; discriminate.
  - lia.
Qed.

Lemma dispatch_historyValid (e : Event) (w : World) :
  historyValid (app w) -> historyValid (app (dispatch e w)).
Proof.
  intros Hv.
  assert (Hsame : historyOf (dispatch e w) = historyOf w -> historyValid (app (dispatch e w))).
  { intros Heq. eapply historyValid_ext; [exact Heq | exact Hv]. }
  destruct e; cbn [handler] in *; unfold dispatch, handler in *.
  - (* upload *)
    apply Hsame. unfold handleImageChange.
    destruct file; [|reflexivity]. destruct ctx; reflexivity.
  - (* filter *)
    apply Hsame. unfold handleFilterClick.
    destruct (baseImage (app w)); [|reflexivity].
    destruct (String.eqb _ _); [reflexivity|]. destruct ctx; reflexivity.
  - (* undo *)
    clear Hsame. unfold handleUndo, canUndo.
    destruct (0 <? historyIndex (app w)) eqn:Hi; [|exact Hv].
    apply Z.ltb_lt in Hi. destruct Hv as [Hnil Hrange].
    assert (Hne : history (app w) <> []) by (intros Hn; apply Hnil in Hn; lia).
    specialize (Hrange Hne).
    apply (historyValid_of _ (history (app w)) (historyIndex (app w) - 1)).
    + destruct (js_index _ _); reflexivity.
    + destruct (js_index _ _); reflexivity.
    + split; [lia | intros Hn; contradiction].
    + intros _. lia.
  - (* redo *)
    clear Hsame. unfold handleRedo, canRedo.
    destruct (historyIndex (app w) <? _) eqn:Hi; [|exact Hv].
    apply Z.ltb_lt in Hi. destruct Hv as [Hnil Hrange].
    assert (Hne : history (app w) <> []).
    { intros Hn. rewrite Hn in Hi. cbn in Hi. apply Hnil in Hn. lia. }
    specialize (Hrange Hne).
    apply (historyValid_of _ (history (app w)) (historyIndex (app w) + 1)).
    + destruct (js_index _ _); reflexivity.
    + destruct (js_index _ _); reflexivity.
    + split; [lia | intros Hn; contradiction].
    + intros _. lia.
  - apply Hsame. reflexivity.
  - (* generate *)
    apply Hsame. unfold handleGenerateClick.
    destruct (baseImage (app w)); [|reflexivity].
    destruct (currentImageState (app w)); [|reflexivity].
    destruct (truthy _); reflexivity.
  - (* generate settles *)
    apply Hsame. destruct (requests w !! k); [|reflexivity].
    change (historyOf (exec (generateSettled o) (withRequests (delete k) w)) = historyOf w).
    now rewrite generateSettled_historyOf.
  - (* reset *)
    clear Hsame. apply (historyValid_of _ [] (-1)); try reflexivity.
    + tauto.
    + congruence.
  - apply Hsame. reflexivity.
  - apply Hsame. reflexivity.
  - apply Hsame. reflexivity.
  - apply Hsame. reflexivity.
  - (* mouse down *)
    apply Hsame. unfold handleMouseDown.
    destruct (_ || _); reflexivity.
  - (* mouse move *)
    apply Hsame. apply forEachListener_historyOf. reflexivity.
  - (* mouse up *)
    apply Hsame. apply forEachListener_historyOf. reflexivity.
  - (* an image has loaded *)
    clear Hsame. destruct (imageLoads w !! k) as [[src file|src r filter]|]; [| |exact Hv].
    + eapply (historyValid_last _ []); reflexivity.
    + unfold imageOnload. destruct (baseImage r) as [base|]; [|exact Hv].
      eapply historyValid_last; reflexivity.
Qed.

Lemma run_snoc (es : list Event) (e : Event) (w : World) :
  run (es ++ [e]) w = dispatch e (run es w).
Proof. unfold run. now rewrite fold_left_app. Qed.

Lemma reachable_ind_inv (P : World -> Prop) :
  P initialWorld ->
  (forall e w, P w -> P (dispatch e w)) ->
  forall w, reachable w -> P w.
Proof.
  intros Hinit Hstep w [es ->].
  induction es as [|e es IH] using rev_ind; [exact Hinit|].
  rewrite run_snoc. apply Hstep, IH.
Qed.

(** C9. The history index is valid in every reachable state: it is -1
    exactly when the history is empty and lies in [0, length - 1]
    otherwise.  The initial state has the property, every event (upload,
    filter, undo, redo, generate, reset, the zoom and pointer events and
    the callbacks of image loads and of generate calls) preserves it, and
    with it [history[historyIndex]] is an entry whenever the history is
    not empty. *)
Theorem history_index_valid :
  historyValid (app initialWorld) /\
  (forall (e : Event) (w : World),
     historyValid (app w) -> historyValid (app (dispatch e w))) /\
  (forall w : World, reachable w ->
     historyValid (app w) /\
     (history (app w) <> [] -> is_Some (currentImageState (app w)))).
Proof.
  split; [exact historyValid_reset|]. split; [exact dispatch_historyValid|].
  intros w Hw.
  assert (Hv : historyValid (app w)).
  { revert w Hw. apply reachable_ind_inv;
      [exact historyValid_reset | exact dispatch_historyValid]. }
  split; [exact Hv|]. intros Hne.
  destruct Hv as [_ Hrange]. specialize (Hrange Hne).
  unfold currentImageState, js_index.
  destruct (historyIndex (app w) <? 0) eqn:Hneg; [apply Z.ltb_lt in Hneg; lia|].
  apply lookup_lt_is_Some. lia.
Qed.

End HistoryIndex.

(** ** The view transform *)


Section ViewTransform.
Context `{Platform}.

Lemma classic_move (e : Event) :
  (exists clientX clientY, e = MouseMove clientX clientY) \/
  (forall clientX clientY, e <> MouseMove clientX clientY).
Proof. destruct e; try (right; discriminate). left. eauto. Qed.

Lemma clamp_range (newScale : Q) :
  (1 <= Math_max 1 (Math_min newScale 10) <= 10)%Q.
Proof.
  unfold Math_max, Math_min.
  destruct (Qle_bool newScale 10) eqn:Hhi.
  - apply Qle_bool_iff in Hhi.
    destruct (Qle_bool 1 newScale) eqn:Hlo.
    + apply Qle_bool_iff in Hlo. split; assumption.
    + split; [apply Qle_refl | discriminate].
  - replace (Qle_bool 1 10) with true by reflexivity.
    split; [discriminate | apply Qle_refl].
Qed.

Lemma zoomValid_unit : zoomValid unitZoom.
Proof.
  unfold zoomValid, unitZoom. cbn.
  repeat split; try discriminate; reflexivity.
Qed.

(** [setZoomLevel] clamps the requested scale into [1, 10] and resets
    the pan offset when the clamped scale is 1, whatever the previous
    view transform was. *)
Lemma setZoomLevel_spec (newScale : Q) (w : World) :
  let clamped := Math_max 1 (Math_min newScale 10) in
  let z := zoom (app (exec (setZoomLevel newScale) w)) in
  (1 <= clamped <= 10)%Q /\
  (scale z == clamped)%Q /\
  ((clamped == 1)%Q -> z = unitZoom) /\
  (~ (clamped == 1)%Q -> x z = x (zoom (app w)) /\ y z = y (zoom (app w))) /\
  zoomValid z.
Proof.
  intros clamped z. pose proof (clamp_range newScale) as Hr. fold clamped in Hr.
  subst z. unfold setZoomLevel. fold clamped. eff_unfold.
  destruct (Qeq_bool clamped 1) eqn:He.
  - apply Qeq_bool_iff in He.
    repeat split; try tauto; try (cbn; now rewrite He); try apply zoomValid_unit.
  - apply Qeq_bool_neq in He.
    repeat split; try tauto; try reflexivity; cbn [scale x y]; tauto.
Qed.

Lemma scanParts_zoom (parts : list Part) (n : nat) (w : World) :
  zoom (app (exec (scanParts parts n) w)) = zoom (app w) \/
  zoom (app (exec (scanParts parts n) w)) = unitZoom.
Proof.
  induction n as [|i IH]; [now left|].
  cbn [scanParts]. destruct (parts !! i) as [part|]; [|now left].
  destruct (inlineData part); [now right | exact IH].
Qed.

Lemma generateSettled_zoom (o : Outcome) (w : World) :
  zoom (app (exec (generateSettled o) w)) = zoom (app w) \/
  zoom (app (exec (generateSettled o) w)) = unitZoom.
Proof.
  unfold generateSettled. destruct o as [t|parts]; [now left|].
  pose proof (scanParts_zoom parts (length parts) w) as Hs.
  unfold exec in *. eff_unfold.
  destruct (scanParts parts (length parts) w) as [[[]|t] w'];
    cbn [snd fst negb] in *; eff_unfold; exact Hs.
Qed.

Lemma mouseUp_zoom (n : nat) (w : World) :
  zoom (app (exec (forEachListener n handleMouseUp) w)) = zoom (app w).
Proof.
  revert w. induction n as [|n IH]; intros w; [reflexivity|].
  unfold exec in *. cbn [forEachListener]. unfold exec. now rewrite IH.
Qed.

Lemma mouseMove_scale (clientX clientY : Q) (n : nat) (w : World) :
  scale (zoom (app (exec (forEachListener n (handleMouseMove clientX clientY)) w)))
  = scale (zoom (app w)).
Proof.
  revert w. induction n as [|n IH]; intros w; [reflexivity|].
  unfold exec in *. cbn [forEachListener]. unfold exec. now rewrite IH.
Qed.

(** Every event but a pointer move leaves the view transform as it is,
    resets it, or goes through [setZoomLevel]. *)
Lemma dispatch_zoom (e : Event) (w : World) :
  (forall clientX clientY, e <> MouseMove clientX clientY) ->
  zoom (app (dispatch e w)) = zoom (app w) \/
  zoom (app (dispatch e w)) = unitZoom \/
  exists newScale, zoom (app (dispatch e w)) = zoom (app (exec (setZoomLevel newScale) w)).
Proof.
  intros Hmove. destruct e; unfold dispatch, handler.
  - unfold handleImageChange. destruct file; [|now left].
    right; left. destruct ctx; reflexivity.
  - unfold handleFilterClick. destruct (baseImage (app w)); [|now left].
    destruct (String.eqb _ _); [now left|].
    right; left. destruct ctx; reflexivity.
  - unfold handleUndo. destruct (canUndo (app w)); [|now left].
    destruct (js_index _ _); [right; left|left]; reflexivity.
  - unfold handleRedo. destruct (canRedo (app w)); [|now left].
    destruct (js_index _ _); [right; left|left]; reflexivity.
  - now left.
  - left. unfold handleGenerateClick.
    destruct (baseImage (app w)); [|reflexivity].
    destruct (currentImageState (app w)); [|reflexivity].
    destruct (truthy _); reflexivity.
  - destruct (requests w !! k); [|now left].
    destruct (generateSettled_zoom o (withRequests (delete k) w)) as [Hz|Hz];
      [left|right; left]; exact Hz.
  - right; left. reflexivity.
  - right; right. eexists. reflexivity.
  - right; right. eexists. reflexivity.
  - right; left. reflexivity.
  - right; right. eexists. reflexivity.
  - left. unfold handleMouseDown. destruct (_ || _); reflexivity.
  - exfalso. eapply Hmove. reflexivity.
  - left. apply mouseUp_zoom.
  - left. destruct (imageLoads w !! k) as [[src file|src r filter]|]; try reflexivity.
    unfold imageOnload. destruct (baseImage r); reflexivity.
Qed.

(** Upload, filter, undo, redo, generate, reset, the zoom buttons, the
    slider and the wheel all keep the view transform valid. *)
Lemma dispatch_zoomValid (e : Event) (w : World) :
  (forall clientX clientY, e <> MouseMove clientX clientY) ->
  zoomValid (zoom (app w)) -> zoomValid (zoom (app (dispatch e w))).
Proof.
  intros Hmove Hv.
  destruct (dispatch_zoom e w Hmove) as [Hz|[Hz|[q Hz]]]; rewrite Hz.
  - exact Hv.
  - exact zoomValid_unit.
  - apply setZoomLevel_spec.
Qed.

(** The scale stays in [1, 10] under every event, pointer moves
    included. *)
Lemma dispatch_scale_range (e : Event) (w : World) :
  (1 <= scale (zoom (app w)) <= 10)%Q ->
  (1 <= scale (zoom (app (dispatch e w))) <= 10)%Q.
Proof.
  intros Hr.
  destruct (classic_move e) as [(cx & cy & ->)|Hmove].
  - unfold dispatch, handler. rewrite mouseMove_scale. exact Hr.
  - destruct (dispatch_zoom e w Hmove) as [Hz|[Hz|[q Hz]]]; rewrite Hz.
    + exact Hr.
    + cbn. split; discriminate.
    + destruct (setZoomLevel_spec q w) as (_ & _ & _ & _ & Hv).
      destruct Hv as (H1 & H2 & _). split; assumption.
Qed.

Lemma reachable_scale_range (w : World) :
  reachable w -> (1 <= scale (zoom (app w)) <= 10)%Q.
Proof.
  revert w. apply reachable_ind_inv.
  - cbn. split; discriminate.
  - intros e w. apply dispatch_scale_range.
Qed.

End ViewTransform.

Section Pan.
Context `{Platform}.

(** One run of the move listener. *)
Lemma handleMouseMove_spec (clientX clientY : Q) (w : World) :
  let z := zoom (app w) in
  let dx := js_sub clientX (fst (lastMousePos w)) in
  let dy := js_sub clientY (snd (lastMousePos w)) in
  let w' := exec (handleMouseMove clientX clientY) w in
  zoom (app w') = {| scale := scale z; x := js_add (x z) (js_div dx (scale z));
                     y := js_add (y z) (js_div dy (scale z)) |} /\
  lastMousePos w' = (clientX, clientY) /\
  dragListeners w' = dragListeners w.
Proof. repeat split. Qed.

(** Further listeners of the same move find the position already
    recorded: their displacement is 0, and adding 0 leaves a double as it
    is. *)
Lemma mouseMove_idle (clientX clientY : Q) (n : nat) :
  forall w : World,
    lastMousePos w = (clientX, clientY) ->
    double (x (zoom (app w))) = x (zoom (app w)) ->
    double (y (zoom (app w))) = y (zoom (app w)) ->
    let w' := exec (forEachListener n (handleMouseMove clientX clientY)) w in
    zoom (app w') = zoom (app w) /\
    lastMousePos w' = (clientX, clientY).
Proof.
  induction n as [|n IH]; intros w Hpos Hx Hy; cbv zeta.
  - split; [reflexivity | exact Hpos].
  - unfold exec in *. cbn [forEachListener]. unfold exec.
    destruct (handleMouseMove_spec clientX clientY w) as (Hz & Hp & _).
    unfold exec in Hz, Hp.
    assert (Hsame : zoom (app (snd (handleMouseMove clientX clientY w))) = zoom (app w)).
    { rewrite Hz, Hpos. cbn [fst snd].
      rewrite !js_sub_diag, !js_div_zero, (js_add_zero _ Hx), (js_add_zero _ Hy).
      destruct (zoom (app w)); reflexivity. }
    destruct (IH (snd (handleMouseMove clientX clientY w)) Hp) as (Hz' & Hp').
    + now rewrite Hsame.
    + now rewrite Hsame.
    + split; [now rewrite Hz' | exact Hp'].
Qed.

(** C7, as amended.  A mouse-down starts a drag (registers the move
    listener, records the pointer position, sets [isPanning]) exactly
    when the scale is greater than 1 and the pointer is on the image, and
    it does nothing at all otherwise; without a drag a pointer move
    changes nothing.  During a drag a pointer move to
    [(clientX, clientY)] replaces the pan offset [(x, y)] by
    [(x + dx / scale, y + dy / scale)] in double arithmetic, where
    [dx = clientX - lastX] and [dy = clientY - lastY] are the doubles
    nearest to the displacement from the position recorded last (at the
    mouse-down or at the previous move) and [scale] is the current
    scale: the quotient and the sum are each rounded to the nearest
    double, so the offset changes by [(dx / scale, dy / scale)] up to
    these roundings.  The move records the new position and leaves the
    scale as it is.  This holds however many mouse-downs have left their
    listener: the first listener does the above and the further ones
    add the displacement 0.  The scale of a reachable state lies in
    [1, 10], so the division is by a number that is not zero; the
    coordinates and the offset are taken of magnitude at most
    [2 ^ 1000], where nothing overflows: the new offset is finite. *)
Theorem pan_drag_arithmetic (w : World) (clientX clientY : Q) :
  reachable w ->
  moveInRange w clientX clientY = true ->
  let z := zoom (app w) in
  let dx := js_sub clientX (fst (lastMousePos w)) in
  let dy := js_sub clientY (snd (lastMousePos w)) in
  let moved := dispatch (MouseMove clientX clientY) w in
  (forall onImage : bool,
     let down := dispatch (MouseDown onImage clientX clientY) w in
     ((1 < scale z)%Q /\ onImage = true ->
        dragListeners down = S (dragListeners w) /\
        isPanning (app down) = true /\
        lastMousePos down = (clientX, clientY) /\
        zoom (app down) = z) /\
     (~ ((1 < scale z)%Q /\ onImage = true) -> down = w)) /\
  (dragListeners w = 0%nat -> moved = w) /\
  ((0 < dragListeners w)%nat ->
     zoom (app moved) = {| scale := scale z;
                           x := js_add (x z) (js_div dx (scale z));
                           y := js_add (y z) (js_div dy (scale z)) |} /\
     lastMousePos moved = (clientX, clientY) /\
     (Qabs (x (zoom (app moved))) <= inject_Z (2 ^ 1002))%Q /\
     (Qabs (y (zoom (app moved))) <= inject_Z (2 ^ 1002))%Q) /\
  (1 <= scale z <= 10)%Q.
Proof.
  intros Hreach Hrange z dx dy moved.
  pose proof (reachable_scale_range w Hreach) as Hscale. fold z in Hscale.
  split; [|split; [|split; [|exact Hscale]]].
  - intros onImage down. subst down.
    unfold dispatch, handler, handleMouseDown. fold z. split.
    + intros [Hs ->]. apply Qlt_not_le in Hs.
      destruct (Qle_bool (scale z) 1) eqn:Hle; [apply Qle_bool_iff in Hle; tauto|].
      repeat split.
    + intros Hno.
      destruct (Qle_bool (scale z) 1) eqn:Hle; [destruct w; reflexivity|].
      destruct onImage; [|destruct w; reflexivity].
      exfalso. apply Hno. split; [|reflexivity].
      apply Qnot_le_lt. intros Hc. apply Qle_bool_iff in Hc. congruence.
  - intros Hn. subst moved. unfold dispatch, handler. rewrite Hn.
    destruct w; reflexivity.
  - intros Hn. subst moved. unfold dispatch, handler.
    destruct (dragListeners w) as [|n]; [lia|].
    unfold exec. cbn [forEachListener]. unfold exec.
    destruct (handleMouseMove_spec clientX clientY w) as (Hz & Hp & _).
    unfold exec in Hz, Hp. fold z dx dy in Hz.
    destruct (mouseMove_idle clientX clientY n
                (snd (handleMouseMove clientX clientY w)) Hp) as (Hz' & Hp').
    + rewrite Hz. cbn [x]. apply double_idem.
    + rewrite Hz. cbn [y]. apply double_idem.
    + unfold exec in Hz', Hp'.
      assert (Hmoved : zoom (app (snd (forEachListener n (handleMouseMove clientX clientY)
                                         (snd (handleMouseMove clientX clientY w)))))
                       = {| scale := scale z;
                            x := js_add (x z) (js_div dx (scale z));
                            y := js_add (y z) (js_div dy (scale z)) |})
        by now rewrite Hz', Hz.
      split; [exact Hmoved|]. split; [exact Hp'|].
      rewrite Hmoved. cbn [x y].
      unfold moveInRange in Hrange. cbn [forallb] in Hrange.
      repeat (apply andb_prop in Hrange as [? Hrange]).
      split; apply move_finite; try assumption; apply Hscale.
Qed.

End Pan.

(** C7, as the specification states it, fails: the pan offset does not
    change by exactly [dx / scale].  At scale 3 and offset (0, 0), with
    the drag started at (100, 100), a move to (110, 100) has [dx = 10];
    the offset becomes the double 3.3333333333333335, which is
    7505999378950827 / 2 ^ 51 and not 10 / 3. *)
Lemma pan_drag_not_exact :
  let w := dragAtThree in
  let z := zoom (app w) in
  let dx := (110 - fst (lastMousePos w))%Q in
  let moved := @dispatch samplePlatform (MouseMove 110 100) w in
  @feasible samplePlatform dragAtThreeEvents initialWorld = true /\
  moveInRange w 110 100 = true /\
  dragListeners w = 1%nat /\
  z = {| scale := 3; x := 0; y := 0 |} /\
  lastMousePos w = (100, 100)%Q /\
  (dx == 10)%Q /\
  x (zoom (app moved)) = (7505999378950827 # 2251799813685248)%Q /\
  ~ (x (zoom (app moved)) == x z + dx / scale z)%Q.
Proof.
  cbv zeta.
  assert (Hw : zoom (app dragAtThree) = {| scale := 3; x := 0; y := 0 |})
    by (vm_compute; reflexivity).
  assert (Hp : lastMousePos dragAtThree = (100, 100)%Q) by (vm_compute; reflexivity).
  assert (Hx : x (zoom (app (@dispatch samplePlatform (MouseMove 110 100) dragAtThree)))
               = (7505999378950827 # 2251799813685248)%Q) by (vm_compute; reflexivity).
  assert (Hr : moveInRange dragAtThree 110 100 = true) by (vm_compute; reflexivity).
  rewrite Hw, Hp, Hx, Hr. cbn [scale x y fst].
  split; [vm_compute; reflexivity|]. split; [reflexivity|].
  split; [vm_compute; reflexivity|].
  split; [reflexivity|]. split; [reflexivity|]. split; [reflexivity|].
  split; [reflexivity|].
  intros Heq. vm_compute in Heq. discriminate Heq.
Qed.

(** C4. The view transform is meant to keep its scale in [1, 10] and its
    pan offset at (0, 0) while the scale is 1.  A drag that is under way
    when the wheel brings the scale back to 1 breaks it: the move
    listener pans at scale 1.  The events below are all offered by the
    rendered page; before the last move the view transform is valid,
    after it the scale is 1 and the pan offset is (5, 0). *)
Theorem pan_at_scale_one_after_zoom_out :
  let before := @run samplePlatform (removelast panTrace) initialWorld in
  let after := @run samplePlatform panTrace initialWorld in
  @feasible samplePlatform panTrace initialWorld = true /\
  zoomValid (zoom (app before)) /\
  dragListeners before = 1%nat /\
  (scale (zoom (app after)) == 1)%Q /\
  (x (zoom (app after)) == 5)%Q /\
  (y (zoom (app after)) == 0)%Q /\
  ~ zoomValid (zoom (app after)).
Proof.
  cbv zeta.
  assert (Hb : zoom (app (@run samplePlatform (removelast panTrace) initialWorld)) = unitZoom)
    by (vm_compute; reflexivity).
  assert (Ha : zoom (app (@run samplePlatform panTrace initialWorld))
               = {| scale := 1; x := 5; y := 0 |}) by (vm_compute; reflexivity).
  rewrite Hb, Ha. cbn [scale x y].
  split; [vm_compute; reflexivity|].
  split; [apply zoomValid_unit|].
  split; [vm_compute; reflexivity|].
  split; [reflexivity|]. split; [reflexivity|]. split; [reflexivity|].
  intros (_ & _ & Hpan). destruct (Hpan ltac:(reflexivity)) as [Hx _].
  cbn in Hx. discriminate Hx.
Qed.

(** ** The generate handler *)

Section Generate.
Context `{Platform}.


(** The scan reads only the entries below its start index. *)
Lemma scanParts_prefix (l1 l2 : list Part) (n : nat) (w : World) :
  (n <= length l1)%nat -> scanParts (l1 ++ l2) n w = scanParts l1 n w.
Proof.
  induction n as [|i IH]; intros Hn; [reflexivity|].
  cbn [scanParts]. rewrite lookup_app_l by lia.
  destruct (l1 !! i) as [part|]; [|reflexivity].
  destruct (inlineData part); [reflexivity|]. apply IH. lia.
Qed.

Lemma scanParts_none (parts : list Part) (w : World) :
  Forall noInlineData parts ->
  scanParts parts (length parts) w = (Normal false, w).
Proof.
  induction parts as [|p parts IH] using rev_ind; intros Hnone; [reflexivity|].
  apply Forall_app in Hnone as [Hparts Hp].
  rewrite Forall_singleton in Hp. unfold noInlineData in Hp.
  rewrite length_app, Nat.add_1_r. cbn [scanParts].
  rewrite lookup_app_r by lia. rewrite Nat.sub_diag. cbn [lookup list_lookup].
  rewrite Hp. rewrite scanParts_prefix by lia. now apply IH.
Qed.

Lemma scanParts_last (before after : list Part) (part : Part) (d : InlineData) (w : World) :
  inlineData part = Some d ->
  Forall noInlineData after ->
  scanParts (before ++ part :: after) (length (before ++ part :: after)) w
  = (Normal true, exec (setEditedImageUrl (Some (inlineDataUrl d));; setZoom unitZoom) w).
Proof.
  intros Hd. induction after as [|p after IH] using rev_ind; intros Hnone.
  - rewrite length_app, Nat.add_1_r. cbn [scanParts].
    rewrite lookup_app_r by lia. rewrite Nat.sub_diag. cbn [lookup list_lookup].
    rewrite Hd. reflexivity.
  - apply Forall_app in Hnone as [Hafter Hp].
    rewrite Forall_singleton in Hp. unfold noInlineData in Hp.
    replace (before ++ part :: after ++ [p]) with ((before ++ part :: after) ++ [p])
      by (now rewrite <- app_assoc).
    rewrite length_app, Nat.add_1_r. cbn [scanParts].
    rewrite lookup_app_r by lia. rewrite Nat.sub_diag. cbn [lookup list_lookup].
    rewrite Hp. rewrite scanParts_prefix by lia. now apply IH.
Qed.

Lemma basic_scanParts_prefix (l1 l2 : list Part) (n : nat) (w : Basic.World) :
  (n <= length l1)%nat -> Basic.scanParts (l1 ++ l2) n w = Basic.scanParts l1 n w.
Proof.
  induction n as [|i IH]; intros Hn; [reflexivity|].
  cbn [Basic.scanParts]. rewrite lookup_app_l by lia.
  destruct (l1 !! i) as [part|]; [|reflexivity].
  destruct (inlineData part); [reflexivity|]. apply IH. lia.
Qed.

Lemma basic_scanParts_none (parts : list Part) (w : Basic.World) :
  Forall noInlineData parts ->
  Basic.scanParts parts (length parts) w = (Normal false, w).
Proof.
  induction parts as [|p parts IH] using rev_ind; intros Hnone; [reflexivity|].
  apply Forall_app in Hnone as [Hparts Hp].
  rewrite Forall_singleton in Hp. unfold noInlineData in Hp.
  rewrite length_app, Nat.add_1_r. cbn [Basic.scanParts].
  rewrite lookup_app_r by lia. rewrite Nat.sub_diag. cbn [lookup list_lookup].
  rewrite Hp. rewrite basic_scanParts_prefix by lia. now apply IH.
Qed.

Lemma basic_scanParts_last (before after : list Part) (part : Part) (d : InlineData)
    (w : Basic.World) :
  inlineData part = Some d ->
  Forall noInlineData after ->
  Basic.scanParts (before ++ part :: after) (length (before ++ part :: after)) w
  = (Normal true, exec (Basic.setEditedImageUrl (Some (inlineDataUrl d))) w).
Proof.
  intros Hd. induction after as [|p after IH] using rev_ind; intros Hnone.
  - rewrite length_app, Nat.add_1_r. cbn [Basic.scanParts].
    rewrite lookup_app_r by lia. rewrite Nat.sub_diag. cbn [lookup list_lookup].
    rewrite Hd. reflexivity.
  - apply Forall_app in Hnone as [Hafter Hp].
    rewrite Forall_singleton in Hp. unfold noInlineData in Hp.
    replace (before ++ part :: after ++ [p]) with ((before ++ part :: after) ++ [p])
      by (now rewrite <- app_assoc).
    rewrite length_app, Nat.add_1_r. cbn [Basic.scanParts].
    rewrite lookup_app_r by lia. rewrite Nat.sub_diag. cbn [lookup list_lookup].
    rewrite Hp. rewrite basic_scanParts_prefix by lia. now apply IH.
Qed.

(** C5. One catch-all surfaces a message.  When the awaited calls of
    [handleGenerateClick] throw, whatever the thrown value and whatever
    the state by then, the handler sets the error to
    'Failed to generate image. ' followed by the message of the exception
    (by 'An unexpected error occurred.' when the value is not an
    [Error]), clears the loading flag, and leaves the uploaded image, the
    history, the history index and the prompt as they are; the first
    variant of the component does the same on its smaller state. *)
Theorem generate_failure_surfaces_message (w : World) (k : nat) (err : Thrown)
    (bw : Basic.World) :
  is_Some (requests w !! k) ->
  let settled := dispatch (GenerateSettled k (Rejected err)) w in
  let bsettled := exec (Basic.generateSettled (Rejected err)) bw in
  (error (app settled) = Some ("Failed to generate image. " ++ errorMessage err)%string /\
   (forall message, errorMessage (ErrorObj message) = message) /\
   errorMessage NonError = "An unexpected error occurred." /\
   isLoading (app settled) = false /\
   baseImage (app settled) = baseImage (app w) /\
   history (app settled) = history (app w) /\
   historyIndex (app settled) = historyIndex (app w) /\
   prompt (app settled) = prompt (app w) /\
   editedImageUrl (app settled) = editedImageUrl (app w) /\
   activeFilter (app settled) = activeFilter (app w) /\
   zoom (app settled) = zoom (app w)) /\
  (Basic.error (Basic.app bsettled)
     = Some ("Failed to generate image. " ++ errorMessage err)%string /\
   Basic.isLoading (Basic.app bsettled) = false /\
   Basic.originalImage (Basic.app bsettled) = Basic.originalImage (Basic.app bw) /\
   Basic.originalImageUrl (Basic.app bsettled) = Basic.originalImageUrl (Basic.app bw) /\
   Basic.editedImageUrl (Basic.app bsettled) = Basic.editedImageUrl (Basic.app bw) /\
   Basic.prompt (Basic.app bsettled) = Basic.prompt (Basic.app bw)).
Proof.
  intros [r Hk] settled bsettled. subst settled bsettled.
  unfold dispatch, handler. rewrite Hk.
  split; repeat split.
Qed.

(** C6. The generate handler shows the last inline part.  After a click
    that sends the request, when the response arrives with the array
    [parts]: if some part carries inline data, the edited image becomes
    the data URL built from the mime type and the base64 bytes of the
    last such part, and no error is set; if no part carries inline data,
    the edited image stays unset and the error is
    'No image was generated. Please try a different prompt.'.  In both
    cases the loading flag is cleared.  The first variant of the
    component does the same. *)
Theorem generate_shows_last_inline_part (w : World) (parts : list Part) :
  baseImage (app w) <> None ->
  currentImageState (app w) <> None ->
  truthy (trim (prompt (app w))) = true ->
  let clicked := dispatch GenerateClick w in
  let settled := dispatch (GenerateSettled (length (requests w)) (Fulfilled parts)) clicked in
  (editedImageUrl (app clicked) = None /\ error (app clicked) = None /\
   isLoading (app clicked) = true /\ requests clicked = requests w ++ [app w]) /\
  (forall before part d after,
     parts = before ++ part :: after ->
     inlineData part = Some d ->
     Forall noInlineData after ->
     editedImageUrl (app settled) = Some (inlineDataUrl d) /\
     inlineDataUrl d
       = ("data:" ++ templateString (mimeType d) ++ ";base64," ++ templateString (data d))%string /\
     error (app settled) = None /\
     isLoading (app settled) = false) /\
  (Forall noInlineData parts ->
     editedImageUrl (app settled) = None /\
     error (app settled) = Some "No image was generated. Please try a different prompt." /\
     isLoading (app settled) = false) /\
  (forall bw : Basic.World,
     Basic.originalImage (Basic.app bw) <> None ->
     truthy (trim (Basic.prompt (Basic.app bw))) = true ->
     let bclicked := exec (Basic.handleGenerateClick (Basic.app bw)) bw in
     let bsettled := exec (Basic.generateSettled (Fulfilled parts)) bclicked in
     (forall before part d after,
        parts = before ++ part :: after ->
        inlineData part = Some d ->
        Forall noInlineData after ->
        Basic.editedImageUrl (Basic.app bsettled) = Some (inlineDataUrl d) /\
        Basic.error (Basic.app bsettled) = None /\
        Basic.isLoading (Basic.app bsettled) = false) /\
     (Forall noInlineData parts ->
        Basic.editedImageUrl (Basic.app bsettled) = None /\
        Basic.error (Basic.app bsettled)
          = Some "No image was generated. Please try a different prompt." /\
        Basic.isLoading (Basic.app bsettled) = false)).
Proof.
  intros Hbase Hcur Hprompt clicked settled.
  assert (Hclicked : clicked = exec (setIsLoading true;; setError None;;
            setEditedImageUrl None;; modify (withRequests (fun rs => rs ++ [app w]))) w).
  { subst clicked. unfold dispatch, handler, handleGenerateClick.
    destruct (baseImage (app w)); [|congruence].
    destruct (currentImageState (app w)); [|congruence].
    rewrite Hprompt. reflexivity. }
  assert (Hk : requests clicked !! length (requests w) = Some (app w)).
  { rewrite Hclicked. eff_unfold. rewrite lookup_app_r by lia.
    now rewrite Nat.sub_diag. }
  split; [rewrite Hclicked; repeat split|].
  split; [|split].
  - intros before part d after -> Hd Hafter. subst settled.
    unfold dispatch, handler. rewrite Hk.
    unfold generateSettled, exec. eff_unfold.
    rewrite (scanParts_last before after part d _ Hd Hafter).
    rewrite Hclicked. repeat split.
  - intros Hnone. subst settled.
    unfold dispatch, handler. rewrite Hk.
    unfold generateSettled, exec. eff_unfold.
    rewrite (scanParts_none parts _ Hnone).
    rewrite Hclicked. repeat split.
  - intros bw Hfile Hbprompt bclicked bsettled.
    assert (Hb : bclicked = exec (Basic.setIsLoading true;; Basic.setError None;;
                   Basic.setEditedImageUrl None) bw).
    { subst bclicked. unfold Basic.handleGenerateClick.
      destruct (Basic.originalImage (Basic.app bw)); [|congruence].
      rewrite Hbprompt. reflexivity. }
    split.
    + intros before part d after -> Hd Hafter. subst bsettled.
      unfold Basic.generateSettled, exec. eff_unfold.
      rewrite (basic_scanParts_last before after part d _ Hd Hafter).
      rewrite Hb. repeat split.
    + intros Hnone. subst bsettled.
      unfold Basic.generateSettled, exec. eff_unfold.
      rewrite (basic_scanParts_none parts _ Hnone).
      rewrite Hb. repeat split.
Qed.

End Generate.

(** ** Repeated filter clicks *)

Section FilterClicks.
Context `{Platform}.

Lemma filter_click_noop (w : World) (filter : string) (ctx : bool) :
  baseImage (app w) = None \/ activeFilter (app w) = filter ->
  dispatch (FilterClick filter ctx) w = w.
Proof.
  intros Hguard. unfold dispatch, handler, handleFilterClick.
  destruct (baseImage (app w)) as [base|]; [|destruct w; reflexivity].
  destruct Hguard as [Hnone | Hactive]; [discriminate|].
  apply String.eqb_eq in Hactive. rewrite Hactive. destruct w; reflexivity.
Qed.

Lemma image_loaded_noop (w : World) (k : nat) :
  imageLoads w !! k = None -> dispatch (ImageLoaded k) w = w.
Proof.
  intros Hk. unfold dispatch, handler. rewrite Hk. destruct w; reflexivity.
Qed.

Lemma js_slice_length {A} (l : list A) (start end_ : Z) :
  (length (js_slice l start end_) <= length l)%nat.
Proof. unfold js_slice. rewrite length_take, length_drop. lia. Qed.


Lemma clicksState_step (w0 w : World) (filter : string) (e : Event) :
  imageLoads w0 = [] ->
  clickOrLoad filter e ->
  clicksState w0 filter w -> clicksState w0 filter (dispatch e w).
Proof.
  intros Hloads0 He Hw.
  destruct Hw as [-> | base Hb Hb0 Ha Hh Hl | base Hb Hb0 Ha Hl Hh].
  - destruct He as [[ctx ->] | [k ->]].
    + destruct (baseImage (app w0)) as [base|] eqn:Hbase;
        [|apply clicksIdle, filter_click_noop; now left].
      destruct (String.eqb (activeFilter (app w0)) filter) eqn:Heq.
      { apply String.eqb_eq in Heq. apply clicksIdle, filter_click_noop. now right. }
      destruct ctx.
      * apply String.eqb_neq in Heq.
        destruct (filter_click w0 filter base Hbase Heq)
          as (Hl & Hh & Hi & Hb & Ha & _).
        apply (clicksLoading _ _ _ base); try assumption.
        -- now rewrite Hb.
        -- unfold historyOf. now rewrite Hh, Hi.
        -- now rewrite Hl, Hloads0.
      * apply (clicksDone _ _ _ base); try assumption;
          unfold dispatch, handler, handleFilterClick; rewrite Hbase, Heq.
        -- exact Hbase.
        -- reflexivity.
        -- exact Hloads0.
        -- now left.
    + apply clicksIdle, image_loaded_noop. now rewrite Hloads0.
  - destruct He as [[ctx ->] | [k ->]].
    + rewrite filter_click_noop by now right.
      now apply (clicksLoading _ _ _ base).
    + destruct k as [|k].
      * destruct (filter_onload w 0 _ _ _ base ltac:(now rewrite Hl) Hb0)
          as (Hh' & _ & Ha' & _ & _ & Hl').
        apply (clicksDone _ _ _ base).
        -- unfold dispatch, handler. rewrite Hl. cbn [lookup list_lookup].
           unfold imageOnload. rewrite Hb0. exact Hb.
        -- exact Hb0.
        -- now rewrite Ha'.
        -- rewrite Hl', Hl. reflexivity.
        -- right. exact Hh'.
      * rewrite image_loaded_noop by now rewrite Hl.
        now apply (clicksLoading _ _ _ base).
  - destruct He as [[ctx ->] | [k ->]].
    + rewrite filter_click_noop by now right.
      now apply (clicksDone _ _ _ base).
    + rewrite image_loaded_noop by now rewrite Hl.
      now apply (clicksDone _ _ _ base).
Qed.

Lemma clicksState_run (w0 : World) (filter : string) (es : list Event) :
  imageLoads w0 = [] ->
  Forall (clickOrLoad filter) es ->
  clicksState w0 filter (run es w0).
Proof.
  intros Hloads0. induction es as [|e es IH] using rev_ind; intros Hes.
  - now apply clicksIdle.
  - apply Forall_app in Hes as [Hes He]. rewrite Forall_singleton in He.
    rewrite run_snoc. apply clicksState_step; auto.
Qed.

(** C10. Clicking the filter that is already active, or any filter
    while no image is uploaded, changes nothing at all (history, index,
    active filter and zoom included); a second click on a filter right
    after the first changes nothing either; and however many times one
    filter is clicked, with the image loads it starts completing in
    between, the history is in the end either what it was or what it was
    (cut after the index of the first click) with one new entry. *)
Theorem filter_click_idempotent (w : World) (filter : string) :
  (forall ctx, baseImage (app w) = None \/ activeFilter (app w) = filter ->
     dispatch (FilterClick filter ctx) w = w) /\
  (forall ctx ctx',
     dispatch (FilterClick filter ctx') (dispatch (FilterClick filter ctx) w)
     = dispatch (FilterClick filter ctx) w) /\
  (forall es : list Event,
     imageLoads w = [] ->
     Forall (clickOrLoad filter) es ->
     let w' := run es w in
     (history (app w') = history (app w) \/
      exists base,
        baseImage (app w) = Some base /\
        history (app w') =
          js_slice (history (app w)) 0 (historyIndex (app w) + 1)
            ++ [ {| imageUrl := filteredDataUrl base filter; filter := filter |} ]) /\
     (length (history (app w')) <= length (history (app w)) + 1)%nat).
Proof.
  split; [intros ctx; apply filter_click_noop|]. split.
  - intros ctx ctx'.
    destruct (baseImage (app w)) as [base|] eqn:Hbase.
    + destruct (String.eqb (activeFilter (app w)) filter) eqn:Heq.
      * apply String.eqb_eq in Heq.
        rewrite (filter_click_noop w filter ctx) by now right.
        apply filter_click_noop. now right.
      * apply filter_click_noop. right.
        unfold dispatch, handler, handleFilterClick. rewrite Hbase, Heq.
        destruct ctx; reflexivity.
    + rewrite (filter_click_noop w filter ctx) by (left; exact Hbase).
      apply filter_click_noop. now left.
  - intros es Hloads Hes w'. subst w'.
    assert (Hcases : history (app (run es w)) = history (app w) \/
      exists base,
        baseImage (app w) = Some base /\
        history (app (run es w)) =
          js_slice (history (app w)) 0 (historyIndex (app w) + 1)
            ++ [ {| imageUrl := filteredDataUrl base filter; filter := filter |} ]).
    { destruct (clicksState_run w filter es Hloads Hes)
        as [Heq | base _ _ _ Hh _ | base _ Hb0 _ _ [Hh|Hh]].
      - left. now rewrite Heq.
      - left. unfold historyOf in Hh. congruence.
      - now left.
      - right. exists base. split; assumption. }
    split; [exact Hcases|].
    destruct Hcases as [-> | (base & _ & ->)]; [lia|].
    rewrite length_app. cbn [length].
    pose proof (js_slice_length (history (app w)) 0 (historyIndex (app w) + 1)). lia.
Qed.

End FilterClicks.

(** ** Object URLs *)


Section ObjectUrls.
Context `{Platform}.


Lemma scanParts_loadsOf (parts : list Part) (n : nat) (w : World) :
  loadsOf (exec (scanParts parts n) w) = loadsOf w.
Proof.
  induction n as [|i IH]; [reflexivity|].
  cbn [scanParts]. destruct (parts !! i) as [part|]; [|reflexivity].
  destruct (inlineData part); [reflexivity | exact IH].
Qed.

Lemma generateSettled_loadsOf (o : Outcome) (w : World) :
  loadsOf (exec (generateSettled o) w) = loadsOf w.
Proof.
  unfold generateSettled. destruct o as [t|parts]; [reflexivity|].
  pose proof (scanParts_loadsOf parts (length parts) w) as Hs.
  unfold exec in *. eff_unfold.
  destruct (scanParts parts (length parts) w) as [[[]|t] w'];
    cbn [snd fst negb] in *; eff_unfold; exact Hs.
Qed.

Lemma forEachListener_loadsOf (m : Eff World unit) :
  (forall w, loadsOf (exec m w) = loadsOf w) ->
  forall n w, loadsOf (exec (forEachListener n m) w) = loadsOf w.
Proof.
  intros Hm n. induction n as [|n IH]; intros w; [reflexivity|].
  unfold exec in *. cbn [forEachListener]. unfold exec. rewrite IH. apply Hm.
Qed.

(** What an event does to the object URLs and to the loading images:
    nothing, or it starts a load on a fresh URL, or it completes a load
    and revokes its URL. *)
Lemma dispatch_loadsOf (e : Event) (w : World) :
  loadsOf (dispatch e w) = loadsOf w \/
  (exists l, loadSrc l = nextUrl (urls w) /\
     (forall src r filter, l = FilterLoad src r filter -> baseImage r <> None) /\
     urls (dispatch e w) = snd (createObjectURL (urls w)) /\
     imageLoads (dispatch e w) = imageLoads w ++ [l]) \/
  (exists k l, e = ImageLoaded k /\ imageLoads w !! k = Some l /\
     imageLoads (dispatch e w) = delete k (imageLoads w) /\
     (urls (dispatch e w) = revokeObjectURL (loadSrc l) (urls w) \/
      (exists src r filter, l = FilterLoad src r filter /\ baseImage r = None) /\
      urls (dispatch e w) = urls w)).
Proof.
  destruct e; unfold dispatch, handler.
  - unfold handleImageChange. destruct file as [file|]; [|now left].
    destruct ctx; [|now left].
    right; left. exists (UploadLoad (nextUrl (urls w)) file).
    repeat split. discriminate.
  - unfold handleFilterClick. destruct (baseImage (app w)) as [base|] eqn:Hbase; [|now left].
    destruct (String.eqb _ _); [now left|]. destruct ctx; [|now left].
    right; left. exists (FilterLoad (nextUrl (urls w)) (app w) filter0).
    repeat split. intros src r f [= _ <- _]. congruence.
  - left. unfold handleUndo. destruct (canUndo _); [|reflexivity].
    destruct (js_index _ _); reflexivity.
  - left. unfold handleRedo. destruct (canRedo _); [|reflexivity].
    destruct (js_index _ _); reflexivity.
  - now left.
  - left. unfold handleGenerateClick.
    destruct (baseImage (app w)); [|reflexivity].
    destruct (currentImageState (app w)); [|reflexivity].
    destruct (truthy _); reflexivity.
  - left. destruct (requests w !! k); [|reflexivity].
    change (loadsOf (exec (generateSettled o) (withRequests (delete k) w)) = loadsOf w).
    now rewrite generateSettled_loadsOf.
  - now left.
  - now left.
  - now left.
  - now left.
  - now left.
  - left. unfold handleMouseDown. destruct (_ || _); reflexivity.
  - left. apply forEachListener_loadsOf. reflexivity.
  - left. apply forEachListener_loadsOf. reflexivity.
  - destruct (imageLoads w !! k) as [l|] eqn:Hk; [|now left].
    destruct l as [src file|src r filter].
    + right; right. exists k, (UploadLoad src file).
      split; [reflexivity|]. split; [exact Hk|]. split; [reflexivity|]. now left.
    + unfold imageOnload. right; right. exists k, (FilterLoad src r filter).
      split; [reflexivity|]. split; [exact Hk|].
      destruct (baseImage r) eqn:Hb.
      * split; [reflexivity|]. now left.
      * split; [reflexivity|]. right. split; [|reflexivity]. eauto.
Qed.

Lemma delete_sources (ls : list ImageLoad) (k : nat) (l : ImageLoad) :
  ls !! k = Some l ->
  NoDup (loadSrc <$> ls) ->
  NoDup (loadSrc <$> delete k ls) /\
  (forall u, u ∈ (loadSrc <$> delete k ls) <-> u ∈ (loadSrc <$> ls) /\ u <> loadSrc l) /\
  (forall l', l' ∈ delete k ls -> l' ∈ ls).
Proof.
  intros Hk Hnd.
  rewrite delete_take_drop.
  pose proof (take_drop_middle ls k l Hk) as Hsplit. clear Hk.
  remember (take k ls) as pre eqn:Hpre. remember (drop (S k) ls) as suf eqn:Hsuf.
  clear Hpre Hsuf. subst ls.
  rewrite fmap_app, fmap_cons in Hnd.
  apply NoDup_app in Hnd as (Hnd1 & Hdisj & Hnd2).
  apply NoDup_cons in Hnd2 as [Hnotin Hnd2].
  split; [|split].
  - rewrite fmap_app. apply NoDup_app. repeat split; try assumption.
    intros u Hu Hu'. apply (Hdisj u Hu). now right.
  - intros u. rewrite !fmap_app, fmap_cons.
    rewrite !elem_of_app, elem_of_cons. split.
    + intros [Hu|Hu].
      * split; [now left|]. intros ->. apply (Hdisj _ Hu). now left.
      * split; [right; now right|]. intros ->. contradiction.
    + intros [[Hu|[Hu|Hu]] Hne]; [now left | contradiction | now right].
  - intros l'. rewrite !elem_of_app, elem_of_cons. tauto.
Qed.

Lemma urlsTracked_initial : urlsTracked initialWorld.
Proof.
  split; cbn.
  - constructor.
  - intros u. rewrite elem_of_empty. split; [tauto | intros Hin; inversion Hin].
  - intros u Hu. now apply elem_of_empty in Hu.
  - intros src r f Hin. inversion Hin.
Qed.

Lemma urlsTracked_step (e : Event) (w : World) :
  urlsTracked w -> urlsTracked (dispatch e w).
Proof.
  intros [Hnd Hlive Hfresh Hfile].
  destruct (dispatch_loadsOf e w) as [Hsame | [(l & Hsrc & Hl & Hu & Hls) | (k & l & -> & Hk & Hls & Hu)]].
  - injection Hsame as Hu Hls. split; rewrite ?Hu, ?Hls; assumption.
  - assert (Hnew : nextUrl (urls w) ∉ (loadSrc <$> imageLoads w)).
    { intros Hin. apply Hlive, Hfresh in Hin. lia. }
    split; rewrite ?Hu, ?Hls; cbn [createObjectURL snd liveUrls nextUrl].
    + rewrite fmap_app. apply NoDup_app. repeat split; [assumption| |].
      * intros u Hin Hin'. cbn in Hin'. apply list_elem_of_singleton in Hin'.
        subst u. rewrite Hsrc in Hin. contradiction.
      * cbn. apply NoDup_singleton.
    + intros u. rewrite fmap_app, elem_of_app, elem_of_union, elem_of_singleton.
      cbn. rewrite list_elem_of_singleton, Hsrc, Hlive. tauto.
    + intros u. rewrite elem_of_union, elem_of_singleton.
      intros [-> | Hin]; [lia|]. apply Hfresh in Hin. lia.
    + intros src r f. rewrite elem_of_app, list_elem_of_singleton.
      intros [Hin | <-]; [eapply Hfile; eauto | eapply Hl; eauto].
  - destruct (delete_sources _ k l Hk Hnd) as (Hnd' & Hmem & Hsub).
    destruct Hu as [Hu | [(src & r & f & -> & Hnone) _]].
    + split; rewrite ?Hu, ?Hls; cbn [revokeObjectURL liveUrls nextUrl].
      * exact Hnd'.
      * intros u. rewrite Hmem, elem_of_difference, elem_of_singleton, Hlive. tauto.
      * intros u. rewrite elem_of_difference. intros [Hin _]. now apply Hfresh.
      * intros src r f Hin. eapply Hfile. apply Hsub. exact Hin.
    + exfalso. eapply Hfile; [|exact Hnone].
      eapply list_elem_of_lookup_2. exact Hk.
Qed.

Lemma reachable_urlsTracked (w : World) : reachable w -> urlsTracked w.
Proof.
  revert w. apply reachable_ind_inv;
    [exact urlsTracked_initial | intros e w; apply urlsTracked_step].
Qed.

Lemma revoked_gone (url : N) (store : UrlStore) :
  (url ∉ liveUrls (revokeObjectURL url store)) /\
  liveUrls (revokeObjectURL url store) ⊆ liveUrls store.
Proof.
  cbn [revokeObjectURL liveUrls]. split.
  - intros [_ Hn]%elem_of_difference. apply Hn. now apply elem_of_singleton.
  - intros u [Hu _]%elem_of_difference. exact Hu.
Qed.

(** C8. Object URLs are released when the image has loaded.  An upload
    and a filter click each create one object URL, for the image they
    start loading, and the [onload] callback of that image revokes it,
    whenever it runs; the same holds for the filtered-image pipeline of
    the third variant ([getFilteredImageFile] and the preview effect).
    No other event creates an object URL, and in every reachable state the
    live object URLs are exactly the sources of the images still
    loading. *)
Theorem object_urls_released_on_load (w : World) :
  let url := nextUrl (urls w) in
  (forall file : File,
     let started := dispatch (ImageChange (Some file) true) w in
     liveUrls (urls started) = {[ url ]} ∪ liveUrls (urls w) /\
     imageLoads started = imageLoads w ++ [UploadLoad url file] /\
     forall (later : World) (k : nat),
       imageLoads later !! k = Some (UploadLoad url file) ->
       (url ∉ liveUrls (urls (dispatch (ImageLoaded k) later))) /\
       liveUrls (urls (dispatch (ImageLoaded k) later)) ⊆ liveUrls (urls later)) /\
  (forall (filter : string) (base : File),
     baseImage (app w) = Some base ->
     activeFilter (app w) <> filter ->
     let started := dispatch (FilterClick filter true) w in
     liveUrls (urls started) = {[ url ]} ∪ liveUrls (urls w) /\
     imageLoads started = imageLoads w ++ [FilterLoad url (app w) filter] /\
     forall (later : World) (k : nat),
       imageLoads later !! k = Some (FilterLoad url (app w) filter) ->
       (url ∉ liveUrls (urls (dispatch (ImageLoaded k) later))) /\
       liveUrls (urls (dispatch (ImageLoaded k) later)) ⊆ liveUrls (urls later)) /\
  (forall e : Event,
     liveUrls (urls (dispatch e w)) ⊆ liveUrls (urls w) \/
     (liveUrls (urls (dispatch e w)) = {[ url ]} ∪ liveUrls (urls w) /\
      exists l, loadSrc l = url /\ imageLoads (dispatch e w) = imageLoads w ++ [l])) /\
  (forall (store : UrlStore) (originalImage : option File) (activeFilter : string)
          (ctx : bool),
     match Filtered.getFilteredImageFile originalImage activeFilter ctx store with
     | (Normal (Filtered.Loading src), store') =>
         liveUrls store' = {[ src ]} ∪ liveUrls store /\
         forall later : UrlStore,
           (src ∉ liveUrls (exec (Filtered.onload src) later)) /\
           liveUrls (exec (Filtered.onload src) later) ⊆ liveUrls later
     | (_, store') => store' = store
     end) /\
  (forall (store : UrlStore) (originalImage : option File) (ctx : bool),
     match Filtered.previewEffect originalImage ctx store with
     | (Normal (Some src), store') =>
         liveUrls store' = {[ src ]} ∪ liveUrls store /\
         forall later : UrlStore,
           src ∉ liveUrls (exec (Filtered.onload src) later)
     | (_, store') => store' = store
     end) /\
  (reachable w ->
     forall u : N,
       u ∈ liveUrls (urls w) <-> exists l, l ∈ imageLoads w /\ loadSrc l = u).
Proof.
  intros url. split; [|split; [|split; [|split; [|split]]]].
  - intros file started. subst started. split; [reflexivity|]. split; [reflexivity|].
    intros later k Hk. unfold dispatch, handler. rewrite Hk.
    apply (revoked_gone url (urls later)).
  - intros filter base Hbase Hne started.
    destruct (filter_click w filter base Hbase Hne) as (Hl & _ & _ & _ & _ & _ & Hu).
    split; [exact Hu|]. split; [exact Hl|].
    intros later k Hk.
    destruct (filter_onload later k _ _ _ base Hk Hbase) as (_ & _ & _ & _ & Hu' & _).
    cbv zeta in Hu'. rewrite Hu'. apply revoked_gone.
  - intros e.
    destruct (dispatch_loadsOf e w)
      as [Hsame | [(l & Hsrc & _ & Hu & Hls) | (k & l & -> & Hk & Hls & Hu)]].
    + left. injection Hsame as Hu _. now rewrite Hu.
    + right. rewrite Hu. split; [reflexivity|]. exists l. split; assumption.
    + left. destruct Hu as [Hu | [_ Hu]]; rewrite Hu; [|reflexivity].
      apply revoked_gone.
  - intros store originalImage activeFilter ctx.
    unfold Filtered.getFilteredImageFile.
    destruct originalImage as [file|]; [|reflexivity].
    destruct (String.eqb activeFilter "none"); [reflexivity|].
    destruct ctx; [|reflexivity].
    cbn. split; [reflexivity|]. intros later. apply revoked_gone.
  - intros store originalImage ctx. unfold Filtered.previewEffect.
    destruct originalImage as [file|]; [|reflexivity].
    destruct ctx; [|reflexivity].
    cbn. split; [reflexivity|]. intros later. apply revoked_gone.
  - intros Hreach u. destruct (reachable_urlsTracked w Hreach) as [_ Hlive _ _].
    rewrite Hlive, list_elem_of_fmap. split.
    + intros (l & -> & Hl). eauto.
    + intros (l & Hl & <-). eauto.
Qed.

End ObjectUrls.

(** * The properties at sample states *)

Lemma posterize_quantizes_rgb_keeps_alpha_witness :
  Forall isByte samplePixels /\
  posterize samplePixels = Some [0; 85; 170; 77; 85; 170; 255; 0].
Proof.
  assert (Hbytes : Forall isByte samplePixels)
    by (repeat constructor; unfold isByte; lia).
  split; [exact Hbytes|].
  destruct (posterize_quantizes_rgb_keeps_alpha samplePixels Hbytes)
    as (_ & _ & out & Hout & _).
  rewrite Hout. vm_compute in Hout. symmetry. exact Hout.
Defined.

Lemma filter_click_truncates_and_appends_witness :
  baseImage (app uploadedWorld) = Some sampleFile /\
  activeFilter (app uploadedWorld) <> "sepia" /\
  historyIndex
    (app (@dispatch samplePlatform (ImageLoaded 0)
            (@dispatch samplePlatform (FilterClick "sepia" true) uploadedWorld))) = 1.
Proof.
  assert (Hbase : baseImage (app uploadedWorld) = Some sampleFile) by reflexivity.
  assert (Hne : activeFilter (app uploadedWorld) <> "sepia") by discriminate.
  assert (Hi : 0 <= historyIndex (app uploadedWorld)
               <= Z.of_nat (length (history (app uploadedWorld))) - 1)
    by (vm_compute; split; discriminate).
  split; [exact Hbase|]. split; [exact Hne|].
  destruct (@filter_click_truncates_and_appends samplePlatform uploadedWorld "sepia"
              sampleFile Hbase Hne Hi) as (_ & (_ & _ & Hidx & _) & _).
  exact Hidx.
Defined.

Lemma generate_failure_surfaces_message_witness :
  is_Some (requests requestedWorld !! 0%nat) /\
  error (app (@dispatch samplePlatform
                (GenerateSettled 0 (Rejected (ErrorObj "Network down"))) requestedWorld))
  = Some "Failed to generate image. Network down".
Proof.
  assert (Hk : is_Some (requests requestedWorld !! 0%nat))
    by (eexists; vm_compute; reflexivity).
  split; [exact Hk|].
  destruct (@generate_failure_surfaces_message samplePlatform requestedWorld 0
              (ErrorObj "Network down")
              {| Basic.app := {| Basic.originalImage := None;
                                 Basic.originalImageUrl := None;
                                 Basic.editedImageUrl := None; Basic.prompt := "";
                                 Basic.isLoading := true; Basic.error := None |};
                 Basic.urls := {| liveUrls := ∅; nextUrl := 0%N |} |} Hk)
    as ((Herr & _) & _).
  exact Herr.
Defined.

Lemma generate_shows_last_inline_part_witness :
  baseImage (app promptedWorld) <> None /\
  currentImageState (app promptedWorld) <> None /\
  truthy (trim (prompt (app promptedWorld))) = true /\
  editedImageUrl
    (app (@dispatch samplePlatform
            (GenerateSettled (length (requests promptedWorld)) (Fulfilled sampleParts))
            (@dispatch samplePlatform GenerateClick promptedWorld)))
  = Some "data:image/jpeg;base64,BBBB".
Proof.
  assert (Hbase : baseImage (app promptedWorld) <> None) by discriminate.
  assert (Hcur : currentImageState (app promptedWorld) <> None) by discriminate.
  assert (Hprompt : truthy (trim (prompt (app promptedWorld))) = true) by reflexivity.
  split; [exact Hbase|]. split; [exact Hcur|]. split; [exact Hprompt|].
  destruct (@generate_shows_last_inline_part samplePlatform promptedWorld sampleParts
              Hbase Hcur Hprompt) as (_ & Hfound & _).
  destruct (Hfound [ {| inlineData := Some {| data := Some "AAAA";
                                              mimeType := Some "image/png" |};
                        text := None |} ]
              {| inlineData := Some {| data := Some "BBBB"; mimeType := Some "image/jpeg" |};
                 text := None |}
              {| data := Some "BBBB"; mimeType := Some "image/jpeg" |}
              [ {| inlineData := None; text := Some "Here is your image." |} ]
              eq_refl eq_refl) as (Hurl & _).
  { repeat constructor. }
  exact Hurl.
Defined.

Lemma pan_drag_arithmetic_witness :
  @reachable samplePlatform dragAtThree /\
  moveInRange dragAtThree 110 96 = true /\
  zoom (app (@dispatch samplePlatform (MouseMove 110 96) dragAtThree))
  = {| scale := 3;
       x := 7505999378950827 # 2251799813685248;
       y := - (6004799503160661 # 4503599627370496) |}.
Proof.
  assert (Hreach : @reachable samplePlatform dragAtThree)
    by (eexists; reflexivity).
  split; [exact Hreach|]. split; [reflexivity|].
  destruct (@pan_drag_arithmetic samplePlatform dragAtThree 110 96 Hreach eq_refl)
    as (_ & _ & Hdrag & _).
  etransitivity; [exact (proj1 (Hdrag (Nat.lt_0_succ 0)))|].
  vm_compute. reflexivity.
Defined.

(** * Further properties *)

(** ** Posterize *)

Lemma posterLevel_facts (c : Z) :
  isByte c ->
  isByte (posterLevel c) /\
  (posterLevel c = 0 \/ posterLevel c = 85 \/ posterLevel c = 170 \/ posterLevel c = 255) /\
  -42 <= posterLevel c - c <= 42 /\
  posterLevel (posterLevel c) = posterLevel c.
Proof.
  unfold isByte, posterLevel. intros Hc.
  assert (Hk : 0 <= (2 * c + 85) / 170 <= 3).
  { split; [apply Z.div_pos; lia|].
    assert ((2 * c + 85) / 170 < 4) by (apply Z.div_lt_upper_bound; lia). lia. }
  pose proof (Z.div_mod (2 * c + 85) 170 ltac:(lia)) as Hdm.
  pose proof (Z.mod_pos_bound (2 * c + 85) 170 ltac:(lia)) as Hm.
  set (k := (2 * c + 85) / 170) in *.
  repeat split; try lia.
  replace (2 * (85 * k) + 85) with (85 + k * 170) by lia.
  rewrite Z.div_add by lia. reflexivity.
Qed.

Lemma posterLevel_monotone (c c' : Z) :
  c <= c' -> posterLevel c <= posterLevel c'.
Proof.
  intros Hle. unfold posterLevel.
  apply Z.mul_le_mono_nonneg_l; [lia|].
  apply Z.div_le_mono; lia.
Qed.

(** What [posterize] leaves at each byte offset. *)
Lemma posterize_lookup (data : list Z) :
  Forall isByte data ->
  exists out,
    posterize data = Some out /\
    length out = length data /\
    forall j : nat,
      out !! j = if decide (j mod 4 <> 3)%nat then posterLevel <$> data !! j
                 else data !! j.
Proof.
  intros Hbytes.
  destruct (posterizeLoop_lookup (length data) 0 data) as (out & Hout & Hl & Hlook); [lia|].
  exists out. split; [exact Hout|]. split; [exact Hl|].
  intros j. rewrite Hlook, Nat.sub_0_r.
  destruct (decide (j mod 4 <> 3)%nat) as [Hj|Hj].
  - case_decide as Hd; [|exfalso; apply Hd; split; [lia|exact Hj]].
    destruct (data !! j) as [c|] eqn:Hc; [|reflexivity].
    cbn. f_equal. apply quantize_byte.
    eapply Forall_forall in Hbytes; [exact Hbytes|].
    eapply list_elem_of_lookup_2; eauto.
  - case_decide as Hd; [tauto | reflexivity].
Qed.

(** X1. Posterizing is idempotent: the posterized buffer is again a
    buffer of bytes, and posterizing it once more gives the same
    buffer. *)
Theorem posterize_idempotent (data : list Z) :
  Forall isByte data ->
  exists out,
    posterize data = Some out /\
    Forall isByte out /\
    posterize out = Some out.
Proof.
  intros Hbytes.
  destruct (posterize_lookup data Hbytes) as (out & Hout & Hl & Hlook).
  assert (Hout_bytes : Forall isByte out).
  { apply Forall_lookup. intros j v Hv. rewrite Hlook in Hv.
    case_decide as Hj.
    - destruct (data !! j) as [c|] eqn:Hc; [|discriminate].
      cbn in Hv. injection Hv as <-. apply posterLevel_facts.
      eapply Forall_forall in Hbytes; [exact Hbytes|].
      eapply list_elem_of_lookup_2; eauto.
    - eapply Forall_forall in Hbytes; [exact Hbytes|].
      eapply list_elem_of_lookup_2; eauto. }
  exists out. split; [exact Hout|]. split; [exact Hout_bytes|].
  destruct (posterize_lookup out Hout_bytes) as (out' & Hout' & Hl' & Hlook').
  rewrite Hout'. f_equal. apply list_eq. intros j.
  rewrite Hlook', Hlook.
  case_decide as Hj; [|reflexivity].
  destruct (data !! j) as [c|] eqn:Hc; [|reflexivity].
  cbn. f_equal. apply posterLevel_facts.
  eapply Forall_forall in Hbytes; [exact Hbytes|].
  eapply list_elem_of_lookup_2; eauto.
Qed.

(** X2. Posterizing moves a colour channel by at most 42 to one of the
    four levels 0, 85, 170 and 255, and keeps the order of channel
    values: a channel that was not brighter than another is not brighter
    afterwards. *)
Theorem posterize_levels_bounded_monotone (data : list Z) :
  Forall isByte data ->
  exists out,
    posterize data = Some out /\
    forall (j : nat) (c : Z),
      (j mod 4 <> 3)%nat ->
      data !! j = Some c ->
      exists v,
        out !! j = Some v /\
        (v = 0 \/ v = 85 \/ v = 170 \/ v = 255) /\
        -42 <= v - c <= 42 /\
        forall (j' : nat) (c' v' : Z),
          (j' mod 4 <> 3)%nat ->
          data !! j' = Some c' -> out !! j' = Some v' ->
          c <= c' -> v <= v'.
Proof.
  intros Hbytes.
  destruct (posterize_lookup data Hbytes) as (out & Hout & _ & Hlook).
  exists out. split; [exact Hout|].
  intros j c Hj Hc.
  assert (Hbyte : isByte c).
  { eapply Forall_forall in Hbytes; [exact Hbytes|].
    eapply list_elem_of_lookup_2; eauto. }
  destruct (posterLevel_facts c Hbyte) as (_ & Hlev & Hdist & _).
  exists (posterLevel c). split.
  { rewrite Hlook, Hc. case_decide; [reflexivity | tauto]. }
  split; [exact Hlev|]. split; [exact Hdist|].
  intros j' c' v' Hj' Hc' Hv' Hle.
  rewrite Hlook, Hc' in Hv'. case_decide; [|tauto].
  cbn in Hv'. injection Hv' as <-. now apply posterLevel_monotone.
Qed.

(** ** The filters *)

Lemma eqb_literal_false (f lit : string) : f <> lit -> String.eqb f lit = false.
Proof. apply String.eqb_neq. Qed.

(** X3. Every filter button but 'none' changes the drawing, through a
    CSS filter or through a pass by hand, never both; a filter name
    outside the list draws the plain image, like 'none'. *)
Theorem every_filter_has_one_effect (f : string) :
  (f ∈ filters -> f <> "none" ->
     (cssFilter f <> "none" /\ manualPass f = NoManualPass) \/
     (cssFilter f = "none" /\ manualPass f <> NoManualPass)) /\
  (f ∉ filters \/ f = "none" -> cssFilter f = "none" /\ manualPass f = NoManualPass).
Proof.
  split.
  - intros Hin Hne. unfold filters in Hin.
    repeat (apply elem_of_cons in Hin as [-> | Hin];
            [first [congruence | left; split; [discriminate | reflexivity]
                   | right; split; [reflexivity | discriminate]] |]).
    inversion Hin.
  - intros [Hout | ->]; [|split; reflexivity].
    assert (Hne : forall lit, lit ∈ filters -> String.eqb f lit = false).
    { intros lit Hlit. apply String.eqb_neq. intros ->. contradiction. }
    unfold cssFilter, manualPass.
    rewrite !Hne by (unfold filters; repeat (first [apply list_elem_of_here | apply list_elem_of_further])).
    split; reflexivity.
Qed.

(** X4. The seven filters of the third variant draw with the same CSS
    filter in its preview, in the file it sends and in [src/index.tsx],
    and all of them are in the final list of filters; the two switches
    differ on 'blur' and 'sharpen' only. *)
Theorem variant_filters_agree (f : string) :
  FilterStrings.preview f = FilterStrings.sent f /\
  (f ∈ FilterStrings.filters ->
     cssFilter f = FilterStrings.preview f /\ manualPass f = NoManualPass /\ f ∈ filters) /\
  (f <> "blur" -> f <> "sharpen" -> cssFilter f = FilterStrings.preview f).
Proof.
  split; [reflexivity|]. split.
  - intros Hin. unfold FilterStrings.filters in Hin.
    repeat (apply elem_of_cons in Hin as [-> | Hin];
            [split; [reflexivity|]; split; [reflexivity|];
             unfold filters; repeat (first [apply list_elem_of_here | apply list_elem_of_further]) |]).
    inversion Hin.
  - intros Hb Hs. apply String.eqb_neq in Hb, Hs.
    unfold cssFilter, FilterStrings.preview. rewrite Hb, Hs.
    repeat (destruct (String.eqb f _); [reflexivity|]). reflexivity.
Qed.

(** ** [fileToGenerativePart] *)

Lemma split_without (sep : ascii) (s : string) :
  without sep s = true -> split sep s = [s].
Proof.
  induction s as [|c s IH]; intros Hs; [reflexivity|].
  simpl in Hs. apply andb_prop in Hs as [Hc Hs].
  simpl. apply negb_true_iff in Hc. rewrite Hc, (IH Hs). reflexivity.
Qed.

Lemma split_nonempty (sep : ascii) (s : string) : split sep s <> [].
Proof.
  induction s as [|c s IH]; simpl; [discriminate|].
  destruct (Ascii.eqb c sep); [discriminate|].
  destruct (split sep s); [contradiction | discriminate].
Qed.

Lemma append_cons (c : ascii) (a b : string) :
  (String c a ++ b)%string = String c (a ++ b)%string.
Proof. reflexivity. Qed.

Lemma split_first (sep : ascii) (a b : string) :
  without sep a = true ->
  split sep (a ++ String sep b)%string = a :: split sep b.
Proof.
  induction a as [|c a IH]; intros Ha.
  - change (split sep (String sep b) = "" :: split sep b).
    simpl. now rewrite Ascii.eqb_refl.
  - simpl in Ha. apply andb_prop in Ha as [Hc Ha].
    apply negb_true_iff in Hc. rewrite append_cons. simpl.
    rewrite Hc, (IH Ha). reflexivity.
Qed.

Lemma string_append_assoc (a b c : string) :
  ((a ++ b) ++ c = a ++ b ++ c)%string.
Proof.
  induction a as [|x a IH]; [reflexivity|].
  rewrite !append_cons. f_equal. exact IH.
Qed.

Lemma without_append (sep : ascii) (a b : string) :
  without sep (a ++ b)%string = without sep a && without sep b.
Proof.
  induction a as [|c a IH]; [reflexivity|].
  rewrite append_cons. simpl. rewrite IH. now rewrite andb_assoc.
Qed.

(** X5. The part sent to the API carries the payload of the data URL
    the reader produced.  For a data URL
    [data:<mime>;base64,<payload>] without a comma in the mime type and
    in the payload, [fileToGenerativePart] extracts the payload; when the
    mime type is the type of the file, the data URL built from the part
    (as the response handler builds it) is the one that was read.  A
    reader result without any comma gives a part without data. *)
Theorem fileToGenerativePart_round_trip (file : File) (mime payload : string) :
  without "," mime = true ->
  without "," payload = true ->
  let readerResult := ("data:" ++ mime ++ ";base64," ++ payload)%string in
  inlineData (fileToGenerativePart file readerResult)
    = Some {| data := Some payload; mimeType := Some (type file) |} /\
  (mime = type file ->
     inlineDataUrl <$> inlineData (fileToGenerativePart file readerResult)
       = Some readerResult) /\
  (forall s, without "," s = true ->
     inlineData (fileToGenerativePart file s)
       = Some {| data := None; mimeType := Some (type file) |}).
Proof.
  intros Hmime Hpayload readerResult.
  assert (Hsplit : split "," readerResult = ("data:" ++ mime ++ ";base64")%string :: [payload]).
  { subst readerResult.
    replace ("data:" ++ mime ++ ";base64," ++ payload)%string
      with (("data:" ++ mime ++ ";base64") ++ String "," payload)%string.
    - rewrite split_first.
      + now rewrite (split_without _ _ Hpayload).
      + rewrite !without_append, Hmime. reflexivity.
    - rewrite !string_append_assoc. reflexivity. }
  unfold fileToGenerativePart. cbn [inlineData]. rewrite Hsplit.
  split; [reflexivity|]. split.
  - intros ->. reflexivity.
  - intros s Hs. now rewrite (split_without _ _ Hs).
Qed.

(** ** The guard of [handleGenerateClick] *)

Lemma string_length_ind (P : string -> Prop) :
  (forall s, (forall t, (String.length t < String.length s)%nat -> P t) -> P s) ->
  forall s, P s.
Proof.
  intros Hstep s. apply Hstep.
  induction s as [|c s IH]; intros t Ht; cbn [String.length] in Ht; [lia|].
  apply Hstep. intros u Hu. apply IH. lia.
Qed.

Lemma trimStart_blank (s : string) :
  truthy (trimStart s) = negb (blank s).
Proof.
  induction s as [s IH] using string_length_ind.
  destruct s as [|c1 r1]; [reflexivity|]. cbn [trimStart blank].
  destruct (isWhiteSpace c1); [apply IH; cbn [String.length]; lia|].
  destruct r1 as [|c2 r2]; cbv iota; [reflexivity|].
  destruct (isWhiteSpace2 c1 c2); [apply IH; cbn [String.length]; lia|].
  destruct r2 as [|c3 r3]; cbv iota; [reflexivity|].
  destruct (isWhiteSpace3 c1 c2 c3); [apply IH; cbn [String.length]; lia|].
  reflexivity.
Qed.

Lemma blank_trimStart (s : string) :
  blank (trimStart s) = blank s.
Proof.
  induction s as [s IH] using string_length_ind.
  destruct s as [|c1 r1]; [reflexivity|]. cbn [trimStart].
  destruct (isWhiteSpace c1) eqn:H1.
  { cbn [blank]. rewrite H1. apply IH; cbn [String.length]; lia. }
  destruct r1 as [|c2 r2]; cbv iota; [reflexivity|].
  destruct (isWhiteSpace2 c1 c2) eqn:H2.
  { cbn [blank]. rewrite H1, H2. apply IH; cbn [String.length]; lia. }
  destruct r2 as [|c3 r3]; cbv iota; [reflexivity|].
  destruct (isWhiteSpace3 c1 c2 c3) eqn:H3; [|reflexivity].
  cbn [blank]. rewrite H1, H2, H3. apply IH; cbn [String.length]; lia.
Qed.

Lemma truthy_trimEnd (s : string) : truthy (trimEnd s) = negb (blank s).
Proof.
  destruct s as [|c s]; [reflexivity|].
  cbn [trimEnd]. destruct (blank (String c s)); reflexivity.
Qed.

(** [prompt.trim()] is the empty string exactly for a prompt of white
    space. *)
Lemma truthy_trim (s : string) : truthy (trim s) = negb (blank s).
Proof. unfold trim. now rewrite truthy_trimEnd, blank_trimStart. Qed.

(** [trim] removes the no-break space U+00A0 and the line separator
    U+2028 as well as the space, on both sides. *)
Lemma trim_examples :
  let nbsp := String (ascii_of_nat 194) (String (ascii_of_nat 160) "") in
  let ls := String (ascii_of_nat 226) (String (ascii_of_nat 128)
              (String (ascii_of_nat 168) "")) in
  trim (nbsp ++ " a cat " ++ ls)%string = "a cat" /\
  trim (nbsp ++ ls ++ " ")%string = "" /\
  blank (nbsp ++ ls)%string = true.
Proof. vm_compute. repeat split. Qed.

Section GenerateGuard.
Context `{Platform}.

(** X6. The generate handler sends a request exactly when an image is
    uploaded, a snapshot is on display and the prompt has a code point
    that is not white space of [String.prototype.trim] (U+0009 to
    U+000D, U+0020, U+00A0, U+1680, U+2000 to U+200A, U+2028, U+2029,
    U+202F, U+205F, U+3000, U+FEFF).  Otherwise it sets the error
    'Please upload an image and enter a prompt.' and changes nothing
    else: no request, no loading flag, the edited image stays. *)
Theorem generate_click_guard (w : World) :
  let ready :=
    isSome (baseImage (app w)) && isSome (currentImageState (app w))
    && negb (blank (prompt (app w))) in
  let clicked := dispatch GenerateClick w in
  (ready = true ->
     requests clicked = requests w ++ [app w] /\
     isLoading (app clicked) = true /\
     error (app clicked) = None /\
     editedImageUrl (app clicked) = None) /\
  (ready = false ->
     requests clicked = requests w /\
     error (app clicked) = Some "Please upload an image and enter a prompt." /\
     isLoading (app clicked) = isLoading (app w) /\
     editedImageUrl (app clicked) = editedImageUrl (app w) /\
     historyOf clicked = historyOf w /\
     zoom (app clicked) = zoom (app w) /\
     prompt (app clicked) = prompt (app w) /\
     baseImage (app clicked) = baseImage (app w)).
Proof.
  intros ready clicked. subst ready clicked.
  unfold dispatch, handler, handleGenerateClick. rewrite truthy_trim.
  destruct (baseImage (app w)) eqn:Hbase; destruct (currentImageState (app w));
    destruct (blank (prompt (app w))); cbn [isSome andb negb];
    split; intros Hr; try discriminate Hr; repeat split; exact Hbase.
Qed.

End GenerateGuard.

(** ** More on the history *)

Section HistoryMore.
Context `{Platform}.

(** X7. An upload starts a new history.  Choosing a file clears the
    edited image and the error and resets the zoom at once; when the
    image has loaded, the history is the single plain snapshot of the
    file, the index is 0, the active filter is 'none', and there is
    nothing to undo or redo.  Closing the file dialog without a file
    changes nothing. *)
Theorem upload_starts_new_history (w : World) (file : File) :
  let chosen := dispatch (ImageChange (Some file) true) w in
  let loaded := dispatch (ImageLoaded (length (imageLoads w))) chosen in
  let entry := {| imageUrl := drawnDataUrl file; filter := "none" |} in
  (baseImage (app chosen) = Some file /\
   editedImageUrl (app chosen) = None /\
   error (app chosen) = None /\
   zoom (app chosen) = unitZoom /\
   prompt (app chosen) = prompt (app w) /\
   historyOf chosen = historyOf w) /\
  (history (app loaded) = [entry] /\
   historyIndex (app loaded) = 0 /\
   activeFilter (app loaded) = "none" /\
   currentImageState (app loaded) = Some entry /\
   canUndo (app loaded) = false /\
   canRedo (app loaded) = false /\
   baseImage (app loaded) = Some file) /\
  (forall ctx, dispatch (ImageChange None ctx) w = w).
Proof.
  intros chosen loaded entry.
  assert (Hk : imageLoads chosen !! length (imageLoads w)
               = Some (UploadLoad (nextUrl (urls w)) file)).
  { assert (Hl : imageLoads chosen
                 = imageLoads w ++ [UploadLoad (nextUrl (urls w)) file]) by reflexivity.
    rewrite Hl, lookup_app_r by lia. now rewrite Nat.sub_diag. }
  split; [repeat split|]. split.
  - assert (Hloaded : loaded
              = exec (imageOnload (UploadLoad (nextUrl (urls w)) file))
                  (withImageLoads (delete (length (imageLoads w))) chosen)).
    { subst loaded. unfold dispatch at 1. unfold handler. rewrite Hk.
      unfold exec. reflexivity. }
    rewrite Hloaded. repeat split.
  - intros ctx. unfold dispatch, handler, handleImageChange. destruct w; reflexivity.
Qed.

(** X8. Undo and redo are inverse to each other on the index.  With a
    valid index [i], undo followed by redo (when [0 < i]) and redo
    followed by undo (when [i < length - 1]) bring the index back to [i]
    with the same history, show the same snapshot, and make the filter
    of that snapshot the active one. *)
Theorem undo_redo_round_trip (w : World) (entry : HistoryState) :
  currentImageState (app w) = Some entry ->
  let i := historyIndex (app w) in
  let len := Z.of_nat (length (history (app w))) in
  let undoRedo := dispatch RedoClick (dispatch UndoClick w) in
  let redoUndo := dispatch UndoClick (dispatch RedoClick w) in
  (0 < i ->
     historyOf undoRedo = historyOf w /\
     currentImageState (app undoRedo) = Some entry /\
     activeFilter (app undoRedo) = filter entry) /\
  (i < len - 1 ->
     historyOf redoUndo = historyOf w /\
     currentImageState (app redoUndo) = Some entry /\
     activeFilter (app redoUndo) = filter entry).
Proof.
  intros Hcur i len undoRedo redoUndo.
  assert (Hrange : 0 <= i < len).
  { subst i len. unfold currentImageState, js_index in Hcur.
    destruct (historyIndex (app w) <? 0) eqn:Hneg; [discriminate|].
    apply Z.ltb_ge in Hneg. apply lookup_lt_Some in Hcur. lia. }
  unfold currentImageState in Hcur.
  split.
  - intros Hi. subst undoRedo.
    assert (Hprev : is_Some (js_index (history (app w)) (i - 1))).
    { unfold js_index. destruct (i - 1 <? 0) eqn:Hneg; [apply Z.ltb_lt in Hneg; lia|].
      apply lookup_lt_is_Some. lia. }
    destruct Hprev as [prev Hprev].
    assert (Hundo : dispatch UndoClick w
                    = exec (setHistoryIndex (i - 1);; setActiveFilter (filter prev);;
                            setZoom unitZoom) w).
    { unfold dispatch, handler, handleUndo, canUndo. fold i.
      replace (0 <? i) with true by (symmetry; apply Z.ltb_lt; lia).
      now rewrite Hprev. }
    rewrite Hundo. unfold dispatch, handler, handleRedo, canRedo. eff_unfold. fold i len.
    replace (i - 1 <? len - 1) with true by (symmetry; apply Z.ltb_lt; lia).
    replace (i - 1 + 1) with i by lia. fold i in Hcur. rewrite Hcur.
    unfold historyOf, currentImageState. eff_unfold.
    replace (i - 1 + 1) with i by lia. fold i. rewrite Hcur. repeat split.
  - intros Hi. subst redoUndo.
    assert (Hnext : is_Some (js_index (history (app w)) (i + 1))).
    { unfold js_index. destruct (i + 1 <? 0) eqn:Hneg; [apply Z.ltb_lt in Hneg; lia|].
      apply lookup_lt_is_Some. lia. }
    destruct Hnext as [next Hnext].
    assert (Hredo : dispatch RedoClick w
                    = exec (setHistoryIndex (i + 1);; setActiveFilter (filter next);;
                            setZoom unitZoom) w).
    { unfold dispatch, handler, handleRedo, canRedo. fold i len.
      replace (i <? len - 1) with true by (symmetry; apply Z.ltb_lt; lia).
      now rewrite Hnext. }
    rewrite Hredo. unfold dispatch, handler, handleUndo, canUndo. eff_unfold.
    replace (0 <? i + 1) with true by (symmetry; apply Z.ltb_lt; lia).
    replace (i + 1 - 1) with i by lia. fold i in Hcur. rewrite Hcur.
    unfold historyOf, currentImageState. eff_unfold.
    replace (i + 1 - 1) with i by lia. fold i. rewrite Hcur. repeat split.
Qed.

End HistoryMore.

Section HistoryReachable.
Context `{Platform}.

Lemma reachable_historyValid (w : World) : reachable w -> historyValid (app w).
Proof.
  revert w. apply reachable_ind_inv;
    [exact historyValid_reset | exact dispatch_historyValid].
Qed.

(** X9. Undo and redo never throw in a reachable state, and after an
    undo or a redo that moved the index the active filter is the filter
    of the snapshot on display. *)
Theorem undo_redo_safe_and_consistent (w : World) :
  reachable w ->
  let i := historyIndex (app w) in
  let len := Z.of_nat (length (history (app w))) in
  fst (handler UndoClick w w) = Normal tt /\
  fst (handler RedoClick w w) = Normal tt /\
  (0 < i ->
     filter <$> currentImageState (app (dispatch UndoClick w))
     = Some (activeFilter (app (dispatch UndoClick w)))) /\
  (i < len - 1 ->
     filter <$> currentImageState (app (dispatch RedoClick w))
     = Some (activeFilter (app (dispatch RedoClick w)))).
Proof.
  intros Hreach i len.
  pose proof (reachable_historyValid w Hreach) as [Hnil Hrange].
  fold i in Hnil, Hrange. fold len in Hrange.
  assert (Hundo : 0 < i -> is_Some (js_index (history (app w)) (i - 1))).
  { intros Hi. assert (Hne : history (app w) <> []) by (intros Hn; apply Hnil in Hn; lia).
    specialize (Hrange Hne). unfold js_index.
    destruct (i - 1 <? 0) eqn:Hneg; [apply Z.ltb_lt in Hneg; lia|].
    apply lookup_lt_is_Some. lia. }
  assert (Hredo : i < len - 1 -> is_Some (js_index (history (app w)) (i + 1))).
  { intros Hi.
    assert (Hne : history (app w) <> []).
    { intros Hn. subst len. rewrite Hn in Hi. cbn in Hi. apply Hnil in Hn. lia. }
    specialize (Hrange Hne). unfold js_index.
    destruct (i + 1 <? 0) eqn:Hneg; [apply Z.ltb_lt in Hneg; lia|].
    apply lookup_lt_is_Some. lia. }
  unfold dispatch, handler, handleUndo, handleRedo, canUndo, canRedo.
  fold i len. repeat split.
  - destruct (0 <? i) eqn:Hi; [|reflexivity].
    apply Z.ltb_lt in Hi. destruct (Hundo Hi) as [e He]. now rewrite He.
  - destruct (i <? len - 1) eqn:Hi; [|reflexivity].
    apply Z.ltb_lt in Hi. destruct (Hredo Hi) as [e He]. now rewrite He.
  - intros Hi. destruct (Hundo Hi) as [e He].
    apply Z.ltb_lt in Hi. rewrite Hi, He.
    unfold currentImageState. eff_unfold. now rewrite He.
  - intros Hi. destruct (Hredo Hi) as [e He].
    apply Z.ltb_lt in Hi. rewrite Hi, He.
    unfold currentImageState. eff_unfold. now rewrite He.
Qed.

Lemma undo_historyOf (w : World) :
  historyValid (app w) -> history (app w) <> [] ->
  historyOf (dispatch UndoClick w)
  = (history (app w), Z.max 0 (historyIndex (app w) - 1)).
Proof.
  intros [_ Hrange] Hne. specialize (Hrange Hne).
  unfold dispatch, handler, handleUndo, canUndo.
  destruct (0 <? historyIndex (app w)) eqn:Hi.
  - apply Z.ltb_lt in Hi. unfold historyOf.
    destruct (js_index _ _); eff_unfold; f_equal; lia.
  - apply Z.ltb_ge in Hi. unfold historyOf. eff_unfold. f_equal. lia.
Qed.

Lemma redo_historyOf (w : World) :
  historyValid (app w) -> history (app w) <> [] ->
  historyOf (dispatch RedoClick w)
  = (history (app w),
     Z.min (Z.of_nat (length (history (app w))) - 1) (historyIndex (app w) + 1)).
Proof.
  intros [_ Hrange] Hne. specialize (Hrange Hne).
  unfold dispatch, handler, handleRedo, canRedo.
  destruct (historyIndex (app w) <? _) eqn:Hi.
  - apply Z.ltb_lt in Hi. unfold historyOf.
    destruct (js_index _ _); eff_unfold; f_equal; lia.
  - apply Z.ltb_ge in Hi. unfold historyOf. eff_unfold. f_equal. lia.
Qed.

Lemma run_cons (e : Event) (es : list Event) (w : World) :
  run (e :: es) w = run es (dispatch e w).
Proof. reflexivity. Qed.

(** X10. Undo stops at the first snapshot and redo at the last.  In a
    reachable state with a history of [len > 0] entries and index [i],
    [n] clicks on undo lead to index [max 0 (i - n)] and [n] clicks on
    redo to index [min (len - 1) (i + n)]; the history is the same
    list throughout, so the first snapshot is never lost by undoing. *)
Theorem repeated_undo_redo (w : World) (n : nat) :
  reachable w ->
  history (app w) <> [] ->
  let i := historyIndex (app w) in
  let len := Z.of_nat (length (history (app w))) in
  historyOf (run (clicks UndoClick n) w)
    = (history (app w), Z.max 0 (i - Z.of_nat n)) /\
  historyOf (run (clicks RedoClick n) w)
    = (history (app w), Z.min (len - 1) (i + Z.of_nat n)).
Proof.
  intros Hreach Hne i len.
  pose proof (reachable_historyValid w Hreach) as Hv.
  assert (Hi : 0 <= i <= len - 1) by (apply Hv; exact Hne).
  clear Hreach. subst i len. unfold clicks. split.
  - revert w Hne Hv Hi. induction n as [|n IH]; intros w Hne Hv Hi.
    + cbn. unfold historyOf. f_equal. lia.
    + cbn [repeat]. rewrite run_cons.
      pose proof (undo_historyOf w Hv Hne) as Hu. unfold historyOf in Hu.
      injection Hu as Hh Hidx.
      rewrite IH; rewrite ?Hh, ?Hidx; try assumption.
      * f_equal. lia.
      * now apply dispatch_historyValid.
      * lia.
  - revert w Hne Hv Hi. induction n as [|n IH]; intros w Hne Hv Hi.
    + cbn. unfold historyOf. f_equal. lia.
    + cbn [repeat]. rewrite run_cons.
      pose proof (redo_historyOf w Hv Hne) as Hr. unfold historyOf in Hr.
      injection Hr as Hh Hidx.
      rewrite IH; rewrite ?Hh, ?Hidx; try assumption.
      * f_equal. lia.
      * now apply dispatch_historyValid.
      * lia.
Qed.

Lemma Forall_js_slice {A} (P : A -> Prop) (l : list A) (start end_ : Z) :
  Forall P l -> Forall P (js_slice l start end_).
Proof. intros Hl. unfold js_slice. now apply Forall_take, Forall_drop. Qed.

(** What an event does to the history and to the closures of the
    images that are loading. *)
Lemma dispatch_history_sources (e : Event) (w : World) :
  (history (app (dispatch e w)) = history (app w) \/
   history (app (dispatch e w)) = [] \/
   (exists file,
      history (app (dispatch e w))
      = [ {| imageUrl := drawnDataUrl file; filter := "none" |} ]) \/
   (exists k src r flt base,
      imageLoads w !! k = Some (FilterLoad src r flt) /\
      history (app (dispatch e w))
      = js_slice (history r) 0 (historyIndex r + 1)
          ++ [ {| imageUrl := filteredDataUrl base flt; filter := flt |} ])) /\
  (imageLoads (dispatch e w) = imageLoads w \/
   (exists src file, imageLoads (dispatch e w) = imageLoads w ++ [UploadLoad src file]) \/
   (exists src flt, imageLoads (dispatch e w) = imageLoads w ++ [FilterLoad src (app w) flt]) \/
   (exists k, imageLoads (dispatch e w) = delete k (imageLoads w))).
Proof.
  destruct e; unfold dispatch, handler.
  - unfold handleImageChange. destruct file as [file|]; [|split; now left].
    destruct ctx; (split; [now left|]); [right; left; eauto | now left].
  - unfold handleFilterClick. destruct (baseImage (app w)); [|split; now left].
    destruct (String.eqb _ _); [split; now left|].
    destruct ctx; (split; [now left|]); [right; right; left; eauto | now left].
  - unfold handleUndo. destruct (canUndo _); [|split; now left].
    destruct (js_index _ _); split; now left.
  - unfold handleRedo. destruct (canRedo _); [|split; now left].
    destruct (js_index _ _); split; now left.
  - split; now left.
  - unfold handleGenerateClick.
    destruct (baseImage (app w)); [|split; now left].
    destruct (currentImageState (app w)); [|split; now left].
    destruct (truthy _); split; now left.
  - destruct (requests w !! k); [|split; now left].
    pose proof (generateSettled_historyOf o (withRequests (delete k) w)) as Hh.
    pose proof (generateSettled_loadsOf o (withRequests (delete k) w)) as Hl.
    injection Hh as Hh _. injection Hl as _ Hl. split; left; assumption.
  - split; [right; now left | now left].
  - split; now left.
  - split; now left.
  - split; now left.
  - split; now left.
  - unfold handleMouseDown. destruct (_ || _); split; now left.
  - pose proof (forEachListener_historyOf (handleMouseMove clientX clientY)
                  ltac:(reflexivity) (dragListeners w) w) as Hh.
    pose proof (forEachListener_loadsOf (handleMouseMove clientX clientY)
                  ltac:(reflexivity) (dragListeners w) w) as Hl.
    injection Hh as Hh _. injection Hl as _ Hl. split; left; assumption.
  - pose proof (forEachListener_historyOf handleMouseUp
                  ltac:(reflexivity) (dragListeners w) w) as Hh.
    pose proof (forEachListener_loadsOf handleMouseUp
                  ltac:(reflexivity) (dragListeners w) w) as Hl.
    injection Hh as Hh _. injection Hl as _ Hl. split; left; assumption.
  - destruct (imageLoads w !! k) as [[src file|src r flt]|] eqn:Hk; [| |split; now left].
    + split; [right; right; left; eauto | right; right; right; eauto].
    + unfold imageOnload. destruct (baseImage r) as [base|].
      * split; [|right; right; right; eauto].
        right; right; right. exists k, src, r, flt, base. split; [exact Hk | reflexivity].
      * split; [now left | right; right; right; eauto].
Qed.

(** X11. In every reachable state each history entry carries the name
    of the filter its snapshot was rendered with: it is the plain
    snapshot of a file under the name 'none', or the snapshot of a file
    under a filter with that filter as its name. *)
Theorem history_entries_rendered (w : World) :
  reachable w -> Forall renderedEntry (history (app w)).
Proof.
  intros Hreach.
  enough (Hboth : Forall renderedEntry (history (app w)) /\
                  Forall renderedClosure (imageLoads w)) by apply Hboth.
  revert w Hreach. apply reachable_ind_inv.
  - split; constructor.
  - intros e w [Hh Hl].
    destruct (dispatch_history_sources e w) as [Hhist Hloads]. split.
    + destruct Hhist as [-> | [-> | [(file & ->) | (k & src & r & flt & base & Hk & ->)]]].
      * exact Hh.
      * constructor.
      * constructor; [|constructor]. exists file. now left.
      * apply Forall_app. split.
        -- apply Forall_js_slice.
           eapply Forall_lookup_1 in Hl; [|exact Hk]. exact Hl.
        -- constructor; [|constructor]. exists base. now right.
    + destruct Hloads as [-> | [(src & file & ->) | [(src & flt & ->) | (k & ->)]]].
      * exact Hl.
      * apply Forall_app. split; [exact Hl|]. constructor; [exact I | constructor].
      * apply Forall_app. split; [exact Hl|]. constructor; [exact Hh | constructor].
      * now apply Forall_delete.
Qed.

(** X12. Reset clears the uploaded image, the edited image, the prompt,
    the error, the active filter, the history and the view transform, so
    that undo, redo, filter clicks and download do nothing afterwards.
    It sets neither the loading flag nor the panning flag: both stay as
    they were, so after a reset during a generate call the page is still
    loading.  It does not cancel the image loads and
    generate calls that are under way, and an upload that finishes
    loading after the reset puts its snapshot into the history although
    no image is uploaded any more. *)
Theorem reset_clears_state_not_callbacks (w : World) :
  let cleared := dispatch ResetClick w in
  (baseImage (app cleared) = None /\ editedImageUrl (app cleared) = None /\
   prompt (app cleared) = "" /\ error (app cleared) = None /\
   activeFilter (app cleared) = "none" /\ historyOf cleared = ([], -1) /\
   zoom (app cleared) = unitZoom /\
   isLoading (app cleared) = isLoading (app w) /\
   isPanning (app cleared) = isPanning (app w)) /\
  (imageLoads cleared = imageLoads w /\ requests cleared = requests w /\
   urls cleared = urls w /\ dragListeners cleared = dragListeners w) /\
  (dispatch UndoClick cleared = cleared /\
   dispatch RedoClick cleared = cleared /\
   (forall flt ctx, dispatch (FilterClick flt ctx) cleared = cleared) /\
   handleDownload (app cleared) = None) /\
  (forall k src file,
     imageLoads w !! k = Some (UploadLoad src file) ->
     let loaded := dispatch (ImageLoaded k) cleared in
     baseImage (app loaded) = None /\
     history (app loaded) = [ {| imageUrl := drawnDataUrl file; filter := "none" |} ] /\
     historyIndex (app loaded) = 0).
Proof.
  intros cleared. subst cleared.
  split; [repeat split|]. split; [repeat split|]. split.
  - split; [reflexivity|]. split; [reflexivity|]. split; [|reflexivity].
    intros flt ctx. apply filter_click_noop. now left.
  - intros k src file Hk loaded.
    assert (Hloaded : loaded
              = exec (imageOnload (UploadLoad src file))
                  (withImageLoads (delete k) (dispatch ResetClick w))).
    { subst loaded. unfold dispatch at 1. unfold handler.
      replace (imageLoads (dispatch ResetClick w)) with (imageLoads w) by reflexivity.
      rewrite Hk. unfold exec. reflexivity. }
    rewrite Hloaded. repeat split.
Qed.

End HistoryReachable.

(** ** Generate calls in flight, the edited image and the download *)

Section Flight.
Context `{Platform}.

Lemma offered_ind_inv (P : World -> Prop) :
  P initialWorld ->
  (forall e w, P w -> enabled e w = true -> P (dispatch e w)) ->
  forall w, offered w -> P w.
Proof.
  intros Hinit Hstep w (es & Hfeasible & ->).
  revert Hfeasible. generalize initialWorld Hinit.
  induction es as [|e es IH]; intros w0 Hw0 Hf; [exact Hw0|].
  cbn in Hf. apply andb_prop in Hf as [He Hf].
  cbn. apply IH; [apply Hstep; assumption | exact Hf].
Qed.

Lemma offered_reachable (w : World) : offered w -> reachable w.
Proof. intros (es & _ & ->). now exists es. Qed.

Lemma scanParts_frame (parts : list Part) (n : nat) (w : World) :
  let w' := exec (scanParts parts n) w in
  isLoading (app w') = isLoading (app w) /\
  requests w' = requests w /\
  (editedImageUrl (app w') = editedImageUrl (app w) \/
   exists d, editedImageUrl (app w') = Some (inlineDataUrl d)).
Proof.
  induction n as [|i IH]; [repeat split; now left|].
  cbn [scanParts]. destruct (parts !! i) as [part|]; [|repeat split; now left].
  destruct (inlineData part) as [d|]; [|exact IH].
  repeat split. right. now exists d.
Qed.

Lemma generateSettled_frame (o : Outcome) (w : World) :
  let w' := exec (generateSettled o) w in
  isLoading (app w') = false /\
  requests w' = requests w /\
  (editedImageUrl (app w') = editedImageUrl (app w) \/
   exists d, editedImageUrl (app w') = Some (inlineDataUrl d)).
Proof.
  unfold generateSettled. destruct o as [t|parts]; [repeat split; now left|].
  pose proof (scanParts_frame parts (length parts) w) as Hs.
  unfold exec in *. eff_unfold.
  destruct (scanParts parts (length parts) w) as [[[]|t] w'];
    cbn [snd fst negb] in *; eff_unfold;
    destruct Hs as (_ & Hr & He); repeat split; assumption.
Qed.

Lemma forEachListener_frame (m : Eff World unit) :
  (forall w, isLoading (app (exec m w)) = isLoading (app w) /\
             requests (exec m w) = requests w /\
             editedImageUrl (app (exec m w)) = editedImageUrl (app w)) ->
  forall n w,
    isLoading (app (exec (forEachListener n m) w)) = isLoading (app w) /\
    requests (exec (forEachListener n m) w) = requests w /\
    editedImageUrl (app (exec (forEachListener n m) w)) = editedImageUrl (app w).
Proof.
  intros Hm n. induction n as [|n IH]; intros w; [repeat split|].
  unfold exec in *. cbn [forEachListener]. unfold exec.
  destruct (IH (snd (m w))) as (H1 & H2 & H3). destruct (Hm w) as (H4 & H5 & H6).
  rewrite H1, H2, H3. repeat split; assumption.
Qed.

(** What an event does to the loading flag, to the calls in flight and
    to the edited image. *)
Lemma dispatch_flight (e : Event) (w : World) :
  let w' := dispatch e w in
  ((isLoading (app w') = isLoading (app w) /\ requests w' = requests w) \/
   (e = GenerateClick /\ isLoading (app w') = true /\ requests w' = requests w ++ [app w]) \/
   (exists k o r, e = GenerateSettled k o /\ requests w !! k = Some r /\
      isLoading (app w') = false /\ requests w' = delete k (requests w))) /\
  (editedImageUrl (app w') = editedImageUrl (app w) \/
   editedImageUrl (app w') = None \/
   exists d, editedImageUrl (app w') = Some (inlineDataUrl d)).
Proof.
  destruct e; unfold dispatch, handler; cbv zeta.
  - unfold handleImageChange. destruct file; [|split; now left].
    destruct ctx; (split; [now left | right; now left]).
  - unfold handleFilterClick. destruct (baseImage (app w)); [|split; now left].
    destruct (String.eqb _ _); [split; now left|].
    destruct ctx; split; now left.
  - unfold handleUndo. destruct (canUndo _); [|split; now left].
    destruct (js_index _ _); split; now left.
  - unfold handleRedo. destruct (canRedo _); [|split; now left].
    destruct (js_index _ _); split; now left.
  - split; now left.
  - unfold handleGenerateClick.
    destruct (baseImage (app w)); [|split; now left].
    destruct (currentImageState (app w)); [|split; now left].
    destruct (truthy _); [|split; now left].
    split; [right; left; repeat split | right; now left].
  - destruct (requests w !! k) as [r|] eqn:Hk; [|split; now left].
    destruct (generateSettled_frame o (withRequests (delete k) w)) as (Hl & Hr & He).
    split; [|destruct He as [He | He]; [left | right; right]; exact He].
    right; right. exists k, o, r. repeat split; assumption.
  - split; [now left | right; now left].
  - split; now left.
  - split; now left.
  - split; now left.
  - split; now left.
  - unfold handleMouseDown. destruct (_ || _); split; now left.
  - destruct (forEachListener_frame (handleMouseMove clientX clientY)
                ltac:(intros; repeat split) (dragListeners w) w) as (H1 & H2 & H3).
    split; [left; split; assumption | left; assumption].
  - destruct (forEachListener_frame handleMouseUp
                ltac:(intros; repeat split) (dragListeners w) w) as (H1 & H2 & H3).
    split; [left; split; assumption | left; assumption].
  - destruct (imageLoads w !! k) as [[src file|src r flt]|]; try (split; now left).
    unfold imageOnload. destruct (baseImage r); split; now left.
Qed.

(** X13. Over the events the page offers, at most one generate call is
    in flight, and the loading flag is set exactly while one is: the
    Generate button is disabled while loading, and every outcome of the
    call clears the flag. *)
Theorem one_generate_call_in_flight (w : World) :
  offered w ->
  length (requests w) = (if isLoading (app w) then 1 else 0)%nat.
Proof.
  revert w. apply offered_ind_inv; [reflexivity|].
  intros e w Hinv Hen.
  destruct (dispatch_flight e w) as [[[Hl Hr] | [(-> & Hl & Hr) | (k & o & r & -> & Hk & Hl & Hr)]] _];
    rewrite Hl, Hr.
  - exact Hinv.
  - cbn in Hen. destruct (isLoading (app w)); [discriminate|].
    rewrite length_app, Hinv. reflexivity.
  - pose proof (lookup_lt_Some _ _ _ Hk) as Hlt.
    rewrite length_delete by (now exists r).
    destruct (isLoading (app w)); lia.
Qed.

Lemma reachable_editedImageUrl (w : World) :
  reachable w ->
  editedImageUrl (app w) = None \/
  exists d, editedImageUrl (app w) = Some (inlineDataUrl d).
Proof.
  revert w. apply reachable_ind_inv; [now left|].
  intros e w Hinv.
  destruct (dispatch_flight e w) as [_ [He | [He | He]]].
  - now rewrite He.
  - now left.
  - now right.
Qed.

(** X14. The edited image of a reachable state is absent or the data
    URL of a response part.  [handleDownload] does nothing without an
    edited image; with one it offers exactly that URL, under the name
    'edited-' followed by the name of the uploaded file when there is a
    file with a name that is not empty, and under the name
    'edited-image.png' when there is no file or its name is empty. *)
Theorem download_offers_edited_image (w : World) :
  reachable w ->
  match editedImageUrl (app w) with
  | None => handleDownload (app w) = None
  | Some url =>
      (exists d, url = inlineDataUrl d) /\
      (forall file,
         baseImage (app w) = Some file -> name file <> "" ->
         handleDownload (app w)
           = Some {| href := url; download := ("edited-" ++ name file)%string |}) /\
      (baseImage (app w) = None \/
       (exists file, baseImage (app w) = Some file /\ name file = "") ->
         handleDownload (app w)
           = Some {| href := url; download := "edited-image.png" |})
  end.
Proof.
  intros Hreach. unfold handleDownload.
  destruct (reachable_editedImageUrl w Hreach) as [-> | [d ->]]; [reflexivity|].
  split; [now exists d|].
  replace (truthy (inlineDataUrl d)) with true by reflexivity.
  destruct (baseImage (app w)) as [file|].
  - split.
    + intros file' Hfile Hname. injection Hfile as <-.
      destruct (name file); [now contradict Hname | reflexivity].
    + intros [Hnone | (file' & Hfile & Hname)]; [discriminate Hnone|].
      injection Hfile as <-. rewrite Hname. reflexivity.
  - split; [intros file Hfile; discriminate Hfile | reflexivity].
Qed.

End Flight.

(** ** More on the view transform and on dragging *)

Section ViewMore.
Context `{Platform}.

Lemma mouseUp_listeners (n : nat) (w : World) :
  dragListeners w = n ->
  dragListeners (exec (forEachListener n handleMouseUp) w) = 0%nat /\
  ((0 < n)%nat -> isPanning (app (exec (forEachListener n handleMouseUp) w)) = false) /\
  (n = 0%nat -> isPanning (app (exec (forEachListener n handleMouseUp) w)) = isPanning (app w)).
Proof.
  revert w. induction n as [|n IH]; intros w Hn.
  - repeat split; [exact Hn | lia].
  - unfold exec in *. cbn [forEachListener]. unfold exec.
    destruct (IH (snd (handleMouseUp w))) as (H0 & Hpos & Hzero).
    { change (Nat.pred (dragListeners w) = n). rewrite Hn. reflexivity. }
    split; [exact H0|]. split; [|lia].
    intros _. destruct n as [|n]; [|apply Hpos; lia].
    rewrite Hzero by reflexivity. reflexivity.
Qed.

Lemma mouseMove_drag (clientX clientY : Q) (n : nat) (w : World) :
  dragListeners (exec (forEachListener n (handleMouseMove clientX clientY)) w)
    = dragListeners w /\
  isPanning (app (exec (forEachListener n (handleMouseMove clientX clientY)) w))
    = isPanning (app w).
Proof.
  revert w. induction n as [|n IH]; intros w; [split; reflexivity|].
  unfold exec in *. cbn [forEachListener]. unfold exec.
  destruct (IH (snd (handleMouseMove clientX clientY w))) as [H1 H2].
  rewrite H1, H2. split; reflexivity.
Qed.

Lemma scanParts_drag (parts : list Part) (n : nat) (w : World) :
  dragListeners (exec (scanParts parts n) w) = dragListeners w /\
  isPanning (app (exec (scanParts parts n) w)) = isPanning (app w).
Proof.
  induction n as [|i IH]; [split; reflexivity|].
  cbn [scanParts]. destruct (parts !! i) as [part|]; [|split; reflexivity].
  destruct (inlineData part); [split; reflexivity | exact IH].
Qed.

Lemma generateSettled_drag (o : Outcome) (w : World) :
  dragListeners (exec (generateSettled o) w) = dragListeners w /\
  isPanning (app (exec (generateSettled o) w)) = isPanning (app w).
Proof.
  unfold generateSettled. destruct o as [t|parts]; [split; reflexivity|].
  pose proof (scanParts_drag parts (length parts) w) as Hs.
  unfold exec in *. eff_unfold.
  destruct (scanParts parts (length parts) w) as [[[]|t] w'];
    cbn [snd fst negb] in *; eff_unfold; exact Hs.
Qed.

(** What an event does to the drag listeners and to the panning flag. *)
Lemma dispatch_drag (e : Event) (w : World) :
  let w' := dispatch e w in
  (dragListeners w' = dragListeners w /\ isPanning (app w') = isPanning (app w)) \/
  ((exists onImage clientX clientY, e = MouseDown onImage clientX clientY) /\
   dragListeners w' = S (dragListeners w) /\ isPanning (app w') = true) \/
  (e = MouseUp /\ dragListeners w' = 0%nat /\
   ((0 < dragListeners w)%nat -> isPanning (app w') = false) /\
   (dragListeners w = 0%nat -> isPanning (app w') = isPanning (app w))).
Proof.
  destruct e; unfold dispatch, handler; cbv zeta.
  - left. unfold handleImageChange. destruct file; [|split; reflexivity].
    destruct ctx; split; reflexivity.
  - left. unfold handleFilterClick. destruct (baseImage (app w)); [|split; reflexivity].
    destruct (String.eqb _ _); [split; reflexivity|]. destruct ctx; split; reflexivity.
  - left. unfold handleUndo. destruct (canUndo _); [|split; reflexivity].
    destruct (js_index _ _); split; reflexivity.
  - left. unfold handleRedo. destruct (canRedo _); [|split; reflexivity].
    destruct (js_index _ _); split; reflexivity.
  - left. split; reflexivity.
  - left. unfold handleGenerateClick.
    destruct (baseImage (app w)); [|split; reflexivity].
    destruct (currentImageState (app w)); [|split; reflexivity].
    destruct (truthy _); split; reflexivity.
  - left. destruct (requests w !! k); [|split; reflexivity].
    apply (generateSettled_drag o (withRequests (delete k) w)).
  - left. split; reflexivity.
  - left. split; reflexivity.
  - left. split; reflexivity.
  - left. split; reflexivity.
  - left. split; reflexivity.
  - unfold handleMouseDown. destruct (_ || _); [left; split; reflexivity|].
    right; left. split; [eauto|]. split; reflexivity.
  - left. apply mouseMove_drag.
  - right; right. split; [reflexivity|]. now apply mouseUp_listeners.
  - left. destruct (imageLoads w !! k) as [[src file|src r flt]|]; try (split; reflexivity).
    unfold imageOnload. destruct (baseImage r); split; reflexivity.
Qed.

Lemma reachable_panning (w : World) :
  reachable w -> (isPanning (app w) = true <-> (0 < dragListeners w)%nat).
Proof.
  revert w. apply reachable_ind_inv.
  - cbn. split; [discriminate | lia].
  - intros e w Hinv.
    destruct (dispatch_drag e w) as [[Hl Hp] | [(_ & Hl & Hp) | (_ & Hl & Hpos & Hzero)]].
    + now rewrite Hl, Hp.
    + rewrite Hl, Hp. split; [lia | reflexivity].
    + rewrite Hl. split; [|lia]. intros Htrue.
      destruct (dragListeners w) as [|n] eqn:Hn.
      * rewrite Hzero in Htrue by reflexivity. apply Hinv in Htrue. lia.
      * rewrite Hpos in Htrue by lia. discriminate.
Qed.

(** X15. A drag lasts from the mouse-down to the mouse-up.  In every
    reachable state the panning flag is set exactly while a move
    listener is registered; a mouse-up removes every listener and clears
    the flag, and pointer moves after it change nothing. *)
Theorem drag_ends_at_mouse_up (w : World) :
  reachable w ->
  let up := dispatch MouseUp w in
  (isPanning (app w) = true <-> (0 < dragListeners w)%nat) /\
  dragListeners up = 0%nat /\
  isPanning (app up) = false /\
  zoom (app up) = zoom (app w) /\
  (forall clientX clientY, dispatch (MouseMove clientX clientY) up = up).
Proof.
  intros Hreach up.
  pose proof (reachable_panning w Hreach) as Hpan.
  destruct (mouseUp_listeners (dragListeners w) w eq_refl) as (H0 & Hpos & Hzero).
  split; [exact Hpan|]. split; [exact H0|]. split; [|split].
  - subst up. unfold dispatch, handler.
    destruct (dragListeners w) as [|n] eqn:Hn.
    + rewrite Hzero by reflexivity.
      destruct (isPanning (app w)); [|reflexivity].
      destruct Hpan as [Hpan _]. specialize (Hpan eq_refl). lia.
    + apply Hpos. lia.
  - apply mouseUp_zoom.
  - intros clientX clientY. unfold dispatch at 1. unfold handler.
    replace (dragListeners up) with 0%nat by (symmetry; exact H0).
    destruct up; reflexivity.
Qed.

(** X16. The cursor tells what the pointer does.  In a reachable state
    it is 'grabbing' exactly while a drag is under way; otherwise it is
    'grab' exactly when a mouse-down on the image would start a drag,
    and 'default' when it would not. *)
Theorem cursor_matches_drag (w : World) (clientX clientY : Q) :
  reachable w ->
  let down := dispatch (MouseDown true clientX clientY) w in
  (cursor (app w) = "grabbing" <-> (0 < dragListeners w)%nat) /\
  (dragListeners w = 0%nat ->
     (cursor (app w) = "grab" <-> dragListeners down = 1%nat) /\
     (cursor (app w) = "default" <-> down = w)).
Proof.
  intros Hreach down.
  pose proof (reachable_panning w Hreach) as Hpan.
  unfold cursor. split.
  - destruct (isPanning (app w)).
    + split; [intros _; now apply Hpan | reflexivity].
    + split; [|intros Hl; apply Hpan in Hl; discriminate].
      destruct (negb _); discriminate.
  - intros Hnone.
    assert (Hidle : isPanning (app w) = false).
    { destruct (isPanning (app w)); [|reflexivity].
      destruct Hpan as [Hpan _]. specialize (Hpan eq_refl). lia. }
    rewrite Hidle. subst down. unfold dispatch, handler, handleMouseDown.
    destruct (Qle_bool (scale (zoom (app w))) 1); cbn [negb orb].
    + split.
      * split; [discriminate|]. destruct w; cbn in *. intros Hd. rewrite Hnone in Hd. discriminate.
      * split; [intros _; destruct w; reflexivity | reflexivity].
    + split.
      * split; [intros _; eff_unfold; cbn; now rewrite Hnone | reflexivity].
      * split; [discriminate|]. intros Heq.
        apply (f_equal dragListeners) in Heq. revert Heq. eff_unfold. cbn. lia.
Qed.

(** X17. Without a mouse-down the view transform keeps its invariant:
    after any run of events that starts no drag the scale is in [1, 10]
    and the pan offset is (0, 0) whenever the scale is 1. *)
Theorem zoom_valid_without_drag (es : list Event) :
  Forall (fun e => forall onImage clientX clientY, e <> MouseDown onImage clientX clientY) es ->
  zoomValid (zoom (app (run es initialWorld))) /\
  dragListeners (run es initialWorld) = 0%nat.
Proof.
  induction es as [|e es IH] using rev_ind; intros Hes.
  - split; [apply zoomValid_unit | reflexivity].
  - apply Forall_app in Hes as [Hes He]. rewrite Forall_singleton in He.
    destruct (IH Hes) as [Hv Hl]. rewrite run_snoc.
    set (w := run es initialWorld) in *.
    assert (Hl' : dragListeners (dispatch e w) = 0%nat).
    { destruct (dispatch_drag e w) as [[Hd _] | [((b & cx & cy & ->) & _) | (_ & Hd & _)]].
      - now rewrite Hd.
      - exfalso. eapply He. reflexivity.
      - exact Hd. }
    split; [|exact Hl'].
    destruct (classic_move e) as [(cx & cy & ->) | Hmove].
    + unfold dispatch, handler. rewrite Hl. exact Hv.
    + now apply dispatch_zoomValid.
Qed.

(** X18. The percentage shown beside the zoom slider lies between 100
    and 1000 in every reachable state, and it is 100 when the scale
    is 1.  The product [scale * 100] is rounded to a double before
    [Math.round]; rounding is monotone and 100 and 1000 are doubles. *)
Theorem zoom_percentage_range (w : World) :
  reachable w ->
  100 <= zoomPercentage (scale (zoom (app w))) <= 1000 /\
  ((scale (zoom (app w)) == 1)%Q -> zoomPercentage (scale (zoom (app w))) = 100).
Proof.
  intros Hreach. destruct (reachable_scale_range w Hreach) as [Hlo Hhi].
  unfold zoomPercentage, Math_round, js_mul.
  set (s := scale (zoom (app w))) in *.
  assert (H100 : double 100 = 100%Q) by (vm_compute; reflexivity).
  assert (H1000 : double 1000 = 1000%Q) by (vm_compute; reflexivity).
  assert (Hl : (100 <= double (s * 100))%Q).
  { rewrite <- H100 at 1. apply double_le. lra. }
  assert (Hh : (double (s * 100) <= 1000)%Q).
  { rewrite <- H1000. apply double_le. lra. }
  repeat split.
  - apply Z.le_trans with (m := Qfloor (100 + (1 # 2))); [exact (Z.le_refl 100)|].
    apply Qfloor_resp_le. lra.
  - apply Z.le_trans with (m := Qfloor (1000 + (1 # 2))); [|exact (Z.le_refl 1000)].
    apply Qfloor_resp_le. lra.
  - intros Hone. rewrite (double_comp (s * 100) 100), H100; [reflexivity|].
    rewrite Hone. reflexivity.
Qed.

(** X19. The wheel zooms in its direction only.  In a reachable state
    whose scale is a double, a wheel event with [deltaY >= 0] never
    raises the scale and one with [deltaY <= 0] never lowers it, also
    after the roundings of [-deltaY * 0.002] and of the sum; the new
    scale is again in [1, 10], and the pan offset is kept unless the new
    scale is 1, where the view transform is reset. *)
Theorem wheel_zooms_in_its_direction (w : World) (deltaY : Q) :
  reachable w ->
  isDouble (scale (zoom (app w))) ->
  let z := zoom (app w) in
  let z' := zoom (app (dispatch (Wheel deltaY) w)) in
  ((0 <= deltaY)%Q -> (scale z' <= scale z)%Q) /\
  ((deltaY <= 0)%Q -> (scale z <= scale z')%Q) /\
  (1 <= scale z' <= 10)%Q /\
  ((scale z' == 1)%Q -> z' = unitZoom) /\
  (~ (scale z' == 1)%Q -> x z' = x z /\ y z' = y z).
Proof.
  intros Hreach Hdouble z z'. unfold isDouble in Hdouble. fold z in Hdouble.
  destruct (reachable_scale_range w Hreach) as [Hlo Hhi]. fold z in Hlo, Hhi.
  set (zoomAmount := js_mul (- deltaY) (double (2 # 1000))).
  set (requested := js_add (scale z) zoomAmount).
  assert (Hz' : z' = zoom (app (exec (setZoomLevel requested) w))) by reflexivity.
  destruct (setZoomLevel_spec requested w) as (Hrange & Hscale & Hone & Hkeep & _).
  cbv zeta in Hscale, Hone, Hkeep, Hrange. rewrite <- Hz' in Hscale, Hone, Hkeep.
  set (clamped := Math_max 1 (Math_min requested 10)) in *.
  assert (Hclamp : (requested <= scale z -> clamped <= scale z)%Q /\
                   (scale z <= requested -> scale z <= clamped)%Q).
  { subst clamped. unfold Math_max, Math_min.
    destruct (Qle_bool requested 10) eqn:H10.
    - destruct (Qle_bool 1 requested) eqn:H1.
      + split; intros Hle; exact Hle.
      + split; intros Hle; [exact Hlo|].
        apply Qle_bool_iff in H10.
        assert (Hn : ~ (1 <= requested)%Q) by (intros Hc; apply Qle_bool_iff in Hc; congruence).
        exfalso. apply Hn. eapply Qle_trans; [exact Hlo | exact Hle].
    - replace (Qle_bool 1 10) with true by reflexivity.
      split; intros Hle; [|exact Hhi].
      assert (Hn : ~ (requested <= 10)%Q) by (intros Hc; apply Qle_bool_iff in Hc; congruence).
      exfalso. apply Hn. eapply Qle_trans; [exact Hle | exact Hhi]. }
  destruct Hclamp as [Hdown Hup].
  assert (Hstep : (0 < double (2 # 1000))%Q) by (vm_compute; reflexivity).
  assert (Hzero : double 0 = 0%Q) by reflexivity.
  split; [|split; [|split; [|split]]].
  - intros Hd. rewrite Hscale. apply Hdown. subst requested.
    assert (Ha : (zoomAmount <= 0)%Q).
    { subst zoomAmount. unfold js_mul. rewrite <- Hzero. apply double_le.
      setoid_replace (- deltaY * double (2 # 1000))%Q
        with (- (deltaY * double (2 # 1000)))%Q using relation Qeq by ring.
      apply (Qopp_le_compat 0). apply Qmult_le_0_compat; [exact Hd | now apply Qlt_le_weak]. }
    unfold js_add. rewrite <- Hdouble at 2. apply double_le. lra.
  - intros Hd. rewrite Hscale. apply Hup. subst requested.
    assert (Ha : (0 <= zoomAmount)%Q).
    { subst zoomAmount. unfold js_mul. rewrite <- Hzero at 1. apply double_le.
      apply Qmult_le_0_compat; [lra | now apply Qlt_le_weak]. }
    unfold js_add. rewrite <- Hdouble at 1. apply double_le. lra.
  - rewrite Hscale. exact Hrange.
  - intros Hs. apply Hone. now rewrite <- Hscale.
  - intros Hs. apply Hkeep. intros Hc. apply Hs. now rewrite Hscale.
Qed.

End ViewMore.

Section Slider.
Context `{Platform}.

(** X20. The slider sets the scale to the value chosen: a value in
    [1, 10] becomes the scale as it is, a smaller one gives scale 1 and
    a larger one scale 10; the pan offset is kept, except that a scale
    of 1 resets the view transform. *)
Theorem slider_sets_scale (w : World) (newScale : Q) :
  let z := zoom (app w) in
  let z' := zoom (app (dispatch (ScaleChange newScale) w)) in
  ((1 <= newScale <= 10)%Q -> (scale z' == newScale)%Q) /\
  ((newScale <= 1)%Q -> z' = unitZoom) /\
  ((10 <= newScale)%Q -> (scale z' == 10)%Q) /\
  (~ (scale z' == 1)%Q -> x z' = x z /\ y z' = y z).
Proof.
  intros z z'.
  assert (Hz' : z' = zoom (app (exec (setZoomLevel newScale) w))) by reflexivity.
  destruct (setZoomLevel_spec newScale w) as (Hrange & Hscale & Hone & Hkeep & _).
  cbv zeta in Hscale, Hone, Hkeep, Hrange. rewrite <- Hz' in Hscale, Hone, Hkeep.
  set (clamped := Math_max 1 (Math_min newScale 10)) in *.
  assert (Hin : (1 <= newScale <= 10)%Q -> (clamped == newScale)%Q).
  { intros [Hlo Hhi]. subst clamped. unfold Math_max, Math_min.
    apply Qle_bool_iff in Hhi. rewrite Hhi.
    apply Qle_bool_iff in Hlo. rewrite Hlo. reflexivity. }
  assert (Hlow : (newScale <= 1)%Q -> (clamped == 1)%Q).
  { intros Hle. subst clamped. unfold Math_max, Math_min.
    assert (H10 : Qle_bool newScale 10 = true) by (apply Qle_bool_iff; lra).
    rewrite H10. destruct (Qle_bool 1 newScale) eqn:H1; [|reflexivity].
    apply Qle_bool_iff in H1. lra. }
  assert (Hhigh : (10 <= newScale)%Q -> (clamped == 10)%Q).
  { intros Hge. subst clamped. unfold Math_max, Math_min.
    destruct (Qle_bool newScale 10) eqn:H10.
    - apply Qle_bool_iff in H10.
      assert (H1 : Qle_bool 1 newScale = true) by (apply Qle_bool_iff; lra).
      rewrite H1. lra.
    - reflexivity. }
  split; [|split; [|split]].
  - intros Hr. rewrite Hscale. now apply Hin.
  - intros Hle. apply Hone. now apply Hlow.
  - intros Hge. rewrite Hscale. now apply Hhigh.
  - intros Hs. apply Hkeep. intros Hc. apply Hs. now rewrite Hscale.
Qed.

End Slider.

(** ** The object URLs of the first two variants *)

Section EarlierUrls.
Context `{Platform}.

Lemma basic_scanParts_urls (parts : list Part) (n : nat) (w : Basic.World) :
  Basic.urls (exec (Basic.scanParts parts n) w) = Basic.urls w /\
  Basic.originalImageUrl (Basic.app (exec (Basic.scanParts parts n) w))
    = Basic.originalImageUrl (Basic.app w).
Proof.
  induction n as [|i IH]; [split; reflexivity|].
  cbn [Basic.scanParts]. destruct (parts !! i) as [part|]; [|split; reflexivity].
  destruct (inlineData part); [split; reflexivity | exact IH].
Qed.

Lemma basic_generateSettled_urls (o : Outcome) (w : Basic.World) :
  Basic.urls (exec (Basic.generateSettled o) w) = Basic.urls w /\
  Basic.originalImageUrl (Basic.app (exec (Basic.generateSettled o) w))
    = Basic.originalImageUrl (Basic.app w).
Proof.
  unfold Basic.generateSettled. destruct o as [t|parts]; [split; reflexivity|].
  pose proof (basic_scanParts_urls parts (length parts) w) as Hs.
  unfold exec in *. eff_unfold.
  destruct (Basic.scanParts parts (length parts) w) as [[[]|t] w'];
    cbn [snd fst negb] in *; exact Hs.
Qed.

(** What an event of the early variants does to the object URLs and to
    the URL on display. *)
Lemma earlier_dispatch_urls (e : Earlier.Event) (w : Basic.World) :
  let w' := Earlier.dispatch e w in
  (Basic.urls w' = Basic.urls w /\
   (Basic.originalImageUrl (Basic.app w') = Basic.originalImageUrl (Basic.app w) \/
    Basic.originalImageUrl (Basic.app w') = None)) \/
  (Basic.urls w' = snd (createObjectURL (Basic.urls w)) /\
   Basic.originalImageUrl (Basic.app w') = Some (nextUrl (Basic.urls w))).
Proof.
  destruct e; unfold Earlier.dispatch, Earlier.handler; cbv zeta.
  - unfold Basic.handleImageChange. destruct file; [right|left]; split; try reflexivity.
    now left.
  - left. split; [reflexivity | now left].
  - left. unfold Basic.handleGenerateClick.
    destruct (Basic.originalImage (Basic.app w)); [|split; [reflexivity | now left]].
    destruct (truthy _); split; try reflexivity; now left.
  - left. destruct (basic_generateSettled_urls o w) as [Hu Ho].
    split; [exact Hu | left; exact Ho].
  - left. split; [reflexivity | now right].
Qed.

(** X21. In the first two variants the object URL of an upload is the
    image on display and is never revoked: in every reachable state the
    URL on display is live, no event removes a live URL (reset included),
    and each upload adds one URL that was not live before. *)
Theorem early_variants_keep_object_urls (w : Basic.World) :
  Earlier.reachable w ->
  (forall url, Basic.originalImageUrl (Basic.app w) = Some url ->
     url ∈ liveUrls (Basic.urls w)) /\
  (forall e, liveUrls (Basic.urls w) ⊆ liveUrls (Basic.urls (Earlier.dispatch e w))) /\
  (forall file,
     let uploaded := Earlier.dispatch (Earlier.ImageChange (Some file)) w in
     exists url,
       (url ∉ liveUrls (Basic.urls w)) /\
       liveUrls (Basic.urls uploaded) = {[ url ]} ∪ liveUrls (Basic.urls w) /\
       Basic.originalImageUrl (Basic.app uploaded) = Some url).
Proof.
  intros (es & ->).
  assert (Hinv : (forall url,
              Basic.originalImageUrl (Basic.app (Earlier.run es Earlier.initialWorld)) = Some url ->
              url ∈ liveUrls (Basic.urls (Earlier.run es Earlier.initialWorld))) /\
            (forall url, url ∈ liveUrls (Basic.urls (Earlier.run es Earlier.initialWorld)) ->
              (url < nextUrl (Basic.urls (Earlier.run es Earlier.initialWorld)))%N)).
  { induction es as [|e es IH] using rev_ind.
    - split; [discriminate|]. intros url Hin. now apply elem_of_empty in Hin.
    - unfold Earlier.run in *. rewrite fold_left_app. cbn [fold_left].
      set (w := fold_left _ es _) in *. destruct IH as [Hshown Hfresh].
      destruct (earlier_dispatch_urls e w) as [[Hu [Ho | Ho]] | [Hu Ho]];
        cbv zeta in Hu, Ho; rewrite Hu, Ho.
      + split; assumption.
      + split; [discriminate | assumption].
      + cbn [createObjectURL snd liveUrls nextUrl]. split.
        * intros url [= <-]. apply elem_of_union_l. now apply elem_of_singleton.
        * intros url [Hin | Hin]%elem_of_union.
          -- apply elem_of_singleton in Hin. subst url. lia.
          -- apply Hfresh in Hin. lia. }
  set (w := Earlier.run es Earlier.initialWorld) in *.
  destruct Hinv as [Hshown Hfresh].
  split; [exact Hshown|]. split.
  - intros e.
    destruct (earlier_dispatch_urls e w) as [[Hu _] | [Hu _]]; cbv zeta in Hu; rewrite Hu.
    + reflexivity.
    + cbn [createObjectURL snd liveUrls]. apply union_subseteq_r.
  - intros file uploaded. exists (nextUrl (Basic.urls w)). split; [|split; reflexivity].
    intros Hin. apply Hfresh in Hin. lia.
Qed.

End EarlierUrls.

(** ** What the handlers leave alone *)

Section Frame.
Context `{Platform}.

Lemma forEachListener_texts (m : Eff World unit) :
  (forall w, prompt (app (exec m w)) = prompt (app w) /\
             error (app (exec m w)) = error (app w)) ->
  forall n w,
    prompt (app (exec (forEachListener n m) w)) = prompt (app w) /\
    error (app (exec (forEachListener n m) w)) = error (app w).
Proof.
  intros Hm n. induction n as [|n IH]; intros w; [split; reflexivity|].
  unfold exec in *. cbn [forEachListener]. unfold exec.
  destruct (IH (snd (m w))) as [H1 H2]. destruct (Hm w) as [H3 H4].
  rewrite H1, H2. split; assumption.
Qed.

(** X22. Editing the view does not lose work.  Filter clicks, undo,
    redo, the zoom controls, the wheel, pointer events and image loads
    leave the edited image, the prompt, the error and the loading flag as
    they are; generate calls and prompt edits leave the history and its
    index as they are; and an upload keeps the prompt. *)
Theorem handlers_leave_other_state (e : Event) (w : World) :
  let w' := dispatch e w in
  ((forall file ctx, e <> ImageChange file ctx) ->
   e <> GenerateClick -> (forall k o, e <> GenerateSettled k o) ->
   e <> ResetClick -> (forall value, e <> PromptChange value) ->
     editedImageUrl (app w') = editedImageUrl (app w) /\
     prompt (app w') = prompt (app w) /\
     error (app w') = error (app w) /\
     isLoading (app w') = isLoading (app w)) /\
  (e = GenerateClick \/ (exists k o, e = GenerateSettled k o) \/
   (exists value, e = PromptChange value) ->
     historyOf w' = historyOf w /\ baseImage (app w') = baseImage (app w) /\
     activeFilter (app w') = activeFilter (app w)) /\
  ((exists file ctx, e = ImageChange file ctx) ->
     prompt (app w') = prompt (app w) /\ historyOf w' = historyOf w).
Proof.
  cbv zeta. split; [|split].
  - intros Hup Hgen Hset Hreset Hprompt.
    destruct e; unfold dispatch, handler;
      try solve [exfalso; eapply Hup; reflexivity | exfalso; apply Hgen; reflexivity
                | exfalso; eapply Hset; reflexivity | exfalso; apply Hreset; reflexivity
                | exfalso; eapply Hprompt; reflexivity].
    + unfold handleFilterClick. destruct (baseImage (app w)); [|repeat split].
      destruct (String.eqb _ _); [repeat split|]. destruct ctx; repeat split.
    + unfold handleUndo. destruct (canUndo _); [|repeat split].
      destruct (js_index _ _); repeat split.
    + unfold handleRedo. destruct (canRedo _); [|repeat split].
      destruct (js_index _ _); repeat split.
    + repeat split.
    + repeat split.
    + repeat split.
    + repeat split.
    + unfold handleMouseDown. destruct (_ || _); repeat split.
    + destruct (forEachListener_frame (handleMouseMove clientX clientY)
                  ltac:(intros; repeat split) (dragListeners w) w) as (H1 & _ & H3).
      destruct (forEachListener_texts (handleMouseMove clientX clientY)
                  ltac:(intros; split; reflexivity) (dragListeners w) w) as (H4 & H5).
      repeat split; assumption.
    + destruct (forEachListener_frame handleMouseUp
                  ltac:(intros; repeat split) (dragListeners w) w) as (H1 & _ & H3).
      destruct (forEachListener_texts handleMouseUp
                  ltac:(intros; split; reflexivity) (dragListeners w) w) as (H4 & H5).
      repeat split; assumption.
    + destruct (imageLoads w !! k) as [[src file|src r flt]|];
        [repeat split | | repeat split].
      unfold imageOnload. destruct (baseImage r); repeat split.
  - intros [-> | [(k & o & ->) | (value & ->)]]; unfold dispatch, handler.
    + unfold handleGenerateClick.
      destruct (baseImage (app w)) eqn:Hb; [|repeat split; exact Hb].
      destruct (currentImageState (app w)); [|repeat split; exact Hb].
      destruct (truthy _); repeat split; exact Hb.
    + destruct (requests w !! k); [|repeat split].
      split; [apply (generateSettled_historyOf o (withRequests (delete k) w))|].
      unfold generateSettled. destruct o as [t|parts]; [repeat split|].
      assert (Hs : forall n w0,
                baseImage (app (exec (scanParts parts n) w0)) = baseImage (app w0) /\
                activeFilter (app (exec (scanParts parts n) w0)) = activeFilter (app w0)).
      { induction n as [|i IH]; intros w0; [split; reflexivity|].
        cbn [scanParts]. destruct (parts !! i) as [part|]; [|split; reflexivity].
        destruct (inlineData part); [split; reflexivity | apply IH]. }
      specialize (Hs (length parts) (withRequests (delete k) w)).
      unfold exec in *. eff_unfold.
      destruct (scanParts parts (length parts) _) as [[[]|t] w'];
        cbn [snd fst negb] in *; eff_unfold; exact Hs.
    + repeat split.
  - intros (file & ctx & ->). unfold dispatch, handler, handleImageChange.
    destruct file; [|split; reflexivity]. destruct ctx; split; reflexivity.
Qed.

End Frame.

(** * The further properties at sample states *)

Lemma posterize_idempotent_witness :
  Forall isByte samplePixels /\
  posterize [0; 85; 170; 77; 85; 170; 255; 0] = Some [0; 85; 170; 77; 85; 170; 255; 0].
Proof.
  assert (Hbytes : Forall isByte samplePixels)
    by (repeat constructor; unfold isByte; lia).
  split; [exact Hbytes|].
  destruct (posterize_idempotent samplePixels Hbytes) as (out & Hout & _ & Hidem).
  vm_compute in Hout. injection Hout as <-. exact Hidem.
Defined.

Lemma posterize_levels_bounded_monotone_witness :
  Forall isByte samplePixels /\ exists out, posterize samplePixels = Some out.
Proof.
  assert (Hbytes : Forall isByte samplePixels)
    by (repeat constructor; unfold isByte; lia).
  split; [exact Hbytes|].
  destruct (posterize_levels_bounded_monotone samplePixels Hbytes) as (out & Hout & _).
  exists out. exact Hout.
Defined.

Lemma fileToGenerativePart_round_trip_witness :
  without "," "image/png" = true /\
  without "," "iVBORw0KGgo=" = true /\
  inlineData (fileToGenerativePart sampleFile "data:image/png;base64,iVBORw0KGgo=")
  = Some {| data := Some "iVBORw0KGgo="; mimeType := Some "image/png" |}.
Proof.
  assert (Hmime : without "," "image/png" = true) by reflexivity.
  assert (Hpayload : without "," "iVBORw0KGgo=" = true) by reflexivity.
  split; [exact Hmime|]. split; [exact Hpayload|].
  destruct (fileToGenerativePart_round_trip sampleFile "image/png" "iVBORw0KGgo="
              Hmime Hpayload) as (Hpart & _).
  exact Hpart.
Defined.

Lemma undo_redo_round_trip_witness :
  currentImageState (app filteredWorld)
    = Some {| imageUrl := "data:image/png;base64,sepia/iVBORw0KGgo="; filter := "sepia" |} /\
  historyOf (@dispatch samplePlatform RedoClick
               (@dispatch samplePlatform UndoClick filteredWorld))
  = historyOf filteredWorld.
Proof.
  assert (Hcur : currentImageState (app filteredWorld)
                 = Some {| imageUrl := "data:image/png;base64,sepia/iVBORw0KGgo=";
                           filter := "sepia" |}) by reflexivity.
  split; [exact Hcur|].
  destruct (@undo_redo_round_trip samplePlatform filteredWorld _ Hcur) as (Hback & _).
  assert (Hi : 0 < historyIndex (app filteredWorld)) by reflexivity.
  exact (proj1 (Hback Hi)).
Defined.

Lemma undo_redo_safe_and_consistent_witness :
  @reachable samplePlatform filteredWorld /\
  fst (@handler samplePlatform UndoClick filteredWorld filteredWorld) = Normal tt.
Proof.
  assert (Hreach : @reachable samplePlatform filteredWorld) by (eexists; reflexivity).
  split; [exact Hreach|].
  exact (proj1 (@undo_redo_safe_and_consistent samplePlatform filteredWorld Hreach)).
Defined.

Lemma repeated_undo_redo_witness :
  @reachable samplePlatform filteredWorld /\
  history (app filteredWorld) <> [] /\
  historyOf (@run samplePlatform (clicks UndoClick 5) filteredWorld)
  = (history (app filteredWorld), 0).
Proof.
  assert (Hreach : @reachable samplePlatform filteredWorld) by (eexists; reflexivity).
  assert (Hne : history (app filteredWorld) <> []) by discriminate.
  split; [exact Hreach|]. split; [exact Hne|].
  exact (proj1 (@repeated_undo_redo samplePlatform filteredWorld 5 Hreach Hne)).
Defined.

Lemma history_entries_rendered_witness :
  @reachable samplePlatform filteredWorld /\
  Forall (@renderedEntry samplePlatform) (history (app filteredWorld)).
Proof.
  assert (Hreach : @reachable samplePlatform filteredWorld) by (eexists; reflexivity).
  split; [exact Hreach|].
  exact (@history_entries_rendered samplePlatform filteredWorld Hreach).
Defined.

Lemma one_generate_call_in_flight_witness :
  @offered samplePlatform loadingWorld /\ length (requests loadingWorld) = 1%nat.
Proof.
  assert (Hoff : @offered samplePlatform loadingWorld).
  { exists requestEvents. split; [vm_compute; reflexivity | reflexivity]. }
  split; [exact Hoff|].
  exact (@one_generate_call_in_flight samplePlatform loadingWorld Hoff).
Defined.

Lemma download_offers_edited_image_witness :
  @reachable samplePlatform settledWorld /\
  handleDownload (app settledWorld)
  = Some {| href := "data:image/jpeg;base64,BBBB"; download := "edited-cat.png" |}.
Proof.
  assert (Hreach : @reachable samplePlatform settledWorld) by (eexists; reflexivity).
  split; [exact Hreach|].
  pose proof (@download_offers_edited_image samplePlatform settledWorld Hreach) as Hd.
  change (editedImageUrl (app settledWorld))
    with (Some "data:image/jpeg;base64,BBBB") in Hd.
  destruct Hd as (_ & Hnamed & _).
  exact (Hnamed sampleFile eq_refl ltac:(discriminate)).
Defined.

Lemma drag_ends_at_mouse_up_witness :
  @reachable samplePlatform draggingWorld /\
  dragListeners (@dispatch samplePlatform MouseUp draggingWorld) = 0%nat.
Proof.
  assert (Hreach : @reachable samplePlatform draggingWorld) by (eexists; reflexivity).
  split; [exact Hreach|].
  destruct (@drag_ends_at_mouse_up samplePlatform draggingWorld Hreach) as (_ & Hnone & _).
  exact Hnone.
Defined.

Lemma cursor_matches_drag_witness :
  @reachable samplePlatform draggingWorld /\
  (cursor (app draggingWorld) = "grabbing" <-> (0 < dragListeners draggingWorld)%nat).
Proof.
  assert (Hreach : @reachable samplePlatform draggingWorld) by (eexists; reflexivity).
  split; [exact Hreach|].
  exact (proj1 (@cursor_matches_drag samplePlatform draggingWorld 0 0 Hreach)).
Defined.

Lemma zoom_valid_without_drag_witness :
  Forall (fun e => forall onImage clientX clientY, e <> MouseDown onImage clientX clientY)
    calmEvents /\
  zoomValid (zoom (app (@run samplePlatform calmEvents initialWorld))).
Proof.
  assert (Hcalm : Forall (fun e => forall onImage clientX clientY,
                            e <> MouseDown onImage clientX clientY) calmEvents)
    by (repeat constructor; discriminate).
  split; [exact Hcalm|].
  exact (proj1 (@zoom_valid_without_drag samplePlatform calmEvents Hcalm)).
Defined.

Lemma zoom_percentage_range_witness :
  @reachable samplePlatform draggingWorld /\
  100 <= zoomPercentage (scale (zoom (app draggingWorld))) <= 1000.
Proof.
  assert (Hreach : @reachable samplePlatform draggingWorld) by (eexists; reflexivity).
  split; [exact Hreach|].
  exact (proj1 (@zoom_percentage_range samplePlatform draggingWorld Hreach)).
Defined.

Lemma wheel_zooms_in_its_direction_witness :
  @reachable samplePlatform draggingWorld /\
  isDouble (scale (zoom (app draggingWorld))) /\
  (scale (zoom (app (@dispatch samplePlatform (Wheel 100) draggingWorld)))
   <= scale (zoom (app draggingWorld)))%Q.
Proof.
  assert (Hreach : @reachable samplePlatform draggingWorld) by (eexists; reflexivity).
  assert (Hdouble : isDouble (scale (zoom (app draggingWorld)))) by (vm_compute; reflexivity).
  split; [exact Hreach|]. split; [exact Hdouble|].
  destruct (@wheel_zooms_in_its_direction samplePlatform draggingWorld 100 Hreach Hdouble)
    as (Hdown & _).
  apply Hdown. discriminate.
Defined.

Lemma early_variants_keep_object_urls_witness :
  @Earlier.reachable samplePlatform earlyWorld /\
  (forall url, Basic.originalImageUrl (Basic.app earlyWorld) = Some url ->
     url ∈ liveUrls (Basic.urls earlyWorld)).
Proof.
  assert (Hreach : @Earlier.reachable samplePlatform earlyWorld) by (eexists; reflexivity).
  split; [exact Hreach|].
  exact (proj1 (@early_variants_keep_object_urls samplePlatform earlyWorld Hreach)).
Defined.
